(** * Visualization interop layer: graph, timeline and map widgets

    A shallow embedding of the JavaScript interop code of the
    FinancialCrimeWebApp network components, and the properties of its
    natural-language specification that can be settled on it.

    Conventions of the embedding.
    - A JavaScript object that the code mutates in place is a record that
      is passed through and returned.
    - [Map] registries are [gmap]s, [Set]s are [gset]s, arrays are lists.
    - A call either returns or throws: [completion].
    - [console.log/warn/error] append to a [console] list.
    - Node ids, container ids and instance ids are strings; a date is its
      time in milliseconds, an integer.
    - The third-party libraries (d3, vis.js, Leaflet) are outside the
      repository.  What they do to the state the repository code keeps
      (liveness of a widget, layers of a map, the ends of the links) is
      written out, and so is where they throw on what the repository
      code hands them: d3's [forceLink] on an id that no node has,
      [vis.DataSet] on two items with one id, [localStorage] in a page
      that may not read it.  Their other constructors and methods are
      taken to complete normally. *)

From Stdlib Require Import ZArith QArith Lia.
From stdpp Require Import base option list gmap sets strings pretty sorting.

Set Warnings "-clear-no-such-hyp".

Local Open Scope Z_scope.
Local Open Scope nat_scope.

(** ** JavaScript basics shared by the widgets *)

Module Js.

(** Result of a call: a normal return or an exception that reaches the
    caller. *)
Inductive completion (A : Type) : Type :=
| Return (a : A)
| Throw (message : string).
Arguments Return {A} a.
Arguments Throw {A} message.

Inductive level := Log | Warn | Error.

Definition console := list (level * string).

(** Truthiness of a string value: only the empty string is falsy. *)
Definition truthy (s : string) : bool :=
  match s with
  | EmptyString => false
  | String _ _ => true
  end.

(** [Array.prototype.sort] with the comparator [(a, b) => key(a) - key(b)]
    on finite keys: the stable sort by [key]. *)
Fixpoint insert_by {A} (key : A → Z) (x : A) (l : list A) : list A :=
  match l with
  | [] => [x]
  | y :: l' =>
      if (key x <=? key y)%Z then x :: l else y :: insert_by key x l'
  end.

Fixpoint sort_by {A} (key : A → Z) (l : list A) : list A :=
  match l with
  | [] => []
  | x :: l' => insert_by key x (sort_by key l')
  end.

End Js.

(** ** NetworkGraph (d3 force graph), incidentGeoMappingInterop.js *)

Module NetworkGraph.
Import Js.

(** A node datum.  A missing [id] or [color] is the empty string and a
    missing [size] is [0], all falsy in JavaScript. *)
Record node := mkNode {
  id : string;
  color : string;
  size : Z;
  riskScore : Z;
  status : string
}.

Global Instance node_eq_dec : EqDecision node.
Proof. solve_decision. Defined.

(** An end of a link that is there: the id the host supplied ([Ref],
    the empty string included) or the node object that d3's [forceLink]
    put in its place ([Obj]).  An end that is [undefined] or [null] is
    no value of this type: a graph here is one whose links all have
    both ends. *)
Inductive endpoint :=
| Ref (node_id : string)
| Obj (n : node).

Record link := mkLink {
  source : endpoint;
  target : endpoint;
  link_color : string;
  width : Z
}.

Global Instance endpoint_eq_dec : EqDecision endpoint.
Proof. solve_decision. Defined.

Global Instance link_eq_dec : EqDecision link.
Proof. solve_decision. Defined.

(** [e.id]: the id of a node object, [undefined] on an id string. *)
Definition endpoint_id (e : endpoint) : option string :=
  match e with
  | Ref _ => None
  | Obj n => Some (id n)
  end.

(** [!e] on a link end: the empty id is falsy, an object never is. *)
Definition endpoint_truthy (e : endpoint) : bool :=
  match e with
  | Ref s => truthy s
  | Obj _ => true
  end.

Record graph := mkGraph {
  nodes : list node;
  links : list link;
  nodeRadius : Z;
  log : console
}.

Definition getNodeColor (n : node) : string :=
  if String.eqb (status n) "Sanctioned" then "#e74c3c"
  else if String.eqb (status n) "Flagged" then "#e67e22"
  else if (8 <=? riskScore n)%Z then "#e74c3c"
  else if (6 <=? riskScore n)%Z then "#f39c12"
  else if (4 <=? riskScore n)%Z then "#3498db"
  else "#2ecc71".

Definition getNodeSize (g : graph) (n : node) : Z :=
  (nodeRadius g + riskScore n * 2)%Z.

(** One step of [this.nodes.forEach] in [loadData].  [rand k] is the
    string that the [k]-th evaluation of
    [Math.random().toString(36).substr(2, 9)] yields. *)
Definition process_node (g : graph) (rand : nat → string)
    (acc : nat * list node) (n : node) : nat * list node :=
  let '(k, done) := acc in
  let '(k', id') := if truthy (id n) then (k, id n) else (S k, rand k) in
  let n1 := mkNode id' (color n) (size n) (riskScore n) (status n) in
  let color' := if truthy (color n1) then color n1 else getNodeColor n1 in
  let n2 := mkNode id' color' (size n) (riskScore n) (status n) in
  let size' := if (size n2 =? 0)%Z then getNodeSize g n2 else size n2 in
  (k', done ++ [mkNode id' color' size' (riskScore n) (status n)]).

(** [!link.source || !link.target]. *)
Definition lacks_end (l : link) : bool :=
  negb (endpoint_truthy (source l)) || negb (endpoint_truthy (target l)).

(** The link with the default colour and width filled in. *)
Definition with_defaults (l : link) : link :=
  mkLink (source l) (target l)
    (if truthy (link_color l) then link_color l else "#999")
    (if (width l =? 0)%Z then 2%Z else width l).

(** One step of [this.links.forEach] in [loadData]: warn on a missing
    end, fill the defaults, keep the link. *)
Definition process_link (acc : console * list link) (l : link)
    : console * list link :=
  let '(out, done) := acc in
  let out' :=
    if lacks_end l
    then out ++ [(Warn, "Link missing source or target")]
    else out in
  (out', done ++ [with_defaults l]).

(** [find(nodeById, nodeId)] of d3's [forceLink].  [nodeById] is a
    [Map] from the ids to the nodes, so of two nodes with one id the
    later one is found; an id that no node has is an error. *)
Definition forceLink_find (nodes : list node) (nodeId : string)
    : completion node :=
  match last (filter (λ n, id n = nodeId) nodes) with
  | Some n => Return n
  | None => Throw ("node not found: " +:+ nodeId)
  end.

(** [if (typeof end !== "object") end = find(nodeById, end)]. *)
Definition forceLink_resolve (nodes : list node) (e : endpoint)
    : completion endpoint :=
  match e with
  | Obj n => Return (Obj n)
  | Ref s =>
      match forceLink_find nodes s with
      | Return n => Return (Obj n)
      | Throw msg => Throw msg
      end
  end.

(** The loop of [forceLink]'s [initialize], which runs when [render]
    hands the force to the simulation: it replaces the ends of the
    links by node objects, in place and in order, source before target,
    and stops at the first id it cannot find.  The result is how the
    call ends and the links as it leaves them. *)
Fixpoint forceLink_initialize (nodes : list node) (ls : list link)
    : completion unit * list link :=
  match ls with
  | [] => (Return tt, [])
  | l :: rest =>
      match forceLink_resolve nodes (source l) with
      | Throw msg => (Throw msg, l :: rest)
      | Return s =>
          match forceLink_resolve nodes (target l) with
          | Throw msg =>
              (Throw msg, mkLink s (target l) (link_color l) (width l) :: rest)
          | Return t =>
              let '(r, rest') := forceLink_initialize nodes rest in
              (r, mkLink s t (link_color l) (width l) :: rest')
          end
      end
  end.

(** [render()]: the force simulation resolves the links; the d3
    selections that follow read the nodes and the links and change
    neither. *)
Definition render (g : graph) : completion unit * graph :=
  let '(r, ls) := forceLink_initialize (nodes g) (links g) in
  (r, mkGraph (nodes g) ls (nodeRadius g) (log g)).

(** [loadData(data)]: how the call ends, and the graph object as it
    leaves it. *)
Definition loadData (rand : nat → string) (data_nodes : list node)
    (data_links : list link) (g : graph) : completion unit * graph :=
  let nodes' := (foldl (process_node g rand) (0, []) data_nodes).2 in
  let '(out, links') := foldl process_link (log g, []) data_links in
  render (mkGraph nodes' links' (nodeRadius g) out).

(** *** Shortest path *)

(** [visited.has(v)] where [v] may be [undefined]. *)
Definition has (visited : gset string) (v : option string) : bool :=
  match v with
  | Some s => bool_decide (s ∈ visited)
  | None => false
  end.

(** The value of [neighbor] after the two tests of the [forEach] body;
    [None] stands for [null] and for [undefined]. *)
Definition neighbor_of (current : string) (visited : gset string)
    (l : link) : option string :=
  if bool_decide (endpoint_id (source l) = Some current)
     && negb (has visited (endpoint_id (target l)))
  then endpoint_id (target l)
  else if bool_decide (endpoint_id (target l) = Some current)
          && negb (has visited (endpoint_id (source l)))
  then endpoint_id (source l)
  else None.

(** Body of [this.links.forEach] for the path taken from the queue. *)
Definition visit (current : string) (path : list string)
    (st : gset string * list (list string)) (l : link)
    : gset string * list (list string) :=
  match neighbor_of current st.1 l with
  | Some n =>
      if truthy n then ({[n]} ∪ st.1, st.2 ++ [path ++ [n]]) else st
  | None => st
  end.

(** What [findShortestPath] returns. *)
Inductive found := Path (p : list string) | Null.

(** The [while (queue.length > 0)] loop; [None] when the fuel runs out
    before the loop ends. *)
Fixpoint bfs (fuel : nat) (ls : list link) (targetId : string)
    (queue : list (list string)) (visited : gset string) : option found :=
  match fuel with
  | O => None
  | S fuel' =>
      match queue with
      | [] => Some Null
      | path :: rest =>
          match last path with
          | None => bfs fuel' ls targetId rest visited
          | Some current =>
              if bool_decide (current = targetId) then Some (Path path)
              else
                let st := foldl (visit current path) (visited, rest) ls in
                bfs fuel' ls targetId st.2 st.1
          end
      end
  end.

(** Every iteration takes a path off the queue, and every path put on
    it marks a new link end as visited. *)
Definition fuel_for (ls : list link) : nat := 2 * length ls + 2.

Definition findShortestPath (g : graph) (sourceId targetId : string)
    : option found :=
  bfs (fuel_for (links g)) (links g) targetId [[sourceId]] {[sourceId]}.

End NetworkGraph.

(** Paths of the graph that the links describe, read in both directions. *)

Module Paths.
Import NetworkGraph.

(** Link [l] joins [u] and [v], in either direction. *)
Definition joins (l : link) (u v : string) : Prop :=
  (endpoint_id (source l) = Some u ∧ endpoint_id (target l) = Some v) ∨
  (endpoint_id (source l) = Some v ∧ endpoint_id (target l) = Some u).

Definition adjacent (ls : list link) (u v : string) : Prop :=
  ∃ l, l ∈ ls ∧ joins l u v.

(** [p] lists node ids from [a] to [b], each next one linked to the
    one before. *)
Definition is_path (ls : list link) (a b : string) (p : list string) : Prop :=
  head p = Some a ∧ last p = Some b ∧
  ∀ i u v, p !! i = Some u → p !! S i = Some v → adjacent ls u v.

Definition connected (ls : list link) (a b : string) : Prop :=
  ∃ p, is_path ls a b p.

(** Number of links a path walks along. *)
Definition hops (p : list string) : nat := length p - 1.

Definition present (g : graph) (a : string) : Prop :=
  a ∈ id <$> nodes g.

(** Both ends of the link are node objects of the node array. *)
Definition resolved (g : graph) (l : link) : Prop :=
  match source l, target l with
  | Obj n, Obj m => n ∈ nodes g ∧ m ∈ nodes g
  | _, _ => False
  end.

(** The state [loadData] and d3 leave behind: every node has a truthy
    id and every link end is a node object of the node array. *)
Definition well_formed (g : graph) : Prop :=
  Forall (λ n, Js.truthy (id n) = true) (nodes g) ∧
  Forall (resolved g) (links g).

Global Instance resolved_dec g l : Decision (resolved g l).
Proof. unfold resolved. destruct (source l), (target l); apply _. Defined.

Global Instance well_formed_dec g : Decision (well_formed g).
Proof. unfold well_formed. apply _. Defined.

Global Instance present_dec g a : Decision (present g a).
Proof. unfold present. apply _. Defined.

(** The same paths, grown at the far end as the search grows them. *)
Inductive walk (ls : list link) (a : string) : list string → string → Prop :=
| walk_start : walk ls a [a] a
| walk_step p u v :
    walk ls a p u → adjacent ls u v → walk ls a (p ++ [v]) v.

(** The state of the search between two turns of its loop.  The queue
    holds paths of [k] ids followed by paths of [k + 1] ids; each is a
    shortest path to its end; everything within [k] ids of the source is
    visited; a visited id with an unvisited neighbour still waits in the
    queue, and so does the target once visited. *)
Record level_inv (ls : list link) (a b : string) (k : nat)
    (Q1 Q2 : list (list string)) (V : gset string) : Prop := {
  inv_pos : 1 ≤ k;
  inv_now : Forall (λ p, length p = k) Q1;
  inv_next : Forall (λ p, length p = S k) Q2;
  inv_near : ∀ q v, walk ls a q v → length q ≤ k → v ∈ V;
  inv_short : ∀ p, p ∈ Q1 ++ Q2 →
    ∃ u, walk ls a p u ∧ u ∈ V ∧ ∀ q, walk ls a q u → length p ≤ length q;
  inv_front : ∀ u v, u ∈ V → adjacent ls u v → v ∉ V →
    ∃ p, p ∈ Q1 ++ Q2 ∧ last p = Some u;
  inv_target : b ∈ V → ∃ p, p ∈ Q1 ++ Q2 ∧ last p = Some b
}.

(** What a result of the search means. *)
Definition answers (ls : list link) (a b : string) (r : found) : Prop :=
  match r with
  | Path p => walk ls a p b ∧ ∀ q, walk ls a q b → length p ≤ length q
  | Null => ∀ q, ¬ walk ls a q b
  end.

(** Ids that some link carries at one of its ends. *)
Definition link_ids (ls : list link) : list string :=
  ls ≫= λ l, option_list (endpoint_id (source l))
             ++ option_list (endpoint_id (target l)).

(** Paths waiting plus link ids not yet visited: one less after every
    turn of the loop. *)
Definition budget (ls : list link) (Q : list (list string))
    (V : gset string) : nat :=
  length Q + base.size (list_to_set (link_ids ls) ∖ V : gset string).

(** A loaded node keeps what the model said about it. *)
Definition kept (d n' : node) : Prop :=
  (Js.truthy (id d) = true → id n' = id d)
  ∧ riskScore n' = riskScore d ∧ status n' = status d.

(** Link [l] has the id [s] at an end, and none of the nodes [ns] has
    that id. *)
Definition dangling (ns : list node) (l : link) (s : string) : Prop :=
  (source l = Ref s ∨ target l = Ref s) ∧ s ∉ id <$> ns.

(** The end [e'] is the node object that stands for the end [e]: the
    object itself, or the node of [ns] with the id given. *)
Definition stands_for (ns : list node) (e e' : endpoint) : Prop :=
  ∃ n, e' = Obj n ∧ (e = Obj n ∨ (e = Ref (id n) ∧ n ∈ ns)).

(** The link [l'] is the link [l] with both ends resolved. *)
Definition resolved_as (ns : list node) (l l' : link) : Prop :=
  stands_for ns (source l) (source l') ∧
  stands_for ns (target l) (target l') ∧
  link_color l' = link_color l ∧ width l' = width l.

End Paths.

Module GraphExamples.
Import NetworkGraph.

Definition n (s : string) : node := mkNode s "#fff" 20 0 "Active".
Definition e (a b : string) : link := mkLink (Obj (n a)) (Obj (n b)) "#999" 2.

Definition square : graph :=
  mkGraph [n "A"; n "B"; n "C"; n "D"; n "E"]
          [e "A" "B"; e "C" "B"; e "A" "D"; e "D" "C"] 20 [].

(** A model as the host sends it: ids at the link ends, the second
    link pointing at a node that is not there. *)
Definition dangling_nodes : list node := [n "A"; n "B"].
Definition dangling_links : list link :=
  [mkLink (Ref "A") (Ref "B") "#999" 2;
   mkLink (Ref "A") (Ref "ghost") "#999" 2].
Definition blank : graph := mkGraph [] [] 20 [].
Definition no_random : nat → string := λ _, "r4nd0m".

End GraphExamples.

(** ** Graph registry, incidentGeoMappingInterop.js (ES module exports) *)

Module GraphInterop.
Import Js.

(** A constructed [NetworkGraph]: the element it was built on, its data,
    and whether its [svg] is still attached. *)
Record instance := mkInstance {
  container : string;
  data : NetworkGraph.graph;
  attached : bool
}.

Record world := mkWorld {
  document : gset string;
  graphInstances : gmap string instance;
  out : console
}.

(** [new NetworkGraph(containerId, options)]; of the options only
    [nodeRadius] is kept, [20] when the host gives none. *)
Definition construct (doc : gset string) (containerId : string)
    (nodeRadius : option Z) : completion instance :=
  if bool_decide (containerId ∈ doc)
  then Return (mkInstance containerId
                 (NetworkGraph.mkGraph [] [] (default 20%Z nodeRadius) []) true)
  else Throw ("Container " +:+ containerId +:+ " not found").

(** [graph.destroy()]. *)
Definition destroy (i : instance) : instance :=
  mkInstance (container i) (data i) false.

(** [initializeNetworkGraph]; [now] and [rnd] are what [Date.now()] and
    the random suffix evaluate to. *)
Definition initializeNetworkGraph (now : N) (rnd : string)
    (containerId : string) (nodeRadius : option Z) (w : world)
    : completion string * world :=
  let graphId := "graph-" +:+ pretty now +:+ "-" +:+ rnd in
  match construct (document w) containerId nodeRadius with
  | Return graph =>
      (Return graphId,
       mkWorld (document w) (<[graphId := graph]> (graphInstances w))
         (out w ++ [(Log, "NetworkGraph initialized");
                    (Log, "NetworkGraph initialized with ID: " +:+ graphId)]))
  | Throw err =>
      (Throw err,
       mkWorld (document w) (graphInstances w)
         (out w ++ [(Error, "Error initializing NetworkGraph: " +:+ err)]))
  end.

Definition findShortestPath (graphId sourceId targetId : string) (w : world)
    : option NetworkGraph.found * world :=
  match graphInstances w !! graphId with
  | None =>
      (Some NetworkGraph.Null,
       mkWorld (document w) (graphInstances w)
         (out w ++ [(Error, "Graph " +:+ graphId +:+ " not found")]))
  | Some graph =>
      (NetworkGraph.findShortestPath (data graph) sourceId targetId, w)
  end.

Definition destroyGraph (graphId : string) (w : world) : world :=
  match graphInstances w !! graphId with
  | None =>
      mkWorld (document w) (graphInstances w)
        (out w ++ [(Error, "Graph " +:+ graphId +:+ " not found")])
  | Some _ =>
      mkWorld (document w) (delete graphId (graphInstances w)) (out w)
  end.


End GraphInterop.

(** ** criminalNetworkIntelligenceInterop.js *)

Module CriminalNetwork.
Import Js.

(** [findShortestPath(sourceId, targetId)] on [window.criminalGraph]:
    [path || []], and [[]] when there is no graph. *)
Definition findShortestPath (criminalGraph : option NetworkGraph.graph)
    (sourceId targetId : string) : option (list string) :=
  match criminalGraph with
  | Some g =>
      match NetworkGraph.findShortestPath g sourceId targetId with
      | Some (NetworkGraph.Path p) => Some p
      | Some NetworkGraph.Null => Some []
      | None => None
      end
  | None => Some []
  end.

End CriminalNetwork.

(** ** NetworkGraphInterop (vis.js network), module-level singleton *)

Module NetworkGraphInterop.
Import Js.

(** The closure variables of the module, the page, and the [vis.Network]
    objects built so far ([true] while not destroyed). *)
Record state := mkState {
  document : gset string;
  networks : list bool;
  network : option nat;
  nodes : option (list string);
  edges : option (list string);
  container : option string;
  dotNetHelper : option string;
  out : console
}.

Definition initialize (containerId : string) (dotNetRef : option string)
    (s : state) : bool * state :=
  if bool_decide (containerId ∈ document s) then
    (true,
     mkState (document s) (networks s ++ [true])
       (Some (length (networks s))) (Some []) (Some [])
       (Some containerId) dotNetRef
       (out s ++ [(Log, "Network graph initialized successfully")]))
  else
    (false,
     mkState (document s) (networks s) (network s) (nodes s) (edges s)
       None (dotNetHelper s)
       (out s ++ [(Error, "Container element not found: " +:+ containerId)])).

Definition destroy (s : state) : bool * state :=
  match network s with
  | Some h =>
      (true,
       mkState (document s) (<[h := false]> (networks s))
         None None None (container s) None (out s))
  | None => (false, s)
  end.

End NetworkGraphInterop.

(** ** TimelineEnhancements, timeline-enhancements.js *)

Module TimelineEnhancements.
Import Js.

(** A timeline item: its id and [new Date(item.start)] in milliseconds. *)
Record item := mkItem {
  item_id : string;
  start : Z
}.

Record burst := mkBurst {
  burst_start : Z;
  count : nat;
  items : list item
}.

Record gap := mkGap {
  gap_start : Z;
  gap_end : Z;
  duration : Z
}.

(** The inner [for (j = i + 1; ...)] loop: [count] goes up while the
    next item starts less than [timeWindow] after [currentTime], and
    the loop breaks at the first that does not. *)
Fixpoint count_within (timeWindow currentTime : Z) (rest : list item)
    (count : nat) : nat :=
  match rest with
  | [] => count
  | next :: rest' =>
      if (start next - currentTime <? timeWindow)%Z
      then count_within timeWindow currentTime rest' (S count)
      else count
  end.

(** The outer [for (i = 0; ...)] loop over the sorted items, as a
    recursion on the items from position [i] on. *)
Fixpoint scan (threshold : nat) (timeWindow : Z) (sortedItems : list item)
    : list burst :=
  match sortedItems with
  | [] => []
  | current :: rest =>
      let currentTime := start current in
      let count := count_within timeWindow currentTime rest 1 in
      (if bool_decide (threshold ≤ count)
       then [mkBurst currentTime count (take count sortedItems)]
       else [])
      ++ scan threshold timeWindow rest
  end.

(** The items at the head of [rest] that start less than [timeWindow]
    after [currentTime]: those the inner loop counts. *)
Fixpoint run_of (timeWindow currentTime : Z) (rest : list item) : list item :=
  match rest with
  | [] => []
  | next :: rest' =>
      if (start next - currentTime <? timeWindow)%Z
      then next :: run_of timeWindow currentTime rest'
      else []
  end.

(** [detectBursts] with its two constants as parameters. *)
Definition detectBurstsWith (threshold : nat) (timeWindow : Z)
    (its : list item) : list burst :=
  scan threshold timeWindow (sort_by start its).

Definition threshold : nat := 5.
Definition timeWindow : Z := 60 * 60 * 1000.

Definition detectBursts (its : list item) : list burst :=
  detectBurstsWith threshold timeWindow its.

Fixpoint gaps_from (limit : Z) (sortedItems : list item) : list gap :=
  match sortedItems with
  | current :: (next :: _) as rest =>
      (if (limit <? start next - start current)%Z
       then [mkGap (start current) (start next) (start next - start current)]
       else [])
      ++ gaps_from limit rest
  | _ => []
  end.

Definition detectGaps (its : list item) : list gap :=
  gaps_from (24 * 60 * 60 * 1000) (sort_by start its).

(** What [addPatternDetection] writes to the console. *)
Definition addPatternDetection (its : list item) : console :=
  (if bool_decide (0 < length (detectBursts its))
   then [(Log, "Detected bursts:")] else [])
  ++ (if bool_decide (0 < length (detectGaps its))
      then [(Log, "Detected gaps:")] else []).

End TimelineEnhancements.

(** ** Timeline interop (vis.js timeline), keyed by container id *)

Module TimelineInterop.
Import Js.
Export TimelineEnhancements.

(** A [vis.Timeline] object. *)
Record timeline := mkTimeline {
  tl_container : string;
  itemsData : list item;
  tl_live : bool;
  selection : list string
}.

(** [shipmentTimelinePlayback]. *)
Record playback := mkPlayback {
  interval : option positive;
  currentIndex : nat;
  isPlaying : bool;
  containerId : option string
}.

(** The page, the module variables, the [vis.Timeline] objects built so
    far (a handle is a position in [objects]) and the intervals that
    are set, each with the timeline and the items its callback holds.
    [setInterval] hands out positive ids, so an id is always truthy.
    [storage_readable] says whether [localStorage.getItem] returns; in
    a page that may not use the storage it throws. *)
Record world := mkWorld {
  document : gset string;
  vis_loaded : bool;
  enhancements_loaded : bool;
  storage_readable : bool;
  objects : list timeline;
  timelineInstances : gmap string nat;
  dotNetReference : option string;
  shipmentTimelinePlayback : playback;
  timers : gmap positive (nat * list item);
  next_timer : positive;
  out : console
}.

Definition say (lv : level) (msg : string) (w : world) : world :=
  mkWorld (document w) (vis_loaded w) (enhancements_loaded w)
    (storage_readable w) (objects w)
    (timelineInstances w) (dotNetReference w) (shipmentTimelinePlayback w)
    (timers w) (next_timer w) (out w ++ [(lv, msg)]).

Definition with_objects (os : list timeline) (w : world) : world :=
  mkWorld (document w) (vis_loaded w) (enhancements_loaded w)
    (storage_readable w) os
    (timelineInstances w) (dotNetReference w) (shipmentTimelinePlayback w)
    (timers w) (next_timer w) (out w).

Definition with_instances (m : gmap string nat) (w : world) : world :=
  mkWorld (document w) (vis_loaded w) (enhancements_loaded w)
    (storage_readable w) (objects w)
    m (dotNetReference w) (shipmentTimelinePlayback w)
    (timers w) (next_timer w) (out w).

Definition with_dotNet (r : option string) (w : world) : world :=
  mkWorld (document w) (vis_loaded w) (enhancements_loaded w)
    (storage_readable w) (objects w)
    (timelineInstances w) r (shipmentTimelinePlayback w)
    (timers w) (next_timer w) (out w).

Definition with_playback (pb : playback) (w : world) : world :=
  mkWorld (document w) (vis_loaded w) (enhancements_loaded w)
    (storage_readable w) (objects w)
    (timelineInstances w) (dotNetReference w) pb
    (timers w) (next_timer w) (out w).

Definition with_timers (ts : gmap positive (nat * list item))
    (next : positive) (w : world) : world :=
  mkWorld (document w) (vis_loaded w) (enhancements_loaded w)
    (storage_readable w) (objects w)
    (timelineInstances w) (dotNetReference w) (shipmentTimelinePlayback w)
    ts next (out w).

Definition kill (t : timeline) : timeline :=
  mkTimeline (tl_container t) (itemsData t) false (selection t).

(** [timeline.destroy()] on the object behind handle [h]. *)
Definition destroy_object (h : nat) (w : world) : world :=
  with_objects (alter kill h (objects w)) w.

(** [timeline.setSelection(ids)]. *)
Definition setSelection (h : nat) (ids : list string) (w : world) : world :=
  with_objects
    (alter (λ t, mkTimeline (tl_container t) (itemsData t) (tl_live t) ids)
           h (objects w)) w.

(** [new vis.Timeline(container, items, ...)]: the new handle and the
    world that holds the object. *)
Definition new_timeline (c : string) (its : list item) (w : world)
    : nat * world :=
  (length (objects w),
   with_objects (objects w ++ [mkTimeline c its true []]) w).

(** [new vis.DataSet(items)] for an array of items that all have an
    id: the constructor adds them one by one and throws on an id it
    has already. *)
Definition dataSet (its : list item) : completion (list item) :=
  if bool_decide (NoDup (item_id <$> its)) then Return its
  else Throw "Cannot add item: item with id already exists".

(** [TimelineEnhancements.initialize]: [null] without the container.
    With it, the timeline is built first; [addThemeSupport] then reads
    [localStorage] and throws where that is not allowed, before
    [addPatternDetection] writes its lines. *)
Definition enhancements_initialize (c : string) (its : list item)
    (w : world) : completion (option nat) * world :=
  if bool_decide (c ∈ document w) then
    let '(h, w1) := new_timeline c its w in
    if storage_readable w1 then
      (Return (Some h),
       mkWorld (document w1) (vis_loaded w1) (enhancements_loaded w1)
         (storage_readable w1)
         (objects w1) (timelineInstances w1) (dotNetReference w1)
         (shipmentTimelinePlayback w1) (timers w1) (next_timer w1)
         (out w1 ++ addPatternDetection its))
    else (Throw "SecurityError", w1)
  else (Return None, say Error ("Timeline container not found: " +:+ c) w).

(** The [if (timelineInstances.has(containerId))] block shared by the
    initializers. *)
Definition destroy_existing (c : string) (w : world) : world :=
  match timelineInstances w !! c with
  | Some h => with_instances (delete c (timelineInstances w)) (destroy_object h w)
  | None => w
  end.

(** [initializeEnhancedTimeline] called with an array of items, the
    way the .NET side calls it; whatever is thrown inside is caught,
    logged and answered with [false]. *)
Definition initializeEnhancedTimeline (c : string) (its : list item)
    (dotNetRef : option string) (useEnhancements : bool) (w : world)
    : bool * world :=
  let w := match dotNetRef with
           | Some r => with_dotNet (Some r) w
           | None => w
           end in
  if negb (vis_loaded w) then
    (false, say Error "vis.js library not loaded" w)
  else if negb (bool_decide (c ∈ document w)) then
    (false, say Error ("Container " +:+ c +:+ " not found") w)
  else
    let w := destroy_existing c w in
    match dataSet its with
    | Throw _ => (false, say Error "Error initializing enhanced timeline:" w)
    | Return itemsDataSet =>
        let '(made, w) :=
          if useEnhancements && enhancements_loaded w
          then enhancements_initialize c itemsDataSet w
          else let '(h, w1) := new_timeline c itemsDataSet w in
               (Return (Some h), w1) in
        match made with
        | Throw _ =>
            (false, say Error "Error initializing enhanced timeline:" w)
        | Return None => (false, say Error "Failed to initialize timeline" w)
        | Return (Some h) =>
            (true,
             say Log ("Enhanced timeline initialized successfully: " +:+ c)
               (with_instances (<[c := h]> (timelineInstances w)) w))
        end
    end.

Definition initializeBasicTimeline (c : string) (its : list item)
    (dotNetRef : option string) (w : world) : bool * world :=
  initializeEnhancedTimeline c its dotNetRef false w.

Definition destroyTimeline (c : string) (w : world) : bool * world :=
  match timelineInstances w !! c with
  | Some h =>
      (true,
       say Log ("Timeline " +:+ c +:+ " destroyed")
         (with_instances (delete c (timelineInstances w)) (destroy_object h w)))
  | None => (true, w)
  end.

Definition isTimelineInitialized (c : string) (w : world) : bool :=
  bool_decide (is_Some (timelineInstances w !! c)).

(** Handle [h] is a timeline on container [c] that was not destroyed. *)
Definition live (w : world) (h : nat) (c : string) : Prop :=
  ∃ t, objects w !! h = Some t ∧ tl_container t = c ∧ tl_live t = true.

(** The objects once the timeline registered for [c], if any, is
    destroyed. *)
Definition survivors (c : string) (w : world) : list timeline :=
  match timelineInstances w !! c with
  | Some h => alter kill h (objects w)
  | None => objects w
  end.

(** Every timeline that was not destroyed is the one registered for its
    container. *)
Definition registry_owns (w : world) : Prop :=
  ∀ h t, objects w !! h = Some t → tl_live t = true →
         timelineInstances w !! tl_container t = Some h.

(** *** Shipment timeline playback *)

Definition initializeShipmentTimeline (c : string) (timelineData : list item)
    (w : world) : bool * world :=
  if negb (bool_decide (c ∈ document w)) then
    (false, say Error ("Container " +:+ c +:+ " not found") w)
  else if negb (vis_loaded w) then
    (false, say Error "vis.js library not loaded" w)
  else
    let w := destroy_existing c w in
    match dataSet timelineData with
    | Throw _ => (false, say Error "Error initializing shipment timeline:" w)
    | Return itemsDataSet =>
        let '(h, w) := new_timeline c itemsDataSet w in
        let w := with_instances (<[c := h]> (timelineInstances w)) w in
        let pb := shipmentTimelinePlayback w in
        let w := with_playback
                   (mkPlayback (interval pb) (currentIndex pb) (isPlaying pb)
                      (Some c)) w in
        (true,
         say Log ("Shipment timeline initialized: " +:+ c +:+ " with "
                  +:+ pretty (length itemsDataSet) +:+ " events") w)
    end.

Definition pauseShipmentTimeline (w : world) : bool * world :=
  let pb := shipmentTimelinePlayback w in
  let w := match interval pb with
           | Some i =>
               with_playback
                 (mkPlayback None (currentIndex pb) (isPlaying pb)
                    (containerId pb))
                 (with_timers (delete i (timers w)) (next_timer w) w)
           | None => w
           end in
  let pb := shipmentTimelinePlayback w in
  let w := with_playback
             (mkPlayback (interval pb) (currentIndex pb) false
                (containerId pb)) w in
  (true, say Log "Shipment timeline playback paused" w).

(** The callback handed to [setInterval], for the timeline and the
    items it holds. *)
Definition on_interval (h : nat) (its : list item) (w : world) : world :=
  let pb := shipmentTimelinePlayback w in
  match its !! currentIndex pb with
  | Some currentItem =>
      let w := setSelection h [item_id currentItem] w in
      with_playback
        (mkPlayback (interval pb) (S (currentIndex pb)) (isPlaying pb)
           (containerId pb)) w
  | None => (pauseShipmentTimeline w).2
  end.

(** Interval [i] fires, if it is still set. *)
Definition tick (i : positive) (w : world) : world :=
  match timers w !! i with
  | Some (h, its) => on_interval h its w
  | None => w
  end.

Definition playShipmentTimeline (w : world) : bool * world :=
  let pb := shipmentTimelinePlayback w in
  match containerId pb with
  | None => (false, say Warn "No shipment timeline initialized for playback" w)
  | Some c =>
      match timelineInstances w !! c with
      | None => (false, say Warn ("Timeline " +:+ c +:+ " not found") w)
      | Some h =>
          let its := sort_by start
                       (from_option itemsData [] (objects w !! h)) in
          if bool_decide (length its = 0) then
            (false, say Warn "No items to play" w)
          else if isPlaying pb then
            (true, say Log "Shipment timeline already playing" w)
          else
            let index := if bool_decide (length its ≤ currentIndex pb)
                         then 0 else currentIndex pb in
            let i := next_timer w in
            let w := with_timers (<[i := (h, its)]> (timers w)) (Pos.succ i) w in
            let w := with_playback (mkPlayback (Some i) index true (Some c)) w in
            (true, say Log "Shipment timeline playback started" w)
      end
  end.

Definition stopShipmentTimeline (w : world) : bool * world :=
  let pb := shipmentTimelinePlayback w in
  let w := match interval pb with
           | Some i =>
               with_playback
                 (mkPlayback None (currentIndex pb) (isPlaying pb)
                    (containerId pb))
                 (with_timers (delete i (timers w)) (next_timer w) w)
           | None => w
           end in
  let pb := shipmentTimelinePlayback w in
  let w := with_playback (mkPlayback (interval pb) 0 false (containerId pb)) w in
  let w := match containerId pb with
           | Some c =>
               match timelineInstances w !! c with
               | Some h => setSelection h [] w
               | None => w
               end
           | None => w
           end in
  (true, say Log "Shipment timeline playback stopped and reset" w).

End TimelineInterop.

(** ** GeoMapViz (Leaflet map), incidentGeoMappingInterop.js *)

Module GeoMapViz.
Import Js.

(** A JavaScript number.  A finite double is the rational it denotes;
    the comparisons below are against integer constants and exact. *)
Inductive number :=
| NaN
| Infinity (negative : bool)
| Finite (q : Q).

Inductive value :=
| Undefined
| Null
| Boolean (b : bool)
| Number (x : number)
| Text (s : string).

(** [x >= c] and [x <= c] for a finite constant [c]; false on [NaN]. *)
Definition ge (x : number) (c : Q) : bool :=
  match x with
  | NaN => false
  | Infinity negative => negb negative
  | Finite q => Qle_bool c q
  end.

Definition le (x : number) (c : Q) : bool :=
  match x with
  | NaN => false
  | Infinity negative => negative
  | Finite q => Qle_bool q c
  end.

Definition isNaN (x : number) : bool :=
  match x with
  | NaN => true
  | _ => false
  end.

Record location := mkLocation {
  name : string;
  latitude : value;
  longitude : value
}.

(** The predicate of [locations.filter]; [None] is an entry that is
    [null] or [undefined]. *)
Definition isValid (entry : option location) : bool :=
  match entry with
  | None => false
  | Some loc =>
      match latitude loc, longitude loc with
      | Number lat, Number lng =>
          negb (isNaN lat) && negb (isNaN lng)
          && ge lat (-90) && le lat 90
          && ge lng (-180) && le lng 180
      | _, _ => false
      end
  end.

Arguments isValid : simpl never.

(** An entry handed to [addMarkers]: the fields of a location and its
    [riskScore], [Undefined] when it has none. *)
Record entry := mkEntry {
  position : location;
  riskScore : value
}.

(** A Leaflet marker built by [createMarker]. *)
Record marker := mkMarker {
  locationData : entry
}.

Record geomap := mkMap {
  markers : list marker;
  clusters : option (list marker);
  layers : list marker;
  bounds : option (list (value * value));
  out : console
}.

(** The [filter] call: the valid entries and one warning for every
    other entry. *)
Fixpoint validLocations (locations : list (option entry))
    : list entry * console :=
  match locations with
  | [] => ([], [])
  | item :: rest =>
      let '(valid, warnings) := validLocations rest in
      match item with
      | Some e =>
          if isValid (Some (position e)) then (e :: valid, warnings)
          else (valid, (Warn, "Invalid marker location: " +:+ name (position e))
                         :: warnings)
      | None => (valid, (Warn, "Invalid marker location:") :: warnings)
      end
  end.

(** [location.riskScore.toFixed(1)] can be called: the popup reads it
    whenever [riskScore !== undefined], and only a number has
    [toFixed]. *)
Definition popup_ok (e : entry) : bool :=
  match riskScore e with
  | Undefined | Number _ => true
  | Null | Boolean _ | Text _ => false
  end.

(** [createPopupContent(location)]: the text is Leaflet's to show; the
    call throws a [TypeError] on a [riskScore] that is [null] or not a
    number. *)
Definition createPopupContent (e : entry) : completion unit :=
  if popup_ok e then Return tt else Throw "TypeError".

(** [createMarker(location)]: [createCustomIcon] reads
    [riskScore || 0] and does not throw; [createPopupContent] may. *)
Definition createMarker (e : entry) : completion marker :=
  match createPopupContent e with
  | Return _ => Return (mkMarker e)
  | Throw msg => Throw msg
  end.

(** [this.markers.push(marker)] and the cluster or the map layer. *)
Definition place (m : geomap) (mk : marker) : geomap :=
  match clusters m with
  | Some cl =>
      mkMap (markers m ++ [mk]) (Some (cl ++ [mk])) (layers m)
        (bounds m) (out m)
  | None =>
      mkMap (markers m ++ [mk]) None (layers m ++ [mk]) (bounds m) (out m)
  end.

(** [validLocations.forEach(...)]: it ends at the first entry whose
    marker cannot be built, with the markers before it in place. *)
Fixpoint place_all (valid : list entry) (m : geomap)
    : completion unit * geomap :=
  match valid with
  | [] => (Return tt, m)
  | e :: rest =>
      match createMarker e with
      | Throw msg => (Throw msg, m)
      | Return mk => place_all rest (place m mk)
      end
  end.

(** [addMarkers(locations)]: how the call ends, and the map as it
    leaves it. *)
Definition addMarkers (locations : list (option entry)) (m : geomap)
    : completion unit * geomap :=
  let '(valid, warnings) := validLocations locations in
  let m := mkMap (markers m) (clusters m) (layers m) (bounds m)
             (out m ++ warnings) in
  if bool_decide (length valid = 0) then
    (Return tt,
     mkMap (markers m) (clusters m) (layers m) (bounds m)
       (out m ++ [(Warn, "No valid locations to add markers")]))
  else
    match place_all valid m with
    | (Throw msg, m) => (Throw msg, m)
    | (Return _, m) =>
        (Return tt,
         mkMap (markers m) (clusters m) (layers m)
           (Some ((λ e, (latitude (position e), longitude (position e)))
                    <$> valid))
           (out m))
    end.

(** [x] is a number within the closed range from [lo] to [hi]. *)
Definition in_range (v : value) (lo hi : Q) : Prop :=
  ∃ q, v = Number (Finite q) ∧ (lo <= q)%Q ∧ (q <= hi)%Q.

End GeoMapViz.

(** ** TimelineViz (d3 timeline with playback), toolkits/timelineViz.js *)

Module TimelineViz.
Import Js.

Record event := mkEvent {
  event_id : string;
  date : Z
}.

(** The fields of a [TimelineViz] that playback reads and writes, the
    intervals its [play] has set and not cleared, and what the
    callbacks did: [shown] is the date of the last
    [highlightEventAtTime] ([None] when every event is at full
    opacity) and [ticks] the [onPlaybackTick] calls. *)
Record viz := mkViz {
  events : list event;
  playbackIndex : nat;
  isPlaying : bool;
  playbackSpeed : nat;
  playbackTimer : option positive;
  shown : option Z;
  ticks : list (string * nat);
  timers : gset positive;
  next_timer : positive
}.

Definition addPlaybackControls (t : viz) : viz :=
  mkViz (events t) 0 false 1000 (playbackTimer t) (shown t) (ticks t)
    (timers t) (next_timer t).

(** [render()]: the drawing is d3's; the state it touches is what
    [addPlaybackControls] sets. *)
Definition render (t : viz) : viz := addPlaybackControls t.

Definition loadData (evs : list event) (t : viz) : viz :=
  render
    (mkViz (sort_by date evs) (playbackIndex t) (isPlaying t)
       (playbackSpeed t) (playbackTimer t) (shown t) (ticks t)
       (timers t) (next_timer t)).

Definition resetZoom (t : viz) : viz := render t.

Definition play (t : viz) : viz :=
  if isPlaying t then t
  else
    mkViz (events t) 0 true (playbackSpeed t) (Some (next_timer t))
      (shown t) (ticks t) ({[next_timer t]} ∪ timers t)
      (Pos.succ (next_timer t)).

Definition pause (t : viz) : viz :=
  mkViz (events t) (playbackIndex t) false (playbackSpeed t)
    (playbackTimer t) (shown t) (ticks t)
    (match playbackTimer t with
     | Some i => timers t ∖ {[i]}
     | None => timers t
     end)
    (next_timer t).

Definition stop (t : viz) : viz :=
  let t := pause t in
  mkViz (events t) 0 (isPlaying t) (playbackSpeed t) (playbackTimer t)
    None (ticks t) (timers t) (next_timer t).

(** The callback handed to [setInterval]. *)
Definition on_interval (t : viz) : viz :=
  match events t !! playbackIndex t with
  | None => stop t
  | Some ev =>
      mkViz (events t) (S (playbackIndex t)) (isPlaying t) (playbackSpeed t)
        (playbackTimer t) (Some (date ev))
        (ticks t ++ [(event_id ev, playbackIndex t)])
        (timers t) (next_timer t)
  end.

(** Interval [i] fires, if it is still set. *)
Definition tick (i : positive) (t : viz) : viz :=
  if bool_decide (i ∈ timers t) then on_interval t else t.

(** A fresh widget, as the constructor leaves it. *)
Definition create : viz := mkViz [] 0 false 0 None None [] ∅ 1.

Inductive call :=
| Play | Pause | Stop | Render | LoadData (evs : list event)
| Tick (i : positive).

Definition step (t : viz) (c : call) : viz :=
  match c with
  | Play => play t
  | Pause => pause t
  | Stop => stop t
  | Render => render t
  | LoadData evs => loadData evs t
  | Tick i => tick i t
  end.

Definition run (cs : list call) (t : viz) : viz := foldl step t cs.

End TimelineViz.

(** ** Pages and states used as examples *)

Module RegistryExamples.

Definition page : gset string := {["graph-container"]}.

Definition graphs : GraphInterop.world := GraphInterop.mkWorld page ∅ [].

Definition first_graph : Js.completion string * GraphInterop.world :=
  GraphInterop.initializeNetworkGraph 1000 "k3x" "graph-container" None graphs.


Definition timelines : TimelineInterop.world :=
  TimelineInterop.mkWorld page true false true [] ∅ None
    (TimelineInterop.mkPlayback None 0 false None) ∅ 1 [].

Definition first_timeline : bool * TimelineInterop.world :=
  TimelineInterop.initializeEnhancedTimeline "graph-container" [] None true
    timelines.

Definition second_timeline : bool * TimelineInterop.world :=
  TimelineInterop.initializeEnhancedTimeline "graph-container" [] None true
    first_timeline.2.

Definition vis_network : NetworkGraphInterop.state :=
  NetworkGraphInterop.mkState page [] None None None None None [].

Definition vis_network_ready : NetworkGraphInterop.state :=
  (NetworkGraphInterop.initialize "graph-container" (Some "dotnet")
     vis_network).2.

End RegistryExamples.

(** ** Event lists used as examples *)

Module BurstExamples.
Import TimelineEnhancements.

Definition minute : Z := 60 * 1000.

Definition at_minute (k : Z) : item :=
  mkItem ("e" +:+ pretty k) (k * minute).

(** Events at [t = 0, 1, 2, 3, 4] minutes. *)
Definition five : list item := at_minute <$> [0; 1; 2; 3; 4]%Z.

(** One more, a minute later. *)
Definition six : list item := at_minute <$> [0; 1; 2; 3; 4; 5]%Z.

(** Fifty minutes from each event to the next. *)
Definition spaced : list item := at_minute <$> [0; 50; 100; 150; 200]%Z.

End BurstExamples.

(** ** Marker lists used as examples *)

Module GeoExamples.
Import GeoMapViz.

Definition lusaka : entry :=
  mkEntry
    (mkLocation "Lusaka" (Number (Finite (-154 # 10)))
       (Number (Finite (283 # 10))))
    (Number (Finite 7)).

Definition too_far_north : entry :=
  mkEntry (mkLocation "Nowhere" (Number (Finite 91)) (Number (Finite 0)))
    Undefined.

Definition textual : entry :=
  mkEntry (mkLocation "Text" (Text "12.5") (Number (Finite 3))) Undefined.

Definition not_a_number : entry :=
  mkEntry (mkLocation "NaN" (Number NaN) (Number (Finite 3))) Undefined.

(** Entries in range, the second with [riskScore: null]. *)
Definition dover : entry :=
  mkEntry (mkLocation "Dover" (Number (Finite 51)) (Number (Finite 1)))
    Undefined.

Definition unscored : entry :=
  mkEntry (mkLocation "Calais" (Number (Finite 50)) (Number (Finite 2))) Null.

Definition empty_map : geomap := GeoMapViz.mkMap [] None [] None [].

End GeoExamples.

(** ** Playback sessions used as examples *)

Module PlaybackExamples.
Import TimelineViz.

Definition incidents : list event :=
  [mkEvent "theft" 1000; mkEvent "transfer" 3000; mkEvent "arrest" 2000].

(** The host loads events and presses play, the view is redrawn (a zoom,
    a brush or a reset of the zoom all call [render]), and the host
    presses play again. *)
Definition play_redraw_play : list call :=
  [LoadData incidents; Play; Render; Play].

End PlaybackExamples.

(** Calls on the shipment timeline and its playback. *)

Module ShipmentSession.
Import TimelineInterop.

Inductive call :=
| Initialize (c : string) (timelineData : list item)
| Play | Pause | Stop
| Tick (i : positive)
| Destroy (c : string).

Definition step (w : world) (k : call) : world :=
  match k with
  | Initialize c timelineData => (initializeShipmentTimeline c timelineData w).2
  | Play => (playShipmentTimeline w).2
  | Pause => (pauseShipmentTimeline w).2
  | Stop => (stopShipmentTimeline w).2
  | Tick i => tick i w
  | Destroy c => (destroyTimeline c w).2
  end.

Definition run (ks : list call) (w : world) : world := foldl step w ks.

(** The intervals that are set are the one the playback state holds, and
    it holds none while not playing. *)
Definition one_timer (w : world) : Prop :=
  dom (timers w)
    = match interval (shipmentTimelinePlayback w) with
      | Some i => {[i]}
      | None => ∅
      end
  ∧ (isPlaying (shipmentTimelinePlayback w) = false →
     interval (shipmentTimelinePlayback w) = None).

End ShipmentSession.

(** ** NetworkGraph: highlighting, incidentGeoMappingInterop.js *)

Module GraphView.
Import Js NetworkGraph.

(** [set.add(e.id)] for a link end: an id string has no [id], and the
    [undefined] it adds is never asked for. *)
Definition add_id (e : endpoint) (hl : gset string) : gset string :=
  match endpoint_id e with
  | Some s => {[s]} ∪ hl
  | None => hl
  end.

(** Body of [this.links.forEach] in [highlightConnectedNodes]. *)
Definition collect (nodeId : string) (hl : gset string) (l : link)
    : gset string :=
  let hl := if bool_decide (endpoint_id (source l) = Some nodeId)
            then add_id (target l) hl else hl in
  if bool_decide (endpoint_id (target l) = Some nodeId)
  then add_id (source l) hl else hl.

(** [this.highlightedNodes] after [highlightConnectedNodes(node)]. *)
Definition highlightedNodes (g : graph) (n : node) : gset string :=
  foldl (collect (id n)) ∅ (links g).

(** What d3 writes on a circle or a line. *)
Record style := mkStyle {
  opacity : Q;
  stroke : string;
  stroke_width : Z
}.

(** The opacity [highlightConnectedNodes(node)] gives the circle of [d]
    and the line of [l]. *)
Definition connected_node_opacity (g : graph) (n d : node) : Q :=
  if bool_decide (id d = id n) then 1
  else if bool_decide (id d ∈ highlightedNodes g n) then 1
  else 3 # 10.

Definition connected_link_opacity (n : node) (l : link) : Q :=
  if bool_decide (endpoint_id (source l) = Some (id n))
     || bool_decide (endpoint_id (target l) = Some (id n))
  then 1 else 1 # 10.

(** [inPath] of [highlightPath]: both ends of the link are in the set of
    the path's ids. *)
Definition inPath (path : list string) (l : link) : bool :=
  has (list_to_set path) (endpoint_id (source l))
  && has (list_to_set path) (endpoint_id (target l)).

Definition path_node_style (path : list string) (d : node) : style :=
  if bool_decide (id d ∈ (list_to_set path : gset string))
  then mkStyle 1 "#f39c12" 4
  else mkStyle (2 # 10) "#fff" 2.

Definition path_link_style (path : list string) (l : link) : style :=
  if inPath path l
  then mkStyle 1 "#f39c12" 4
  else mkStyle (1 # 10) (link_color l) (width l).

(** The circles and lines on the page, one for each node and link. *)
Record view := mkView {
  circles : list style;
  lines : list style
}.

(** [highlightPath(path)]; [None] is a [null] path. *)
Definition highlightPath (g : graph) (path : option (list string))
    (v : view) : view :=
  match path with
  | None => v
  | Some [] => v
  | Some p =>
      mkView (path_node_style p <$> nodes g) (path_link_style p <$> links g)
  end.

(** [clearHighlight()]: every opacity back to 1, nothing else. *)
Definition clearHighlight (v : view) : view :=
  mkView ((λ st, mkStyle 1 (stroke st) (stroke_width st)) <$> circles v)
         ((λ st, mkStyle 1 (stroke st) (stroke_width st)) <$> lines v).

End GraphView.

(** ** The search over links with an end missing *)

Module HostLinks.
Import Js NetworkGraph.

(** A link as [this.links] may hold it once the host has supplied one
    without a source or a target: an end is there, or it is
    [undefined] or [null] ([None]).  [loadData] warns about such a link
    and keeps it, and the [render] that fails on it leaves it where it
    was. *)
Record host_link := mkHostLink {
  host_source : option endpoint;
  host_target : option endpoint;
  host_color : string;
  host_width : Z
}.

(** A link with both ends, as a link of the host. *)
Definition supplied (l : link) : host_link :=
  mkHostLink (Some (source l)) (Some (target l)) (link_color l) (width l).

Definition intact (l : host_link) : bool :=
  bool_decide (is_Some (host_source l)) && bool_decide (is_Some (host_target l)).

Global Instance completion_bind : MBind completion :=
  λ A B f c, match c with
             | Return a => f a
             | Throw msg => Throw msg
             end.

(** [end.id]: a TypeError on an end that is not there. *)
Definition id_of (e : option endpoint) : completion (option string) :=
  match e with
  | Some e => Return (endpoint_id e)
  | None => Throw "TypeError"
  end.

(** The two tests of the [forEach] body of [findShortestPath], each
    [.id] read when the test reaches it. *)
Definition neighbor_of (current : string) (visited : gset string)
    (l : host_link) : completion (option string) :=
  s ← id_of (host_source l);
  let otherwise : completion (option string) :=
    t ← id_of (host_target l);
    Return (if bool_decide (t = Some current) && negb (has visited s)
            then s else None) in
  if bool_decide (s = Some current) then
    t ← id_of (host_target l);
    if negb (has visited t) then Return t else otherwise
  else otherwise.

Definition visit (current : string) (path : list string)
    (st : gset string * list (list string)) (l : host_link)
    : completion (gset string * list (list string)) :=
  n ← neighbor_of current st.1 l;
  Return match n with
         | Some n =>
             if truthy n then ({[n]} ∪ st.1, st.2 ++ [path ++ [n]]) else st
         | None => st
         end.

(** [array.forEach(body)] with a body that may throw. *)
Fixpoint forEach {S : Type} (body : S → host_link → completion S)
    (st : S) (ls : list host_link) : completion S :=
  match ls with
  | [] => Return st
  | l :: rest => st' ← body st l; forEach body st' rest
  end.

(** The loop of [findShortestPath]; [None] when the fuel runs out
    before the loop ends. *)
Fixpoint bfs (fuel : nat) (ls : list host_link) (targetId : string)
    (queue : list (list string)) (visited : gset string)
    : option (completion found) :=
  match fuel with
  | O => None
  | S fuel' =>
      match queue with
      | [] => Some (Return Null)
      | path :: rest =>
          match last path with
          | None => bfs fuel' ls targetId rest visited
          | Some current =>
              if bool_decide (current = targetId)
              then Some (Return (Path path))
              else
                match forEach (visit current path) (visited, rest) ls with
                | Throw msg => Some (Throw msg)
                | Return st => bfs fuel' ls targetId st.2 st.1
                end
          end
      end
  end.

Definition findShortestPath (ls : list host_link)
    (sourceId targetId : string) : option (completion found) :=
  bfs (2 * length ls + 2) ls targetId [[sourceId]] {[sourceId]}.

End HostLinks.

(** ** Timeline interop: the other exports *)

Module TimelineCalls.
Import Js TimelineInterop.

Definition with_document (doc : gset string) (w : world) : world :=
  mkWorld doc (vis_loaded w) (enhancements_loaded w) (storage_readable w)
    (objects w)
    (timelineInstances w) (dotNetReference w) (shipmentTimelinePlayback w)
    (timers w) (next_timer w) (out w).

(** [timeline.setItems(items)] on the object behind handle [h]. *)
Definition setItems (h : nat) (its : list item) (w : world) : world :=
  with_objects
    (alter (λ t, mkTimeline (tl_container t) its (tl_live t) (selection t))
           h (objects w)) w.

(** [updateTimelineItems]: the [DataSet] is built inside the [try], so
    items that share an id end in the [catch], with the timeline as it
    was. *)
Definition updateTimelineItems (c : string) (its : list item) (w : world)
    : bool * world :=
  match timelineInstances w !! c with
  | None => (false, say Warn ("Timeline " +:+ c +:+ " not initialized") w)
  | Some h =>
      match dataSet its with
      | Throw _ => (false, say Error "Error updating timeline items:" w)
      | Return itemsDataSet =>
          (true,
           say Log ("Timeline " +:+ c +:+ " items updated")
             (setItems h itemsDataSet w))
      end
  end.


(** [destroyAllTimelines]: every registered timeline is destroyed, the
    registry is cleared and the .NET reference disposed.  The registry
    here does not keep the order of insertion, so the order of the lines
    logged per timeline is that of [map_to_list]. *)
Definition destroyAllTimelines (w : world) : bool * world :=
  let entries := map_to_list (timelineInstances w) in
  let w1 := with_objects
              (foldr (λ kv os, alter kill kv.2 os) (objects w) entries) w in
  let w2 := mkWorld (document w1) (vis_loaded w1) (enhancements_loaded w1)
              (storage_readable w1) (objects w1) ∅ None (shipmentTimelinePlayback w1)
              (timers w1) (next_timer w1)
              (out w1 ++ ((λ kv, (Log, "Timeline " +:+ kv.1 +:+ " destroyed"))
                            <$> entries)) in
  (true, say Log "All timelines destroyed" w2).

(** [destroyTbmlVisualizations]. *)
Definition destroyTbmlVisualizations (w : world) : bool * world :=
  let w1 := (stopShipmentTimeline w).2 in
  let w2 := match containerId (shipmentTimelinePlayback w1) with
            | Some c => destroy_existing c w1
            | None => w1
            end in
  (true,
   say Log "TBML visualizations destroyed"
     (with_playback (mkPlayback None 0 false None) w2)).

(** What the host may call, in any order; [Page] is the page changing
    under the widgets and [Tick] an interval firing. *)
Inductive call :=
| Page (doc : gset string)
| InitializeEnhanced (c : string) (its : list item)
    (dotNetRef : option string) (useEnhancements : bool)
| InitializeShipment (c : string) (timelineData : list item)
| UpdateItems (c : string) (its : list item)
| Play | Pause | Stop
| Tick (i : positive)
| Destroy (c : string)
| DestroyAll
| DestroyTbml.

Definition step (w : world) (k : call) : world :=
  match k with
  | Page doc => with_document doc w
  | InitializeEnhanced c its r u => (initializeEnhancedTimeline c its r u w).2
  | InitializeShipment c d => (initializeShipmentTimeline c d w).2
  | UpdateItems c its => (updateTimelineItems c its w).2
  | Play => (playShipmentTimeline w).2
  | Pause => (pauseShipmentTimeline w).2
  | Stop => (stopShipmentTimeline w).2
  | Tick i => tick i w
  | Destroy c => (destroyTimeline c w).2
  | DestroyAll => (destroyAllTimelines w).2
  | DestroyTbml => (destroyTbmlVisualizations w).2
  end.

Definition run (ks : list call) (w : world) : world := foldl step w ks.

(** The module as it is loaded: nothing registered, nothing playing. *)
Definition loaded (doc : gset string) (vis enhancements storage : bool)
    : world :=
  mkWorld doc vis enhancements storage [] ∅ None
    (mkPlayback None 0 false None) ∅ 1 [].

(** The world after interval [i] has fired [k] times. *)
Definition fired (k : nat) (i : positive) (w : world) : world :=
  Nat.iter k (tick i) w.

(** Every entry of the registry is a timeline on that container that
    was not destroyed. *)
Definition registry_sound (w : world) : Prop :=
  ∀ c h, timelineInstances w !! c = Some h → live w h c.

(** The enhancements cannot throw: they are not loaded, or the storage
    can be read. *)
Definition sheltered (w : world) : Prop :=
  storage_readable w = true ∨ enhancements_loaded w = false.

(** The state of a playback that interval [i] drives through the items
    [its] of timeline [h], after [k] firings. *)
Definition in_progress (i : positive) (h : nat) (its : list item) (k : nat)
    (w : world) : Prop :=
  currentIndex (shipmentTimelinePlayback w) = k ∧
  timers w !! i = Some (h, its) ∧
  isPlaying (shipmentTimelinePlayback w) = true ∧
  interval (shipmentTimelinePlayback w) = Some i ∧
  is_Some (objects w !! h).

End TimelineCalls.

(** ** TimelineViz: sequences of calls *)

Module VizSession.
Import TimelineViz.

(** The widget after interval [i] has fired [k] times. *)
Definition fired (k : nat) (i : positive) (t : viz) : viz :=
  Nat.iter k (tick i) t.

(** The calls that end in [render]. *)
Definition redraws (c : call) : bool :=
  match c with
  | Render | LoadData _ => true
  | _ => false
  end.

(** No call of the sequence redraws the view while playback is on. *)
Fixpoint calm (t : viz) (cs : list call) : Prop :=
  match cs with
  | [] => True
  | c :: cs' =>
      (redraws c = true → isPlaying t = false) ∧ calm (step t c) cs'
  end.

(** The only interval set is the one the widget holds, and only while it
    is playing. *)
Definition one_interval (t : viz) : Prop :=
  timers t = match isPlaying t, playbackTimer t with
             | true, Some i => {[i]}
             | _, _ => ∅
             end.

End VizSession.

(** ** TimelineEnhancements: filter, statistics, related items *)

Module TimelineItems.
Import Js.

(** A timeline item with the fields these functions read: a field that
    is not set is [None]; [start] is [new Date(item.start)] in
    milliseconds. *)
Record entry := mkEntry {
  id : string;
  start : Z;
  severity : option string;
  eventType : option string;
  source : option string;
  entities : option (list string)
}.

#[global] Instance entry_eq_dec : EqDecision entry.
Proof. solve_decision. Defined.

(** The filter criteria: [dateRange] holds two dates, in milliseconds. *)
Record criteria := mkCriteria {
  c_severity : option string;
  c_eventType : option string;
  c_source : option string;
  c_dateRange : option (Z * Z);
  c_entities : option (list string)
}.

(** [if (criteria.f) matches = matches && item.f === criteria.f]. *)
Definition wanted (c v : option string) : bool :=
  match c with
  | Some s => if truthy s then bool_decide (v = Some s) else true
  | None => true
  end.

(** [a.some(e => b.includes(e))]. *)
Definition share (a b : list string) : bool :=
  existsb (λ e, bool_decide (e ∈ b)) a.

(** The callback of [allItems.filter]. *)
Definition matches (c : criteria) (it : entry) : bool :=
  wanted (c_severity c) (severity it)
  && wanted (c_eventType c) (eventType it)
  && wanted (c_source c) (source it)
  && match c_dateRange c with
     | Some (lo, hi) => (lo <=? start it)%Z && (start it <=? hi)%Z
     | None => true
     end
  && match c_entities c with
     | Some es =>
         match entities it with
         | Some ies => share es ies
         | None => false
         end
     | None => true
     end.

(** [filterTimeline(timeline, criteria)] on the items the timeline
    holds: what it returns, and the items the timeline holds after
    [setItems]. *)
Definition filterTimeline (itemsData : list entry) (c : criteria)
    : list entry * list entry :=
  let filtered := filter (λ it, matches c it = true) itemsData in
  (filtered, filtered).

(** [itemsData.get(itemId)]. *)
Definition get (itemsData : list entry) (itemId : string) : option entry :=
  list_find (λ it, id it = itemId) itemsData ≫= λ p, Some p.2.

(** The ids [highlightRelatedItems] collects for an item that has
    [entities]. *)
Definition relatedIds (itemsData : list entry) (itemId : string)
    (es : list string) : list string :=
  omap (λ otherItem,
          if bool_decide (id otherItem ≠ itemId) then
            match entities otherItem with
            | Some oes => if share es oes then Some (id otherItem) else None
            | None => None
            end
          else None)
       itemsData.

(** The [.vis-item] elements, each with its [data-id] attribute and
    whether it has the class [connected]. *)
Definition elements := list (option string * bool).

Definition mark (related : list string) (els : elements) : elements :=
  (λ el, (el.1, match el.1 with
                | Some elId => bool_decide (elId ∈ related)
                | None => false
                end)) <$> els.

(** [highlightRelatedItems]: [None] is the [undefined] of the early
    return, which leaves the elements alone. *)
Definition highlightRelatedItems (itemsData : list entry) (itemId : string)
    (els : elements) : option (list string) * elements :=
  match get itemsData itemId with
  | None => (None, els)
  | Some it =>
      let related :=
        match entities it with
        | Some es => relatedIds itemsData itemId es
        | None => []
        end in
      (Some related, mark related els)
  end.

(** A count held in a plain object: a number, or the string that
    [+ 1] makes of a value that is not a number. *)
Inductive tally := Count (n : nat) | Junk.

(** The property names a plain object inherits from
    [Object.prototype], [__proto__] apart. *)
Definition inherited : list string :=
  ["constructor"; "hasOwnProperty"; "isPrototypeOf"; "propertyIsEnumerable";
   "toLocaleString"; "toString"; "valueOf"; "__defineGetter__";
   "__defineSetter__"; "__lookupGetter__"; "__lookupSetter__"].

(** [o[k] = (o[k] || 0) + 1] on a plain object [o], given by its own
    properties: an inherited member is truthy and not a number, and an
    assignment of a string to [__proto__] sets nothing. *)
Definition bump (o : gmap string tally) (k : string) : gmap string tally :=
  if bool_decide (k = "__proto__") then o
  else
    match o !! k with
    | Some (Count n) => <[k := Count (S n)]> o
    | Some Junk => <[k := Junk]> o
    | None =>
        if bool_decide (k ∈ inherited) then <[k := Junk]> o
        else <[k := Count 1]> o
    end.

(** [item.f || 'unknown']. *)
Definition key_of (v : option string) : string :=
  match v with
  | Some s => if truthy s then s else "unknown"
  | None => "unknown"
  end.

Record stats := mkStats {
  total : nat;
  bySeverity : gmap string tally;
  byEventType : gmap string tally;
  bySource : gmap string tally;
  range_start : option Z;
  range_end : option Z
}.

(** The callback of [items.forEach] in [getStatistics]. *)
Definition record_item (s : stats) (it : entry) : stats :=
  mkStats (total s)
    (bump (bySeverity s) (key_of (severity it)))
    (bump (byEventType s) (key_of (eventType it)))
    (bump (bySource s) (key_of (source it)))
    (match range_start s with
     | Some d => if (start it <? d)%Z then Some (start it) else Some d
     | None => Some (start it)
     end)
    (match range_end s with
     | Some d => if (d <? start it)%Z then Some (start it) else Some d
     | None => Some (start it)
     end).

Definition getStatistics (itemsData : list entry) : stats :=
  foldl record_item (mkStats (length itemsData) ∅ ∅ ∅ None None) itemsData.

(** The number a tally stands for, and the sum over an object. *)
Definition weight (t : tally) : nat :=
  match t with
  | Count n => n
  | Junk => 0
  end.

Definition sum (o : gmap string tally) : nat :=
  map_fold (λ _ t acc, weight t + acc) 0 o.

(** A key that is no member of [Object.prototype]. *)
Definition plain (k : string) : Prop :=
  k ≠ "__proto__" ∧ k ∉ inherited.

(** How often [k] is the key of an item. *)
Definition occurrences (k : string) (ks : list string) : nat :=
  length (filter (λ x, x = k) ks).

End TimelineItems.

(** ** GeoMapViz: routes and the heatmap *)

Module GeoMapLayers.
Import Js GeoMapViz.

(** What a layer on the map is: the polyline of a route, its arrow
    decorator, or a heat layer with its points. *)
Inductive kind :=
| Polyline (latLngs : list (value * value))
| Decorator
| Heat (heatPoints : list (value * value * value)).

Definition is_heat (k : kind) : bool :=
  match k with
  | Heat _ => true
  | _ => false
  end.

(** An entry of [this.routes]. *)
Record route := mkRoute {
  polyline : nat;
  decorator : option nat
}.

(** The fields of a [GeoMapViz] that routes and heatmaps use, the
    layers on its Leaflet map (a layer is named by a number, handed
    out in order), and which plugins are loaded. *)
Record canvas := mkCanvas {
  shown : gmap nat kind;
  routes : list route;
  heatmapLayer : option nat;
  next_layer : nat;
  decorator_plugin : bool;
  heat_plugin : bool;
  log : console
}.

Definition say (lv : level) (msg : string) (c : canvas) : canvas :=
  mkCanvas (shown c) (routes c) (heatmapLayer c) (next_layer c)
    (decorator_plugin c) (heat_plugin c) (log c ++ [(lv, msg)]).

(** [layer.addTo(this.map)] for a new layer. *)
Definition add_layer (k : kind) (c : canvas) : nat * canvas :=
  (next_layer c,
   mkCanvas (<[next_layer c := k]> (shown c)) (routes c) (heatmapLayer c)
     (S (next_layer c)) (decorator_plugin c) (heat_plugin c) (log c)).

(** [this.map.removeLayer(layer)]. *)
Definition removeLayer (i : nat) (c : canvas) : canvas :=
  mkCanvas (delete i (shown c)) (routes c) (heatmapLayer c) (next_layer c)
    (decorator_plugin c) (heat_plugin c) (log c).

Definition with_routes (rs : list route) (c : canvas) : canvas :=
  mkCanvas (shown c) rs (heatmapLayer c) (next_layer c)
    (decorator_plugin c) (heat_plugin c) (log c).

Definition with_heatmapLayer (h : option nat) (c : canvas) : canvas :=
  mkCanvas (shown c) (routes c) h (next_layer c)
    (decorator_plugin c) (heat_plugin c) (log c).

(** The [filter] of [drawRoute] and [addHeatmap]: the entries that
    pass, each with its coordinates, and one warning for every other
    entry. *)
Fixpoint checked {A} (what : string) (at_ : A → location)
    (entries : list (option A)) : list A * console :=
  match entries with
  | [] => ([], [])
  | entry :: rest =>
      let '(valid, warnings) := checked what at_ rest in
      match entry with
      | Some x =>
          if isValid (Some (at_ x)) then (x :: valid, warnings)
          else (valid, (Warn, what +:+ " " +:+ name (at_ x)) :: warnings)
      | None => (valid, (Warn, what) :: warnings)
      end
  end.

Definition coords (loc : location) : value * value :=
  (latitude loc, longitude loc).

(** [drawRoute(waypoints, options)], with [showDirection] for
    [options.showDirection !== false]: the polyline it returns, if
    any. *)
Definition drawRoute (waypoints : list (option location))
    (showDirection : bool) (c : canvas) : option nat * canvas :=
  let '(validWaypoints, warnings) :=
    checked "Invalid waypoint:" (λ wp, wp) waypoints in
  let c := mkCanvas (shown c) (routes c) (heatmapLayer c) (next_layer c)
             (decorator_plugin c) (heat_plugin c) (log c ++ warnings) in
  if bool_decide (length validWaypoints < 2) then
    (None,
     say Warn "Not enough valid waypoints to draw route (need at least 2)" c)
  else
    let '(pl, c) := add_layer (Polyline (coords <$> validWaypoints)) c in
    if showDirection && decorator_plugin c then
      let '(d, c) := add_layer Decorator c in
      (Some pl, with_routes (routes c ++ [mkRoute pl (Some d)]) c)
    else
      (Some pl, with_routes (routes c ++ [mkRoute pl None]) c).

Definition clearRoutes (c : canvas) : canvas :=
  with_routes []
    (foldl (λ c r,
              let c := removeLayer (polyline r) c in
              match decorator r with
              | Some d => removeLayer d c
              | None => c
              end)
           c (routes c)).

(** A point handed to [addHeatmap]. *)
Record point := mkPoint {
  spot : location;
  intensity : value;
  riskScore : value
}.

Definition truthy_value (v : value) : bool :=
  match v with
  | Undefined | Null => false
  | Boolean b => b
  | Number NaN => false
  | Number (Infinity _) => true
  | Number (Finite q) => negb (Qeq_bool q 0)
  | Text s => truthy s
  end.

(** [[p.latitude, p.longitude, p.intensity || p.riskScore || 1]]. *)
Definition heat_point (p : point) : value * value * value :=
  (latitude (spot p), longitude (spot p),
   if truthy_value (intensity p) then intensity p
   else if truthy_value (riskScore p) then riskScore p
   else Number (Finite 1)).

Definition addHeatmap (points : list (option point)) (c : canvas) : canvas :=
  if negb (heat_plugin c) then say Warn "Heatmap plugin not loaded" c
  else
    let '(valid, warnings) := checked "Invalid heatmap point:" spot points in
    let c := mkCanvas (shown c) (routes c) (heatmapLayer c) (next_layer c)
               (decorator_plugin c) (heat_plugin c) (log c ++ warnings) in
    if bool_decide (length valid = 0) then
      say Warn "No valid points for heatmap" c
    else
      let '(h, c) := add_layer (Heat (heat_point <$> valid)) c in
      with_heatmapLayer (Some h) c.

Definition removeHeatmap (c : canvas) : canvas :=
  match heatmapLayer c with
  | Some h => with_heatmapLayer None (removeLayer h c)
  | None => c
  end.

(** A map as the constructor leaves it. *)
Definition create (decorators heat : bool) : canvas :=
  mkCanvas ∅ [] None 0 decorators heat [].

(** [window.incidentMap] and the console of the interop functions. *)
Record window := mkWindow {
  incidentMap : option canvas;
  out : console
}.

Definition report (lv : level) (msg : string) (m : option canvas)
    (w : window) : window :=
  mkWindow m (out w ++ [(lv, msg)]).

Definition addIncidentHeatmap (heatmapData : list (option point))
    (w : window) : bool * window :=
  match incidentMap w with
  | Some c =>
      (true,
       report Log "Heatmap added to incident map"
         (Some (addHeatmap heatmapData (removeHeatmap c))) w)
  | None =>
      (false, report Warn "Incident map not initialized yet" None w)
  end.

Definition removeIncidentHeatmap (w : window) : bool * window :=
  match incidentMap w with
  | Some c =>
      (true,
       report Log "Heatmap removed from incident map"
         (Some (removeHeatmap c)) w)
  | None =>
      (false, report Warn "Incident map not initialized yet" None w)
  end.

Definition drawPatrolRoute (routeData : list (option location))
    (showDirection : bool) (w : window) : bool * window :=
  match incidentMap w with
  | Some c =>
      (true,
       report Log "Patrol route drawn on incident map"
         (Some (drawRoute routeData showDirection c).2) w)
  | None =>
      (false, report Warn "Incident map not initialized yet" None w)
  end.

Inductive call :=
| AddIncidentHeatmap (heatmapData : list (option point))
| RemoveIncidentHeatmap
| DrawPatrolRoute (routeData : list (option location)) (showDirection : bool).

Definition step (w : window) (c : call) : window :=
  match c with
  | AddIncidentHeatmap ps => (addIncidentHeatmap ps w).2
  | RemoveIncidentHeatmap => (removeIncidentHeatmap w).2
  | DrawPatrolRoute wps d => (drawPatrolRoute wps d w).2
  end.

Definition run (cs : list call) (w : window) : window := foldl step w cs.

(** The heat layers on the map are the one the object holds, if any. *)
Definition one_heat_layer (c : canvas) : Prop :=
  ∀ i k, shown c !! i = Some k → is_heat k = true → heatmapLayer c = Some i.

(** Every polyline and decorator on the map belongs to a route the
    object holds. *)
Definition routes_held (c : canvas) : Prop :=
  ∀ i k, shown c !! i = Some k → is_heat k = false →
    ∃ r, r ∈ routes c ∧ (polyline r = i ∨ decorator r = Some i).

End GeoMapLayers.

(** ** NetworkGraphInterop: colours *)

Module NodeStyle.

(** [ToInt32], which [>>] and [&] apply to their operands. *)
Definition toInt32 (z : Z) : Z :=
  ((z + 2147483648) mod 4294967296 - 2147483648)%Z.

(** The hexadecimal digit for [d], from 0 to 15. *)
Definition digit (d : Z) : Ascii.ascii :=
  match String.get (Z.to_nat d) "0123456789abcdef" with
  | Some c => c
  | None => Ascii.zero
  end.

(** [n.toString(16)] for a natural number [n]. *)
Fixpoint digits (fuel : nat) (n : Z) (acc : string) : string :=
  match fuel with
  | O => acc
  | S fuel =>
      if (n =? 0)%Z then acc
      else digits fuel (n / 16)%Z (String (digit (n mod 16)%Z) acc)
  end.

Definition toString16 (n : Z) : string :=
  if (n =? 0)%Z then "0"
  else digits (S (Z.to_nat (Z.log2 n))) n EmptyString.

(** [s.slice(1)]. *)
Definition slice1 (s : string) : string :=
  match s with
  | EmptyString => EmptyString
  | String _ rest => rest
  end.

(** [x < 255 ? x < 1 ? 0 : x : 255]. *)
Definition clamp (x : Z) : Z :=
  if (x <? 255)%Z then if (x <? 1)%Z then 0%Z else x else 255%Z.

(** [lightenColor(color, percent)], where [num] is
    [parseInt(color.replace('#', ''), 16)] (0 stands for [NaN], which
    the bit operations read as 0) and [amt] is
    [Math.round(2.55 * percent)], 51 for the default [percent]. *)
Definition lightenColor (num amt : Z) : string :=
  let R := (Z.shiftr (toInt32 num) 16 + amt)%Z in
  let G := (Z.land (Z.shiftr (toInt32 num) 8) 255 + amt)%Z in
  let B := (Z.land (toInt32 num) 255 + amt)%Z in
  String.append "#"
    (slice1
       (toString16
          (16777216 + clamp R * 65536 + clamp G * 256 + clamp B)%Z)).

(** The two hexadecimal digits of a byte, and a channel after [amt] is
    added to it, kept within 0 and 255. *)
Definition hex2 (x : Z) : string :=
  String (digit (x / 16)%Z) (String (digit (x mod 16)%Z) EmptyString).

Definition saturate (x : Z) : Z := Z.max 0 (Z.min 255 x).

End NodeStyle.

(** * Properties *)

(** ** Shortest path search *)

Section ShortestPath.
Import Js NetworkGraph Paths.
Implicit Types (l : link) (ls : list link) (p q : list string)
               (u v a b : string) (V : gset string)
               (Q : list (list string)).

Lemma joins_sym l u v : joins l u v → joins l v u.
Proof. unfold joins. tauto. Qed.

Lemma adjacent_sym ls u v : adjacent ls u v → adjacent ls v u.
Proof. intros (l & Hl & Hj). exists l. auto using joins_sym. Qed.

Lemma walk_last ls a p u : walk ls a p u → last p = Some u.
Proof. destruct 1; [done | apply last_snoc]. Qed.

Lemma walk_length ls a p u : walk ls a p u → 1 ≤ length p.
Proof. destruct 1; [simpl; lia | rewrite length_app; simpl; lia]. Qed.

Lemma walk_head ls a p u : walk ls a p u → head p = Some a.
Proof.
  induction 1 as [|p u v Hw IH Ha]; [done|].
  destruct p; [done | done].
Qed.

Lemma walk_is_path ls a p u : walk ls a p u → is_path ls a u p.
Proof.
  intros Hw. split; [by eapply walk_head|]. split; [by eapply walk_last|].
  induction Hw as [|p u v Hw IH Ha]; intros i x y Hx Hy.
  - destruct i; simpl in *; [done | by destruct i].
  - apply lookup_snoc_Some in Hy as [[Hlt Hy]|[Hlen ->]].
    + apply (IH i); [|done].
      rewrite lookup_app_l in Hx; [done | lia].
    + rewrite lookup_app_l in Hx by lia.
      apply walk_last in Hw. rewrite last_lookup in Hw.
      assert (i = pred (length p)) as -> by lia. congruence.
Qed.

Lemma is_path_walk ls a b p : is_path ls a b p → walk ls a p b.
Proof.
  revert b. induction p as [|v p IH] using rev_ind; intros b (Hh & Hl & Hs).
  - done.
  - rewrite last_snoc in Hl. injection Hl as ->.
    destruct (last p) as [u|] eqn:Hu.
    + apply walk_step with u.
      * apply IH. split; [|split; [done|]].
        -- destruct p; [done | done].
        -- intros i x y Hx Hy. apply (Hs i); by apply lookup_app_l_Some.
      * rewrite last_lookup in Hu. apply (Hs (pred (length p))).
        -- by apply lookup_app_l_Some.
        -- apply lookup_snoc_Some. right. split; [|done].
           apply lookup_lt_Some in Hu. lia.
    + apply last_None in Hu as ->. simpl in Hh. injection Hh as ->.
      apply walk_start.
Qed.

(** *** One pass over the links *)

Lemma neighbor_of_sound cur V l n :
  neighbor_of cur V l = Some n → (n ∉ V) ∧ joins l cur n.
Proof.
  unfold neighbor_of, joins, has.
  destruct (endpoint_id (source l)) as [s|], (endpoint_id (target l)) as [t|];
    repeat case_bool_decide; simpl; intros; simplify_eq; auto.
Qed.

Lemma neighbor_of_complete cur V l v :
  cur ∈ V → joins l cur v → v ∈ V ∨ neighbor_of cur V l = Some v.
Proof.
  unfold neighbor_of, joins, has. intros Hcur [[Hs Ht]|[Hs Ht]];
    rewrite Hs, Ht; repeat case_bool_decide; simpl; simplify_eq; auto.
Qed.

Lemma visit_fold cur p ls V Q :
  ∃ ns,
    (foldl (visit cur p) (V, Q) ls).2 = Q ++ ((λ n, p ++ [n]) <$> ns) ∧
    (foldl (visit cur p) (V, Q) ls).1 = list_to_set ns ∪ V ∧
    NoDup ns ∧
    (∀ n, n ∈ ns → (n ∉ V) ∧ truthy n = true ∧ adjacent ls cur n) ∧
    (cur ∈ V → ∀ v, adjacent ls cur v → truthy v = true →
       v ∈ (foldl (visit cur p) (V, Q) ls).1).
Proof.
  revert V Q. induction ls as [|l ls IH]; intros V Q; simpl.
  - exists []. simpl. rewrite app_nil_r. split_and!; try done.
    + set_solver.
    + constructor.
    + set_solver.
    + intros _ v (l & Hl & _). set_solver.
  - assert (Hcase :
      visit cur p (V, Q) l = (V, Q) ∧
        (cur ∈ V → ∀ v, joins l cur v → truthy v = true → v ∈ V) ∨
      ∃ n, visit cur p (V, Q) l = ({[n]} ∪ V, Q ++ [p ++ [n]]) ∧
           (n ∉ V) ∧ truthy n = true ∧ joins l cur n ∧
           (∀ v, joins l cur v → truthy v = true → v ∈ V ∨ v = n)).
    { unfold visit; simpl.
      destruct (neighbor_of cur V l) as [n|] eqn:Hn.
      - destruct (truthy n) eqn:Ht.
        + right. exists n. apply neighbor_of_sound in Hn as Hn'.
          destruct Hn' as [Hfresh Hj]. split_and!; try done.
          intros v Hv _.
          destruct (decide (v ∈ V)); [by left|right].
          destruct (decide (cur ∈ V)) as [Hc|Hc].
          * destruct (neighbor_of_complete _ _ _ _ Hc Hv); [done | congruence].
          * destruct Hv as [[Hs Ht']|[Hs Ht']], Hj as [[Hs' Ht'']|[Hs' Ht'']];
              congruence.
        + left. split; [done|]. intros Hc v Hv Htv.
          destruct (neighbor_of_complete _ _ _ _ Hc Hv); [done | congruence].
      - left. split; [done|]. intros Hc v Hv Htv.
        destruct (neighbor_of_complete _ _ _ _ Hc Hv); [done | congruence]. }
    destruct Hcase as [[-> Hclosed]|(n & -> & Hfresh & Htn & Hj & Hclosed)].
    + destruct (IH V Q) as (ns & HQ & HV & Hnd & Hns & Hcl).
      exists ns. split_and!; try done.
      * intros m Hm. destruct (Hns m Hm) as (? & ? & l' & ? & ?).
        split_and!; try done. exists l'. set_solver.
      * intros Hc v (l' & Hl' & Hj) Htv.
        apply elem_of_cons in Hl' as [->|Hl'].
        -- rewrite HV. specialize (Hclosed Hc v Hj Htv). set_solver.
        -- apply Hcl; [done| |done]. by exists l'.
    + destruct (IH ({[n]} ∪ V) (Q ++ [p ++ [n]]))
        as (ns & HQ & HV & Hnd & Hns & Hcl).
      exists (n :: ns). split_and!.
      * rewrite HQ. simpl. by rewrite <- app_assoc.
      * rewrite HV. set_solver.
      * constructor; [|done]. intros Hin. apply Hns in Hin. set_solver.
      * intros m Hm. apply elem_of_cons in Hm as [->|Hm].
        -- split_and!; try done. exists l. set_solver.
        -- destruct (Hns m Hm) as (? & ? & l' & ? & ?).
           split_and!; [set_solver | done | exists l'; set_solver].
      * intros Hc v (l' & Hl' & Hj') Htv.
        apply elem_of_cons in Hl' as [->|Hl'].
        -- rewrite HV. destruct (Hclosed v Hj' Htv); set_solver.
        -- apply Hcl; [set_solver| |done]. by exists l'.
Qed.

(** *** The loop ends *)

Lemma adjacent_link_ids ls u v : adjacent ls u v → v ∈ link_ids ls.
Proof.
  intros (l & Hl & Hj). unfold link_ids. apply list_elem_of_bind.
  exists l. split; [|done].
  destruct Hj as [[Hs Ht]|[Hs Ht]]; rewrite Hs, Ht; simpl; set_solver.
Qed.

Lemma length_link_ids ls : length (link_ids ls) ≤ 2 * length ls.
Proof.
  induction ls as [|l ls IH]; [simpl; lia|].
  unfold link_ids in *. rewrite bind_cons, !length_app.
  destruct (endpoint_id (source l)), (endpoint_id (target l)); simpl in *; lia.
Qed.

Lemma size_list_to_set_le (xs : list string) :
  base.size (list_to_set xs : gset string) ≤ length xs.
Proof.
  induction xs as [|x xs IH].
  - change (base.size (∅ : gset string) ≤ 0). by rewrite size_empty.
  - change (base.size ({[x]} ∪ list_to_set xs : gset string) ≤ S (length xs)).
    rewrite size_union_alt, size_singleton.
    assert (base.size (list_to_set xs ∖ {[x]} : gset string)
            ≤ base.size (list_to_set xs : gset string)).
    { apply subseteq_size. set_solver. }
    lia.
Qed.

Lemma size_difference_fresh (U V : gset string) ns :
  NoDup ns → (∀ n, n ∈ ns → n ∈ U ∧ n ∉ V) →
  base.size (U ∖ (list_to_set ns ∪ V)) + length ns = base.size (U ∖ V).
Proof.
  revert V. induction ns as [|n ns IH]; intros V Hnd Hns.
  - change (list_to_set [] : gset string) with (∅ : gset string). simpl.
    rewrite Nat.add_0_r. f_equal. set_solver.
  - change (list_to_set (n :: ns) : gset string)
      with ({[n]} ∪ list_to_set ns : gset string).
    change (length (n :: ns)) with (S (length ns)).
    apply NoDup_cons in Hnd as [Hn Hnd].
    assert (Hstep : base.size (U ∖ ({[n]} ∪ V)) + 1 = base.size (U ∖ V)).
    { destruct (Hns n) as [HU HV]; [set_solver|].
      rewrite <- (size_singleton (C:=gset string) n), Nat.add_comm.
      rewrite <- size_union by set_solver. f_equal.
      apply set_eq. intros x. rewrite elem_of_union, !elem_of_difference,
        elem_of_union, elem_of_singleton.
      destruct (decide (x = n)) as [->|]; naive_solver. }
    specialize (IH ({[n]} ∪ V) Hnd).
    rewrite <- Hstep, <- IH.
    + replace (list_to_set ns ∪ ({[n]} ∪ V))
        with ({[n]} ∪ list_to_set ns ∪ V : gset string) by set_solver.
      lia.
    + intros m Hm. destruct (Hns m); [set_solver|]. set_solver.
Qed.

Lemma bfs_returns ls b fuel Q V :
  budget ls Q V < fuel → is_Some (bfs fuel ls b Q V).
Proof.
  revert Q V. induction fuel as [|fuel IH]; intros Q V Hlt; [lia|].
  simpl. destruct Q as [|p rest]; [by eexists|].
  unfold budget in *. simpl in Hlt.
  destruct (last p) as [cur|]; [|apply IH; unfold budget; lia].
  case_bool_decide; [by eexists|].
  destruct (visit_fold cur p ls V rest) as (ns & -> & -> & Hnd & Hns & _).
  apply IH. unfold budget. rewrite length_app, length_fmap.
  pose proof (size_difference_fresh (list_to_set (link_ids ls)) V ns Hnd) as Hsz.
  rewrite <- Hsz in Hlt; [lia|].
  intros n Hn. destruct (Hns n Hn) as (? & _ & Ha).
  split; [|done]. apply elem_of_list_to_set. by eapply adjacent_link_ids.
Qed.

Lemma findShortestPath_returns g a b :
  is_Some (findShortestPath g a b).
Proof.
  apply bfs_returns. unfold budget, fuel_for. simpl.
  pose proof (length_link_ids (links g)).
  pose proof (size_list_to_set_le (link_ids (links g))).
  assert (base.size (list_to_set (link_ids (links g)) ∖ {[a]} : gset string)
          ≤ base.size (list_to_set (link_ids (links g)) : gset string)).
  { apply subseteq_size. set_solver. }
  lia.
Qed.

(** *** What is returned is a path *)

Lemma bfs_sound ls a b fuel Q V p :
  Forall (λ q, ∃ u, walk ls a q u) Q →
  bfs fuel ls b Q V = Some (Path p) → walk ls a p b.
Proof.
  revert Q V. induction fuel as [|fuel IH]; intros Q V HQ; [done|].
  simpl. destruct Q as [|q rest]; [done|].
  apply Forall_cons in HQ as [[u Hq] Hrest].
  rewrite (walk_last _ _ _ _ Hq).
  case_bool_decide as Hu.
  - intros [= <-]. by subst.
  - destruct (visit_fold u q ls V rest) as (ns & -> & -> & _ & Hns & _).
    apply IH. apply Forall_app. split; [done|].
    apply Forall_fmap, Forall_forall. intros n Hn. simpl.
    exists n. apply walk_step with u; [done|]. by apply Hns.
Qed.

(** *** The first path found is a shortest one *)

Section Levels.
Variables (ls : list link) (a b : string).
Hypothesis ids_truthy : ∀ u v, adjacent ls u v → truthy v = true.

Lemma level_init : level_inv ls a b 1 [[a]] [] {[a]}.
Proof.
  split.
  - lia.
  - by repeat constructor.
  - constructor.
  - intros q v Hw Hlen. destruct Hw as [|p u v Hw Ha]; [set_solver|].
    apply walk_length in Hw. rewrite length_app in Hlen. simpl in Hlen. lia.
  - intros p Hp. apply list_elem_of_singleton in Hp as ->.
    exists a. split_and!; [constructor | set_solver |].
    intros q Hq. apply walk_length in Hq. simpl. lia.
  - intros u v Hu _ _. exists [a]. split; [set_solver|].
    apply elem_of_singleton in Hu as ->. done.
  - intros Hb. exists [a]. split; [set_solver|].
    apply elem_of_singleton in Hb as ->. done.
Qed.

Lemma level_up k Q V : level_inv ls a b k [] Q V → level_inv ls a b (S k) Q [] V.
Proof.
  intros [Hpos _ Hnext Hnear Hshort Hfront Htarget]. simpl in *.
  split; try rewrite app_nil_r; try done.
  - lia.
  - intros q v Hw Hlen.
    destruct (decide (length q ≤ k)) as [|Hk]; [by eapply Hnear|].
    destruct Hw as [|q u v Hw Ha]; [apply (Hnear [a]); [constructor | simpl; lia]|].
    rewrite length_app in Hlen, Hk. simpl in *.
    destruct (decide (v ∈ V)) as [|Hv]; [done|].
    assert (Hu : u ∈ V) by (eapply Hnear; [done | lia]).
    destruct (Hfront u v Hu Ha Hv) as (p & Hp & Hlast).
    destruct (Hshort p Hp) as (u' & Hwp & _ & Hmin).
    rewrite (walk_last _ _ _ _ Hwp) in Hlast. injection Hlast as ->.
    specialize (Hmin q Hw).
    rewrite Forall_forall in Hnext. specialize (Hnext p Hp). lia.
Qed.

(** One turn of the loop on a path of the current length. *)
Lemma level_step k p Q1 Q2 V cur :
  level_inv ls a b k (p :: Q1) Q2 V → last p = Some cur → cur ≠ b →
  ∃ ns,
    (foldl (visit cur p) (V, Q1 ++ Q2) ls).2
      = Q1 ++ (Q2 ++ ((λ n, p ++ [n]) <$> ns)) ∧
    level_inv ls a b k Q1 (Q2 ++ ((λ n, p ++ [n]) <$> ns))
              (foldl (visit cur p) (V, Q1 ++ Q2) ls).1.
Proof.
  intros [Hpos Hnow Hnext Hnear Hshort Hfront Htarget] Hlast Hcur.
  destruct (visit_fold cur p ls V (Q1 ++ Q2))
    as (ns & -> & -> & Hnd & Hns & Hclosed).
  exists ns. split; [by rewrite app_assoc|].
  apply Forall_cons in Hnow as [Hp Hnow].
  destruct (Hshort p) as (cur' & Hwp & HcurV & Hpmin); [set_solver|].
  rewrite (walk_last _ _ _ _ Hwp) in Hlast. injection Hlast as ->.
  specialize (Hclosed HcurV).
  split.
  - done.
  - done.
  - apply Forall_app. split; [done|].
    apply Forall_fmap, Forall_forall. intros n _. simpl.
    rewrite length_app. simpl. lia.
  - intros q v Hw Hlen. specialize (Hnear q v Hw Hlen). set_solver.
  - intros q Hq. rewrite app_assoc in Hq.
    apply elem_of_app in Hq as [Hq|Hq].
    + destruct (Hshort q) as (u & ? & ? & ?); [set_solver|].
      exists u. split_and!; [done | set_solver | done].
    + apply list_elem_of_fmap in Hq as (n & -> & Hn).
      destruct (Hns n Hn) as (Hfresh & _ & Ha).
      exists n. split_and!.
      * by apply walk_step with cur.
      * set_solver.
      * intros q Hq. rewrite length_app. simpl.
        destruct (decide (length q ≤ k)) as [Hle|]; [|lia].
        destruct Hfresh. by eapply Hnear.
  - intros u v Hu Ha Hv.
    apply elem_of_union in Hu as [Hu|Hu].
    + apply elem_of_list_to_set in Hu.
      exists (p ++ [u]). split; [|apply last_snoc].
      rewrite app_assoc. apply elem_of_app. right.
      apply list_elem_of_fmap. eauto.
    + destruct (Hfront u v Hu Ha) as (q & Hq & Hql); [set_solver|].
      apply elem_of_cons in Hq as [->|Hq].
      * rewrite (walk_last _ _ _ _ Hwp) in Hql. injection Hql as ->.
        destruct Hv. apply Hclosed; [done|]. by eapply ids_truthy.
      * exists q. split; [|done]. rewrite app_assoc. set_solver.
  - intros Hb. apply elem_of_union in Hb as [Hb|Hb].
    + apply elem_of_list_to_set in Hb.
      exists (p ++ [b]). split; [|apply last_snoc].
      rewrite app_assoc. apply elem_of_app. right.
      apply list_elem_of_fmap. eauto.
    + destruct (Htarget Hb) as (q & Hq & Hql).
      apply elem_of_cons in Hq as [->|Hq].
      * rewrite (walk_last _ _ _ _ Hwp) in Hql. congruence.
      * exists q. split; [|done]. rewrite app_assoc. set_solver.
Qed.

Lemma level_turn k p Q1 Q2 V fuel r :
  level_inv ls a b k (p :: Q1) Q2 V →
  bfs (S fuel) ls b (p :: Q1 ++ Q2) V = Some r →
  answers ls a b r ∨
  ∃ Q2' V', level_inv ls a b k Q1 Q2' V' ∧ bfs fuel ls b (Q1 ++ Q2') V' = Some r.
Proof.
  intros Hinv. simpl.
  destruct (inv_short _ _ _ _ _ _ _ Hinv p) as (cur & Hwp & _ & Hmin); [set_solver|].
  rewrite (walk_last _ _ _ _ Hwp).
  case_bool_decide as Hcur.
  - intros [= <-]. left. subst. by split.
  - intros Hr. right.
    destruct (level_step _ _ _ _ _ cur Hinv) as (ns & HQ & Hinv');
      [by eapply walk_last | done |].
    rewrite HQ in Hr. eauto.
Qed.

Lemma bfs_answers fuel k Q1 Q2 V r :
  level_inv ls a b k Q1 Q2 V →
  bfs fuel ls b (Q1 ++ Q2) V = Some r → answers ls a b r.
Proof.
  revert k Q1 Q2 V. induction fuel as [|fuel IH]; intros k Q1 Q2 V Hinv; [done|].
  destruct Q1 as [|p Q1].
  - destruct Q2 as [|p Q2].
    + simpl. intros [= <-]. simpl.
      assert (Hall : ∀ q v, walk ls a q v → v ∈ V).
      { induction 1 as [|q u v Hw IHw Ha].
        - apply (inv_near _ _ _ _ _ _ _ Hinv [a]); [constructor|].
          simpl. apply (inv_pos _ _ _ _ _ _ _ Hinv).
        - destruct (decide (v ∈ V)) as [|Hv]; [done|].
          destruct (inv_front _ _ _ _ _ _ _ Hinv u v IHw Ha Hv) as (? & ? & _).
          set_solver. }
      intros q Hq. apply Hall in Hq.
      destruct (inv_target _ _ _ _ _ _ _ Hinv Hq) as (? & ? & _). set_solver.
    + apply level_up in Hinv. simpl. intros Hr.
      rewrite <- (app_nil_r Q2) in Hr.
      destruct (level_turn _ _ _ _ _ _ _ Hinv Hr)
        as [|(Q2' & V' & Hinv' & Hr')]; [done | by eapply IH].
  - intros Hr.
    destruct (level_turn _ _ _ _ _ _ _ Hinv Hr)
      as [|(Q2' & V' & Hinv' & Hr')]; [done | by eapply IH].
Qed.

End Levels.

Lemma well_formed_adjacent g u v :
  well_formed g → adjacent (links g) u v →
  truthy v = true ∧ present g u ∧ present g v.
Proof.
  intros [Hn Hl] (l & Hin & Hj).
  rewrite Forall_forall in Hn. rewrite Forall_forall in Hl.
  specialize (Hl l Hin).
  unfold resolved in Hl. unfold joins in Hj.
  destruct (source l) as [|n], (target l) as [|m]; try done.
  destruct Hl as [Hnin Hmin]. simpl in Hj. unfold present.
  destruct Hj as [[[= <-] [= <-]]|[[= <-] [= <-]]];
    split_and!; auto; apply list_elem_of_fmap; eauto.
Qed.

(** What the search returns settles whether the two ids are connected. *)
Lemma search_decides g a b :
  (∀ u v, adjacent (links g) u v → truthy v = true) →
  match findShortestPath g a b with
  | Some (Path p) =>
      is_path (links g) a b p ∧
      ∀ q, is_path (links g) a b q → hops p ≤ hops q
  | Some Null => ¬ connected (links g) a b
  | None => False
  end.
Proof.
  intros Htruthy.
  destruct (findShortestPath_returns g a b) as [r Hr]. rewrite Hr.
  unfold findShortestPath in Hr.
  change [[a]] with ([[a]] ++ [] : list (list string)) in Hr.
  pose proof (bfs_answers (links g) a b Htruthy _ _ _ _ _ _
                (level_init (links g) a b Htruthy) Hr) as Hans.
  destruct r as [p|]; simpl in Hans.
  - destruct Hans as [Hw Hmin]. split; [by apply walk_is_path|].
    intros q Hq. apply is_path_walk, Hmin in Hq. unfold hops. lia.
  - intros [q Hq]. by apply is_path_walk, Hans in Hq.
Qed.

Lemma findShortestPath_self g a : findShortestPath g a a = Some (Path [a]).
Proof.
  unfold findShortestPath, fuel_for.
  replace (2 * length (links g) + 2) with (S (2 * length (links g) + 1)) by lia.
  simpl. by rewrite bool_decide_eq_true_2.
Qed.

Lemma connected_self ls a : connected ls a a.
Proof. exists [a]. apply walk_is_path. constructor. Qed.

Lemma connected_present g a b :
  well_formed g → a ≠ b → connected (links g) a b →
  present g a ∧ present g b.
Proof.
  intros Hwf Hne [p Hp]. apply is_path_walk in Hp.
  induction Hp as [|p u v Hw IH Ha]; [done|].
  destruct (well_formed_adjacent g u v Hwf Ha) as (_ & Hu & Hv).
  split; [|done].
  destruct (decide (a = u)) as [->|Hau]; [done|]. by apply IH.
Qed.

End ShortestPath.

(** ** Claims on the graph widget *)

Section GraphClaims.
Import Js NetworkGraph Paths GraphExamples.

Example findShortestPath_square :
  findShortestPath square "A" "C" = Some (Path ["A"; "B"; "C"]).
Proof. vm_compute. reflexivity. Qed.

Example findShortestPath_island :
  findShortestPath square "A" "E" = Some Null.
Proof. vm_compute. reflexivity. Qed.

Lemma square_well_formed : well_formed square.
Proof. compute_done. Qed.

(** C1, counterexample.  With an end that is not in the graph the search
    returns [null], not an empty sequence; asked for the path from an
    absent id to itself it returns that id. *)
Lemma findShortestPath_absent_endpoint_null :
  ¬ present square "Z" ∧
  findShortestPath square "A" "Z" = Some Null ∧
  findShortestPath square "A" "Z" ≠ Some (Path []) ∧
  findShortestPath square "Z" "Z" = Some (Path ["Z"]).
Proof.
  split_and!.
  - compute_done.
  - vm_compute. reflexivity.
  - vm_compute. discriminate.
  - vm_compute. reflexivity.
Qed.

(** C1, amended.  In a well-formed graph, for two different ids that no
    path connects or of which one is not a node of the graph,
    [findShortestPath] returns [null]: it neither throws nor returns an
    empty sequence.  The criminal-network wrapper turns that [null] into
    the empty sequence.  The path from an id to itself is that id
    alone. *)
Theorem findShortestPath_null_without_path g a b :
  well_formed g → a ≠ b →
  ¬ connected (links g) a b ∨ ¬ present g a ∨ ¬ present g b →
  findShortestPath g a b = Some Null ∧
  CriminalNetwork.findShortestPath (Some g) a b = Some [] ∧
  findShortestPath g a a = Some (Path [a]).
Proof.
  intros Hwf Hne Hcase.
  assert (Hnc : ¬ connected (links g) a b).
  { destruct Hcase as [?|Habs]; [done|]. intros Hc.
    destruct (connected_present g a b Hwf Hne Hc). tauto. }
  assert (Hnull : findShortestPath g a b = Some Null).
  { pose proof (search_decides g a b) as Hs.
    destruct (findShortestPath g a b) as [[p|]|].
    - destruct Hs as [Hp _].
      + intros u v Ha. by eapply well_formed_adjacent.
      + destruct Hnc. by exists p.
    - done.
    - destruct Hs. intros u v Ha. by eapply well_formed_adjacent. }
  split_and!; [done| |apply findShortestPath_self].
  unfold CriminalNetwork.findShortestPath. by rewrite Hnull.
Qed.

Lemma findShortestPath_null_without_path_witness :
  findShortestPath square "A" "Z" = Some Null ∧
  CriminalNetwork.findShortestPath (Some square) "A" "Z" = Some [] ∧
  findShortestPath square "A" "A" = Some (Path ["A"]).
Proof.
  apply (findShortestPath_null_without_path square "A" "Z").
  - compute_done.
  - discriminate.
  - right. right. compute_done.
Defined.

(** C5.  In a well-formed graph, for two node ids that are present and
    connected, [findShortestPath] returns a sequence of ids that starts
    at the first, ends at the second, goes from each id to the next
    along a link in either direction, and has no more hops than any
    other such sequence. *)
Theorem findShortestPath_shortest g a b :
  well_formed g → present g a → present g b →
  connected (links g) a b →
  ∃ p, findShortestPath g a b = Some (Path p) ∧
       is_path (links g) a b p ∧
       ∀ q, is_path (links g) a b q → hops p ≤ hops q.
Proof.
  intros Hwf _ _ Hc.
  pose proof (search_decides g a b) as Hs.
  destruct (findShortestPath g a b) as [[p|]|].
  - exists p. split; [done|]. apply Hs.
    intros u v Ha. by eapply well_formed_adjacent.
  - destruct Hs; [|done]. intros u v Ha. by eapply well_formed_adjacent.
  - destruct Hs. intros u v Ha. by eapply well_formed_adjacent.
Qed.

Lemma findShortestPath_shortest_witness :
  ∃ p, findShortestPath square "A" "C" = Some (Path p) ∧
       is_path (links square) "A" "C" p ∧
       ∀ q, is_path (links square) "A" "C" q → hops p ≤ hops q.
Proof.
  apply (findShortestPath_shortest square "A" "C").
  - compute_done.
  - compute_done.
  - compute_done.
  - exists ["A"; "D"; "C"]. apply walk_is_path.
    apply (walk_step _ _ ["A"; "D"] "D" "C").
    + apply (walk_step _ _ ["A"] "A" "D"); [constructor|].
      exists (e "A" "D"). split; [|by left].
      apply list_elem_of_In. simpl. tauto.
    + exists (e "D" "C"). split; [|by left].
      apply list_elem_of_In. simpl. tauto.
Defined.

(** *** Loading a model *)

Lemma process_link_fold dl out done :
  foldl process_link (out, done) dl
  = (out ++ ((λ _, (Warn, "Link missing source or target"))
               <$> filter (λ l, lacks_end l = true) dl),
     done ++ (with_defaults <$> dl)).
Proof.
  revert out done. induction dl as [|l dl IH]; intros out done; simpl.
  - by rewrite !app_nil_r.
  - rewrite filter_cons. destruct (lacks_end l) eqn:Hl.
    + rewrite decide_True by done. rewrite IH. simpl.
      by rewrite <- !app_assoc.
    + rewrite decide_False by done. rewrite IH.
      by rewrite <- !app_assoc.
Qed.

Lemma process_node_step g rand k done d :
  ∃ k' n', process_node g rand (k, done) d = (k', done ++ [n']) ∧ kept d n'.
Proof.
  unfold process_node, kept.
  destruct (truthy (id d)) eqn:Hid; eexists _, _; (split; [reflexivity|]);
    simpl; split_and!; try done.
Qed.

Lemma process_node_fold g rand dn k done :
  ∃ tl, (foldl (process_node g rand) (k, done) dn).2 = done ++ tl
        ∧ Forall2 kept dn tl.
Proof.
  revert k done. induction dn as [|d dn IH]; intros k done.
  - exists []. simpl. by rewrite app_nil_r.
  - destruct (process_node_step g rand k done d) as (k' & n' & Hstep & Hk).
    destruct (IH k' (done ++ [n'])) as (tl & Htl & Hall).
    exists (n' :: tl). split; [|by constructor].
    cbn [foldl]. rewrite Hstep, Htl. by rewrite <- app_assoc.
Qed.

Lemma process_nodes_truthy g rand dn :
  (∀ k, truthy (rand k) = true) →
  Forall (λ n', truthy (id n') = true)
         (foldl (process_node g rand) (0, []) dn).2.
Proof.
  intros Hrand.
  assert (Hgen : ∀ k acc,
            Forall (λ n', truthy (id n') = true) acc →
            Forall (λ n', truthy (id n') = true)
                   (foldl (process_node g rand) (k, acc) dn).2).
  { induction dn as [|d dn IH]; intros k acc Hacc; [done|].
    cbn [foldl]. unfold process_node at 2.
    destruct (truthy (id d)) eqn:Hid; apply IH;
      (apply Forall_app; split; [done|]);
      (apply Forall_cons; split; [simpl; auto | apply Forall_nil_2]). }
  apply Hgen. constructor.
Qed.

Lemma forceLink_find_spec ns s :
  match forceLink_find ns s with
  | Return n => n ∈ ns ∧ id n = s
  | Throw msg => msg = "node not found: " +:+ s ∧ s ∉ id <$> ns
  end.
Proof.
  unfold forceLink_find.
  destruct (last (filter (λ n, id n = s) ns)) as [n|] eqn:Hlast.
  - apply last_Some in Hlast as [pre Hpre].
    assert (Hn : n ∈ filter (λ n, id n = s) ns)
      by (rewrite Hpre; set_solver).
    apply list_elem_of_filter in Hn as [? ?]. done.
  - apply last_None in Hlast. split; [done|].
    intros (n & Hid & Hn)%list_elem_of_fmap.
    assert (Hin : n ∈ filter (λ n, id n = s) ns)
      by (by apply list_elem_of_filter).
    rewrite Hlast in Hin. by apply elem_of_nil in Hin.
Qed.

Lemma forceLink_resolve_spec ns e :
  match forceLink_resolve ns e with
  | Return e' => stands_for ns e e'
  | Throw msg => ∃ s, e = Ref s ∧ msg = "node not found: " +:+ s
                      ∧ s ∉ id <$> ns
  end.
Proof.
  destruct e as [s|n]; simpl.
  - pose proof (forceLink_find_spec ns s) as H.
    destruct (forceLink_find ns s) as [n|msg].
    + destruct H as [Hn <-]. exists n. split; [done|]. by right.
    + destruct H as [-> Hs]. by exists s.
  - exists n. split; [done|]. by left.
Qed.

Lemma forceLink_initialize_spec ns ls :
  length (forceLink_initialize ns ls).2 = length ls ∧
  match (forceLink_initialize ns ls).1 with
  | Return _ =>
      Forall2 (resolved_as ns) ls (forceLink_initialize ns ls).2 ∧
      ∀ l s, l ∈ ls → ¬ dangling ns l s
  | Throw msg =>
      ∃ l s, l ∈ ls ∧ dangling ns l s ∧ msg = "node not found: " +:+ s
  end.
Proof.
  induction ls as [|l ls [IHlen IH]]; simpl.
  - split; [done|]. split; [constructor|]. by intros l s ?%elem_of_nil.
  - pose proof (forceLink_resolve_spec ns (source l)) as Hs.
    destruct (forceLink_resolve ns (source l)) as [s'|msg]; simpl.
    + pose proof (forceLink_resolve_spec ns (target l)) as Ht.
      destruct (forceLink_resolve ns (target l)) as [t'|msg]; simpl.
      * destruct (forceLink_initialize ns ls) as [r rest'] eqn:Hrest.
        simpl in *. split; [by rewrite IHlen|].
        destruct r as [u|msg].
        -- destruct IH as [Hall Hno]. split; [by constructor|].
           intros l0 s [->|Hin]%elem_of_cons; [|by apply Hno].
           intros [[Hl|Hl] Hd].
           ++ destruct Hs as (n & _ & [Hn|[Hn Hin]]); [congruence|].
              rewrite Hl in Hn. injection Hn as ->.
              apply Hd, list_elem_of_fmap. eauto.
           ++ destruct Ht as (n & _ & [Hn|[Hn Hin]]); [congruence|].
              rewrite Hl in Hn. injection Hn as ->.
              apply Hd, list_elem_of_fmap. eauto.
        -- destruct IH as (l0 & s & Hin & Hd & ->).
           exists l0, s. split_and!; [set_solver|done|done].
      * split; [done|]. destruct Ht as (s & Hl & -> & Hd).
        exists l, s. split_and!; [set_solver| |done]. split; [by right|done].
    + split; [done|]. destruct Hs as (s & Hl & -> & Hd).
      exists l, s. split_and!; [set_solver| |done]. split; [by left|done].
Qed.

Lemma loadData_unfold rand dn dl g :
  loadData rand dn dl g
  = ((forceLink_initialize (foldl (process_node g rand) (0, []) dn).2
        (with_defaults <$> dl)).1,
     mkGraph (foldl (process_node g rand) (0, []) dn).2
       (forceLink_initialize (foldl (process_node g rand) (0, []) dn).2
          (with_defaults <$> dl)).2
       (nodeRadius g)
       (log g ++ ((λ _, (Warn, "Link missing source or target"))
                    <$> filter (λ l, lacks_end l = true) dl))).
Proof.
  unfold loadData, render. rewrite process_link_fold. simpl.
  by destruct (forceLink_initialize _ _).
Qed.

(** C4, the failing input.  On a model of two nodes and two links, the
    second link pointing at a node that is not there, the load ends in
    the error of d3's [forceLink]; the first link is resolved, the
    second is still there, half resolved, and nothing was logged. *)
Lemma loadData_dangling_link_throws :
  ¬ present (loadData no_random dangling_nodes dangling_links blank).2 "ghost" ∧
  loadData no_random dangling_nodes dangling_links blank
  = (Throw "node not found: ghost",
     mkGraph [n "A"; n "B"]
       [e "A" "B"; mkLink (Obj (n "A")) (Ref "ghost") "#999" 2] 20 []).
Proof. split; [compute_done | vm_compute; reflexivity]. Qed.

(** C4.  [loadData] neither drops nor reports a link whose source or
    target id names no node of the model: it hands every link to d3 in
    [render], and the load as a whole fails with the error
    'node not found: <id>' of [forceLink] exactly when some link has
    such an end.  It returns exactly when no link has one, and then
    every link is loaded, with its ends replaced by the node objects
    and the default colour and width filled in; when all the ends were
    ids the graph is then well formed.  The only warning is the one
    for a link with a falsy end (here the empty id), which is kept like
    the others.  Every node record is loaded, keeping its id when it
    has one. *)
Theorem loadData_fails_on_dangling_link rand dn dl g :
  let r := loadData rand dn dl g in
  ((∃ l s, l ∈ dl ∧ dangling (nodes r.2) l s) ↔
   (∃ s, r.1 = Throw ("node not found: " +:+ s) ∧ s ∉ id <$> nodes r.2)) ∧
  (r.1 = Return tt ↔ ¬ ∃ l s, l ∈ dl ∧ dangling (nodes r.2) l s) ∧
  (r.1 = Return tt →
   Forall2 (λ l l', resolved_as (nodes r.2) (with_defaults l) l')
     dl (links r.2)) ∧
  (r.1 = Return tt → (∀ k, truthy (rand k) = true) →
   Forall (λ l, ∃ a b, source l = Ref a ∧ target l = Ref b) dl →
   well_formed r.2) ∧
  length (links r.2) = length dl ∧
  log r.2
    = log g ++ ((λ _, (Warn, "Link missing source or target"))
                  <$> filter (λ l, lacks_end l = true) dl) ∧
  Forall2 kept dn (nodes r.2).
Proof.
  cbv zeta. rewrite loadData_unfold. cbn [fst snd nodes links log].
  set (ns := (foldl (process_node g rand) (0, []) dn).2).
  destruct (forceLink_initialize_spec ns (with_defaults <$> dl)) as [Hlen H].
  assert (Hends : (∃ l s, l ∈ dl ∧ dangling ns l s) ↔
                  (∃ l s, l ∈ with_defaults <$> dl ∧ dangling ns l s)).
  { split.
    - intros (l & s & Hl & Hd). exists (with_defaults l), s.
      split; [by apply list_elem_of_fmap_2|done].
    - intros (l' & s & (l & -> & Hl)%list_elem_of_fmap & Hd). eauto. }
  split_and!.
  - rewrite Hends.
    destruct (forceLink_initialize ns (with_defaults <$> dl)).1 as [u|msg].
    + destruct H as [_ Hno]. split.
      * intros (l & s & Hl & Hd). by destruct (Hno l s Hl).
      * by intros (s & ? & _).
    + destruct H as (l & s & Hl & Hd & ->). split.
      * intros _. exists s. split; [done|]. by destruct Hd.
      * intros _. eauto.
  - rewrite Hends.
    destruct (forceLink_initialize ns (with_defaults <$> dl)).1 as [[]|msg].
    + destruct H as [_ Hno]. split; [|done].
      intros _ (l & s & Hl & Hd). by destruct (Hno l s Hl).
    + destruct H as (l & s & Hl & Hd & ->). split; [done|].
      intros Hno. destruct Hno. eauto.
  - intros Hr. rewrite Hr in H. destruct H as [Hall _].
    exact (proj1 (Forall2_fmap_l with_defaults (resolved_as ns) dl _) Hall).
  - intros Hr Hrand Hrefs. rewrite Hr in H. destruct H as [Hall _].
    split; [by apply process_nodes_truthy|]. cbn [links nodes].
    pose proof (proj1 (Forall2_fmap_l with_defaults (resolved_as ns) dl _)
                  Hall) as Hall'.
    eapply Forall2_Forall_r; [exact Hall'|].
    rewrite Forall_forall in Hrefs. apply Forall_forall.
    intros l Hl l' (Hs & Ht & _). destruct (Hrefs l Hl) as (a & b & Ha & Hb).
    simpl in Hs, Ht. rewrite Ha in Hs. rewrite Hb in Ht.
    destruct Hs as (n1 & Hn1 & [?|[_ ?]]); [done|].
    destruct Ht as (n2 & Hn2 & [?|[_ ?]]); [done|].
    unfold resolved. by rewrite Hn1, Hn2.
  - by rewrite Hlen, length_fmap.
  - done.
  - subst ns. destruct (process_node_fold g rand dn 0 []) as (tl & -> & Hall).
    done.
Qed.

End GraphClaims.

(** ** Claims on the registries *)

Section RegistryClaims.
Import Js TimelineInterop RegistryExamples.
Implicit Types (w : world) (c : string) (h : nat).

Local Ltac initialize_cases r w c u :=
  unfold initializeEnhancedTimeline, survivors, destroy_existing, dataSet,
    enhancements_initialize, new_timeline, destroy_object;
  destruct r as [r|]; simpl;
  destruct (vis_loaded w); simpl; try done;
  case_bool_decide; simpl; try done;
  destruct (timelineInstances w !! c) eqn:?; simpl;
  case_bool_decide; simpl; try done;
  destruct u, (enhancements_loaded w) eqn:?; simpl;
  rewrite ?bool_decide_eq_true_2 by done; simpl;
  try (destruct (storage_readable w) eqn:?; simpl); try done.

Local Ltac answered_false :=
  intros [= <-]; simpl; split_and!; try done; try (by eexists);
  try congruence;
  first [ left; split_and!; try done; (by left) || (by right)
        | right; left; split_and!; try done; by rewrite ?delete_id
        | right; right; split_and!; try done; try congruence;
          by rewrite ?delete_id ].

Lemma initializeEnhancedTimeline_true c its r u w w' :
  initializeEnhancedTimeline c its r u w = (true, w') →
  c ∈ document w ∧
  objects w' = survivors c w ++ [mkTimeline c its true []] ∧
  timelineInstances w' = <[c := length (objects w)]> (timelineInstances w).
Proof.
  initialize_cases r w c u;
    intros [= <-]; simpl; split_and!; try done;
    rewrite ?length_alter, ?insert_delete_eq; done.
Qed.

Lemma initializeEnhancedTimeline_true_ids c its r u w w' :
  initializeEnhancedTimeline c its r u w = (true, w') →
  NoDup (item_id <$> its) ∧
  (u && enhancements_loaded w = true → storage_readable w = true) ∧
  storage_readable w' = storage_readable w ∧
  enhancements_loaded w' = enhancements_loaded w ∧
  timers w' = timers w ∧
  shipmentTimelinePlayback w' = shipmentTimelinePlayback w.
Proof.
  initialize_cases r w c u; intros [= <-]; simpl;
    split_and!; try done; congruence.
Qed.

(** What a call that returns [false] leaves behind: nothing changed
    when the library or the container is missing; otherwise the
    timeline that was registered for the container is destroyed and
    unregistered, and when the enhancements threw after building the
    timeline, that timeline is there, registered nowhere. *)
Lemma initializeEnhancedTimeline_false c its r u w w' :
  initializeEnhancedTimeline c its r u w = (false, w') →
  (∃ msg, out w' = out w ++ [(Error, msg)]) ∧
  storage_readable w' = storage_readable w ∧
  enhancements_loaded w' = enhancements_loaded w ∧
  timers w' = timers w ∧
  shipmentTimelinePlayback w' = shipmentTimelinePlayback w ∧
  ((objects w' = objects w ∧ timelineInstances w' = timelineInstances w ∧
    (vis_loaded w = false ∨ c ∉ document w)) ∨
   (c ∈ document w ∧
    objects w' = survivors c w ∧
    timelineInstances w' = delete c (timelineInstances w) ∧
    ¬ NoDup (item_id <$> its)) ∨
   (c ∈ document w ∧
    objects w' = survivors c w ++ [mkTimeline c its true []] ∧
    timelineInstances w' = delete c (timelineInstances w) ∧
    u && enhancements_loaded w = true ∧ storage_readable w = false)).
Proof.
  unfold initializeEnhancedTimeline, survivors, destroy_existing, dataSet,
    enhancements_initialize, new_timeline, destroy_object.
  destruct r as [r|]; simpl.
  all: destruct (vis_loaded w) eqn:Hvis; simpl; [|answered_false].
  all: case_bool_decide as Hc; simpl; [|answered_false].
  all: destruct (timelineInstances w !! c) eqn:Hh; simpl.
  all: case_bool_decide as Hnd; simpl; [|answered_false].
  all: destruct u, (enhancements_loaded w) eqn:He; simpl;
    rewrite ?bool_decide_eq_true_2 by done; simpl;
    try (destruct (storage_readable w) eqn:Hst; simpl); try done.
  all: answered_false.
Qed.

Lemma survivors_lookup c w h t :
  registry_owns w → survivors c w !! h = Some t → tl_live t = true →
  objects w !! h = Some t ∧ tl_container t ≠ c.
Proof.
  unfold survivors. intros Hown Ht Hlive.
  destruct (timelineInstances w !! c) as [h0|] eqn:Hc.
  - destruct (decide (h0 = h)) as [->|Hne].
    + rewrite list_lookup_alter_eq in Ht.
      destruct (objects w !! h); simplify_eq/=.
    + rewrite list_lookup_alter_ne in Ht by done.
      split; [done|]. intros <-.
      specialize (Hown h t Ht Hlive). congruence.
  - split; [done|]. intros <-.
    specialize (Hown h t Ht Hlive). congruence.
Qed.

Lemma length_survivors c w : length (survivors c w) = length (objects w).
Proof.
  unfold survivors. destruct (timelineInstances w !! c); [|done].
  apply length_alter.
Qed.

(** A successful [initialize] leaves one timeline on the container: the
    new one. *)
Lemma initializeEnhancedTimeline_one_live c its r u w w' :
  registry_owns w →
  initializeEnhancedTimeline c its r u w = (true, w') →
  registry_owns w' ∧
  timelineInstances w' !! c = Some (length (objects w)) ∧
  (∀ h, live w' h c ↔ h = length (objects w)) ∧
  (∀ h, h < length (objects w) → ¬ live w' h c).
Proof.
  intros Hown Hinit.
  apply initializeEnhancedTimeline_true in Hinit as (Hc & Hobj & Hreg).
  assert (Hold : ∀ h t, objects w' !! h = Some t → tl_live t = true →
            h = length (objects w) ∧ tl_container t = c ∨
            objects w !! h = Some t ∧ tl_container t ≠ c).
  { intros h t Ht Hlive. rewrite Hobj in Ht.
    apply lookup_app_Some in Ht as [Ht|[Hlen Ht]].
    - right. by eapply survivors_lookup.
    - left. rewrite length_survivors in Hlen, Ht.
      destruct (h - length (objects w)) as [|k] eqn:Hk; [|by destruct k].
      simpl in Ht. injection Ht as <-. split; [lia | done]. }
  split_and!.
  - intros h t Ht Hlive. rewrite Hreg.
    destruct (Hold h t Ht Hlive) as [[-> ->]|[Ht' Hne]].
    + apply lookup_insert_eq.
    + rewrite lookup_insert_ne by done. by apply Hown.
  - rewrite Hreg. apply lookup_insert_eq.
  - intros h. split.
    + intros (t & Ht & Hct & Hlive).
      destruct (Hold h t Ht Hlive) as [[-> _]|[_ Hne]]; [done | congruence].
    + intros ->. exists (mkTimeline c its true []). split_and!; try done.
      rewrite Hobj, lookup_app_r; rewrite length_survivors; [|lia].
      by rewrite Nat.sub_diag.
  - intros h Hlt (t & Ht & Hct & Hlive).
    destruct (Hold h t Ht Hlive) as [[-> _]|[_ Hne]]; [lia | congruence].
Qed.




(** C6, counterexample.  On a page without the container,
    [initializeNetworkGraph] logs the error and throws it on to its
    caller. *)
Lemma initializeNetworkGraph_missing_container_throws :
  ("nowhere" ∉ GraphInterop.document graphs) ∧
  GraphInterop.initializeNetworkGraph 1000 "k3x" "nowhere" None graphs
  = (Throw "Container nowhere not found",
     GraphInterop.mkWorld page ∅
       [(Error, "Error initializing NetworkGraph: Container nowhere not found")]).
Proof. split; [compute_done | vm_compute; reflexivity]. Qed.

(** C6, amended.  For a container id that no element of the page has:
    [NetworkGraphInterop.initialize] and [initializeEnhancedTimeline]
    return [false] after logging an error and build and register
    nothing; [initializeNetworkGraph] logs the error, registers nothing
    and throws the error on to its caller. *)
Theorem initialize_missing_container c
    (s : NetworkGraphInterop.state) (w : world) (g : GraphInterop.world)
    dotNetRef its useEnhancements now rnd radius :
  c ∉ NetworkGraphInterop.document s →
  c ∉ document w →
  c ∉ GraphInterop.document g →
  (let r := NetworkGraphInterop.initialize c dotNetRef s in
   r.1 = false ∧
   NetworkGraphInterop.network r.2 = NetworkGraphInterop.network s ∧
   NetworkGraphInterop.networks r.2 = NetworkGraphInterop.networks s ∧
   NetworkGraphInterop.out r.2
     = NetworkGraphInterop.out s
       ++ [(Error, "Container element not found: " +:+ c)]) ∧
  (let r := initializeEnhancedTimeline c its dotNetRef useEnhancements w in
   r.1 = false ∧
   objects r.2 = objects w ∧
   timelineInstances r.2 = timelineInstances w ∧
   ∃ msg, out r.2 = out w ++ [(Error, msg)]) ∧
  (let r := GraphInterop.initializeNetworkGraph now rnd c radius g in
   r.1 = Throw ("Container " +:+ c +:+ " not found") ∧
   GraphInterop.graphInstances r.2 = GraphInterop.graphInstances g ∧
   GraphInterop.out r.2
     = GraphInterop.out g
       ++ [(Error, "Error initializing NetworkGraph: "
                   +:+ ("Container " +:+ c +:+ " not found"))]).
Proof.
  intros Hs Hw Hg. split_and!.
  - unfold NetworkGraphInterop.initialize.
    rewrite bool_decide_eq_false_2 by done. done.
  - destruct (initializeEnhancedTimeline c its dotNetRef useEnhancements w)
      as [[] w'] eqn:Hinit.
    + apply initializeEnhancedTimeline_true in Hinit as [Hc _]. done.
    + apply initializeEnhancedTimeline_false in Hinit. naive_solver.
  - unfold GraphInterop.initializeNetworkGraph, GraphInterop.construct.
    rewrite bool_decide_eq_false_2 by done. done.
Qed.

Lemma initialize_missing_container_witness :
  (NetworkGraphInterop.initialize "nowhere" None vis_network).1 = false ∧
  (initializeEnhancedTimeline "nowhere" [] None true timelines).1 = false ∧
  (GraphInterop.initializeNetworkGraph 1000 "k3x" "nowhere" None graphs).1
  = Throw "Container nowhere not found".
Proof.
  destruct (initialize_missing_container "nowhere" vis_network timelines
              graphs None [] true 1000%N "k3x" None)
    as ((H1 & _) & (H2 & _) & (H3 & _)).
  - compute_done.
  - compute_done.
  - compute_done.
  - split_and!; [exact H1 | exact H2 | exact H3].
Defined.

Lemma destroyTimeline_unregisters c w :
  timelineInstances (destroyTimeline c w).2 !! c = None.
Proof.
  unfold destroyTimeline.
  destruct (timelineInstances w !! c) eqn:Hc; simpl; [|done].
  apply lookup_delete_eq.
Qed.

(** C8, counterexample.  [NetworkGraphInterop.destroy] reports success
    once; called again it returns [false]. *)
Lemma NetworkGraphInterop_destroy_twice_false :
  NetworkGraphInterop.network vis_network_ready = Some 0 ∧
  (NetworkGraphInterop.destroy vis_network_ready).1 = true ∧
  (NetworkGraphInterop.destroy
     (NetworkGraphInterop.destroy vis_network_ready).2).1 = false.
Proof. split_and!; vm_compute; reflexivity. Qed.

(** C8, amended.  [destroyTimeline] returns [true] on the first and on
    the second call for a container id, and the second call changes
    nothing.  [NetworkGraphInterop.destroy] returns [true] when there is
    a network to destroy; the second call changes nothing and returns
    [false].  Neither throws. *)
Theorem destroy_twice c w (s : NetworkGraphInterop.state) h :
  NetworkGraphInterop.network s = Some h →
  (destroyTimeline c w).1 = true ∧
  destroyTimeline c (destroyTimeline c w).2 = (true, (destroyTimeline c w).2) ∧
  (NetworkGraphInterop.destroy s).1 = true ∧
  NetworkGraphInterop.destroy (NetworkGraphInterop.destroy s).2
  = (false, (NetworkGraphInterop.destroy s).2).
Proof.
  intros Hs. split_and!.
  - unfold destroyTimeline. by destruct (timelineInstances w !! c).
  - unfold destroyTimeline at 1. by rewrite destroyTimeline_unregisters.
  - unfold NetworkGraphInterop.destroy. by rewrite Hs.
  - unfold NetworkGraphInterop.destroy. by rewrite Hs.
Qed.

Lemma destroy_twice_witness :
  (destroyTimeline "graph-container" first_timeline.2).1 = true ∧
  destroyTimeline "graph-container"
    (destroyTimeline "graph-container" first_timeline.2).2
  = (true, (destroyTimeline "graph-container" first_timeline.2).2) ∧
  (NetworkGraphInterop.destroy vis_network_ready).1 = true ∧
  NetworkGraphInterop.destroy (NetworkGraphInterop.destroy vis_network_ready).2
  = (false, (NetworkGraphInterop.destroy vis_network_ready).2).
Proof.
  apply (destroy_twice "graph-container" first_timeline.2
           vis_network_ready 0).
  vm_compute. reflexivity.
Defined.

End RegistryClaims.

(** ** Claims on burst detection *)

Section BurstClaims.
Import Js TimelineEnhancements BurstExamples.
Implicit Types (x y : item) (l rest pre post : list item) (b : burst).

Lemma insert_by_perm {A} (key : A → Z) a (l : list A) :
  insert_by key a l ≡ₚ a :: l.
Proof.
  induction l as [|y l IH]; simpl; [done|].
  destruct (key a <=? key y)%Z; [done|].
  rewrite IH. apply Permutation_swap.
Qed.

Lemma sort_by_perm {A} (key : A → Z) (l : list A) : sort_by key l ≡ₚ l.
Proof.
  induction l as [|a l IH]; simpl; [done|].
  by rewrite insert_by_perm, IH.
Qed.

Lemma insert_by_sorted {A} (key : A → Z) a (l : list A) :
  StronglySorted (λ u v, (key u <= key v)%Z) l →
  StronglySorted (λ u v, (key u <= key v)%Z) (insert_by key a l).
Proof.
  induction 1 as [|y l Hs IH Hy]; simpl.
  - repeat constructor.
  - destruct (key a <=? key y)%Z eqn:Hle.
    + apply Z.leb_le in Hle. constructor; [by constructor|].
      constructor; [done|].
      eapply Forall_impl; [exact Hy|]. simpl. intros; lia.
    + apply Z.leb_gt in Hle. constructor; [done|].
      rewrite insert_by_perm. constructor; [lia | done].
Qed.

Lemma sort_by_sorted {A} (key : A → Z) (l : list A) :
  StronglySorted (λ u v, (key u <= key v)%Z) (sort_by key l).
Proof.
  induction l as [|a l IH]; simpl; [constructor|].
  by apply insert_by_sorted.
Qed.

Lemma count_within_run w t rest n :
  count_within w t rest n = n + length (run_of w t rest).
Proof.
  revert n. induction rest as [|y rest IH]; intros n; simpl; [lia|].
  destruct (start y - t <? w)%Z; simpl; [rewrite IH|]; lia.
Qed.

Lemma run_of_prefix w t rest :
  ∃ post, rest = run_of w t rest ++ post ∧
          (∀ y, y ∈ run_of w t rest → (start y - t < w)%Z) ∧
          (∀ y, head post = Some y → (w <= start y - t)%Z).
Proof.
  induction rest as [|x rest (post & Hrest & Hin & Hout)]; simpl.
  - exists []. split_and!; [done | set_solver | done].
  - destruct (start x - t <? w)%Z eqn:Hx.
    + apply Z.ltb_lt in Hx. exists post. split_and!.
      * simpl. by rewrite <- Hrest.
      * intros y [->|Hy]%elem_of_cons; auto.
      * done.
    + apply Z.ltb_ge in Hx. exists (x :: rest). split_and!.
      * done.
      * set_solver.
      * by intros y [= <-].
Qed.

Lemma run_of_unique w t run post :
  (∀ y, y ∈ run → (start y - t < w)%Z) →
  (∀ y, head post = Some y → (w <= start y - t)%Z) →
  run_of w t (run ++ post) = run.
Proof.
  intros Hin Hout. induction run as [|x run IH]; simpl.
  - destruct post as [|y post]; [done|]. simpl.
    specialize (Hout y eq_refl).
    destruct (start y - t <? w)%Z eqn:Hy; [|done].
    apply Z.ltb_lt in Hy. lia.
  - assert (start x - t < w)%Z as Hx by (apply Hin; set_solver).
    apply Z.ltb_lt in Hx. rewrite Hx. f_equal. apply IH.
    intros y Hy. apply Hin. set_solver.
Qed.

Lemma take_run_of w t rest :
  take (length (run_of w t rest)) rest = run_of w t rest.
Proof.
  destruct (run_of_prefix w t rest) as (post & Hrest & _).
  rewrite Hrest at 2. by rewrite take_app_length.
Qed.

(** The bursts of a sorted list: one for every position whose run is long
    enough. *)
Lemma elem_of_scan th w l b :
  b ∈ scan th w l ↔
  ∃ pre x post,
    l = pre ++ x :: post ∧
    th ≤ S (length (run_of w (start x) post)) ∧
    b = mkBurst (start x) (S (length (run_of w (start x) post)))
                (x :: run_of w (start x) post).
Proof.
  induction l as [|x rest IH]; simpl.
  - split; [set_solver|]. intros (pre & ? & ? & Hl & _). by destruct pre.
  - rewrite elem_of_app, IH, count_within_run. simpl.
    rewrite take_run_of. split.
    + intros [Hb|(pre & y & post & -> & Hth & ->)].
      * case_bool_decide as Hth; [|set_solver].
        apply list_elem_of_singleton in Hb as ->.
        exists [], x, rest. done.
      * exists (x :: pre), y, post. done.
    + intros (pre & y & post & Hl & Hth & ->).
      destruct pre as [|x' pre]; simpl in Hl; simplify_eq.
      * left. rewrite bool_decide_eq_true_2 by done. set_solver.
      * right. exists pre, y, post. done.
Qed.

(** C3, counterexample.  With a window of five minutes and a threshold of
    three, the events at minutes 0 to 4 give three bursts, of 5, 4 and 3
    events.  With the constants of the code, six events a minute apart
    give two bursts that overlap, and five events fifty minutes apart give
    none although each is within the hour of the one before. *)
Lemma detectBursts_reports_overlapping_runs :
  count <$> detectBurstsWith 3 (5 * minute) five = [5; 4; 3] ∧
  count <$> detectBursts six = [6; 5] ∧
  detectBursts spaced = [].
Proof. split_and!; vm_compute; reflexivity. Qed.

(** C3, amended.  [detectBursts] has a threshold of 5 events and a window
    of one hour built in.  On the events at minutes 0 to 4 it reports one
    burst, of count 5, with all five events.  In general it sorts the
    events by time and reports a burst for every event that, together with
    the events after it that start less than one hour after it, makes at
    least 5 events: the run is measured from its first event, it stops at
    the first event outside that hour, and runs that start at successive
    events are each reported. *)
Theorem detectBursts_anchored_runs its b :
  detectBursts five = [mkBurst 0 5 five] ∧
  sort_by start its ≡ₚ its ∧
  StronglySorted (λ x y, (start x <= start y)%Z) (sort_by start its) ∧
  (b ∈ detectBursts its ↔
   ∃ pre x run post,
     sort_by start its = pre ++ (x :: run) ++ post ∧
     items b = x :: run ∧
     burst_start b = start x ∧
     count b = length (items b) ∧
     5 ≤ count b ∧
     (∀ y, y ∈ run → (start y - start x < timeWindow)%Z) ∧
     (∀ y, head post = Some y → (timeWindow <= start y - start x)%Z)).
Proof.
  split_and!.
  - vm_compute. reflexivity.
  - apply sort_by_perm.
  - apply sort_by_sorted.
  - unfold detectBursts, detectBurstsWith. rewrite elem_of_scan. split.
    + intros (pre & x & post & Hl & Hth & ->).
      destruct (run_of_prefix timeWindow (start x) post)
        as (post' & Hpost & Hin & Hout).
      exists pre, x, (run_of timeWindow (start x) post), post'.
      simpl. split_and!; try done.
      rewrite Hl. simpl. by rewrite <- Hpost.
    + intros (pre & x & run & post & Hl & Hitems & Hstart & Hcount & Hth
              & Hin & Hout).
      exists pre, x, (run ++ post). split; [done|].
      rewrite run_of_unique by done.
      rewrite Hitems in Hcount. simpl in Hcount.
      split; [unfold threshold; lia|].
      destruct b as [bs bc bi]. simpl in *. by subst.
Qed.

End BurstClaims.

(** ** Claims on the map widget *)

Section MapClaims.
Import Js GeoMapViz GeoExamples.
Implicit Types (loc : location) (e : entry) (m : geomap)
               (locations : list (option entry)).

Lemma isValid_in_range loc :
  isValid (Some loc) = true ↔
  in_range (latitude loc) (-90) 90 ∧ in_range (longitude loc) (-180) 180.
Proof.
  unfold isValid, in_range. split.
  - destruct (latitude loc) as [| | |[| |lat]|], (longitude loc) as [| | |[| |lng]|];
      simpl; try done; try (by destruct negative);
      try (by rewrite ?andb_false_r);
      try (by destruct negative; rewrite ?andb_false_r).
    rewrite !andb_true_iff, !Qle_bool_iff. naive_solver.
  - intros [(lat & -> & ? & ?) (lng & -> & ? & ?)]. simpl.
    rewrite !andb_true_iff, !Qle_bool_iff. done.
Qed.

Lemma elem_of_validLocations locations e :
  e ∈ (validLocations locations).1 ↔
  Some e ∈ locations ∧ isValid (Some (position e)) = true.
Proof.
  induction locations as [|item rest IH]; simpl.
  - set_solver.
  - destruct (validLocations rest) as [valid warnings]. simpl in IH.
    destruct item as [l|].
    + destruct (isValid (Some (position l))) eqn:Hl; simpl.
      * rewrite !elem_of_cons, IH. naive_solver.
      * rewrite elem_of_cons, IH. split; [naive_solver|].
        intros [[[= ->]|Hin] Hv]; [congruence | done].
    + simpl. rewrite elem_of_cons, IH. naive_solver.
Qed.

Lemma validLocations_warnings locations :
  length (validLocations locations).2
  = length (filter (λ item, isValid (position <$> item) = false) locations) ∧
  Forall (λ line, line.1 = Warn) (validLocations locations).2.
Proof.
  induction locations as [|item rest [IHlen IHall]]; simpl.
  - split; [done | constructor].
  - destruct (validLocations rest) as [valid warnings]. simpl in *.
    rewrite filter_cons.
    destruct item as [l|]; simpl.
    + destruct (isValid (Some (position l))) eqn:Hl; simpl; [done|].
      split; [lia | by constructor].
    + split; [lia | by constructor].
Qed.

Lemma place_fold mks m :
  markers (foldl place m mks) = markers m ++ mks ∧
  clusters (foldl place m mks) = (λ cl, cl ++ mks) <$> clusters m ∧
  layers (foldl place m mks)
    = match clusters m with
      | Some _ => layers m
      | None => layers m ++ mks
      end ∧
  bounds (foldl place m mks) = bounds m ∧
  out (foldl place m mks) = out m.
Proof.
  revert m. induction mks as [|mk mks IH]; intros m; simpl.
  - rewrite !app_nil_r. destruct (clusters m); simpl; by rewrite ?app_nil_r.
  - destruct (IH (place m mk)) as (-> & -> & -> & -> & ->).
    unfold place. destruct (clusters m); simpl;
      by rewrite <- ?app_assoc.
Qed.

(** The loop places the entries up to the first whose popup cannot be
    built, and fails there. *)
Lemma place_all_spec valid m :
  (Forall (λ e, popup_ok e = true) valid →
   place_all valid m = (Return tt, foldl place m (mkMarker <$> valid))) ∧
  (∀ pre e post,
     valid = pre ++ e :: post →
     Forall (λ e, popup_ok e = true) pre → popup_ok e = false →
     place_all valid m = (Throw "TypeError", foldl place m (mkMarker <$> pre))).
Proof.
  revert m. induction valid as [|e0 valid IH]; intros m.
  - split; [done|]. intros [|??] ???; discriminate.
  - split.
    + intros [He0 Hrest]%Forall_cons. simpl.
      unfold createMarker, createPopupContent. rewrite He0.
      by apply (proj1 (IH (place m (mkMarker e0)))).
    + intros pre e post Hsplit Hpre He. destruct pre as [|p pre]; simpl in *.
      * injection Hsplit as -> ->.
        unfold createMarker, createPopupContent. by rewrite He.
      * injection Hsplit as -> ->.
        apply Forall_cons in Hpre as [Hp Hpre].
        unfold createMarker, createPopupContent. rewrite Hp.
        by apply (proj2 (IH (place m (mkMarker p))) pre e post).
Qed.

Lemma place_all_out valid m : out (place_all valid m).2 = out m.
Proof.
  revert m. induction valid as [|e valid IH]; intros m; simpl; [done|].
  destruct (createMarker e) as [mk|msg]; [|done].
  rewrite IH. unfold place. by destruct (clusters m).
Qed.

(** C7, the failing input.  Of two entries in range, the second with
    [riskScore: null]: the call throws, a marker was made for the first
    only, and the view was not fitted. *)
Lemma addMarkers_null_riskScore_throws :
  isValid (Some (position unscored)) = true ∧
  addMarkers [Some dover; Some unscored] empty_map
  = (Throw "TypeError",
     mkMap [mkMarker dover] None [mkMarker dover] None []).
Proof. split; vm_compute; reflexivity. Qed.

Example addMarkers_sample :
  addMarkers [Some lusaka; Some too_far_north; None; Some textual;
              Some not_a_number] empty_map
  = (Return tt,
     mkMap [mkMarker lusaka] None [mkMarker lusaka]
       (Some [(Number (Finite (-154 # 10)), Number (Finite (283 # 10)))])
       [(Warn, "Invalid marker location: Nowhere");
        (Warn, "Invalid marker location:");
        (Warn, "Invalid marker location: Text");
        (Warn, "Invalid marker location: NaN")]).
Proof. vm_compute. reflexivity. Qed.

(** C7.  The filter of [addMarkers] lets an entry pass exactly when its
    latitude is a number from -90 to 90 and its longitude a number from
    -180 to 180; an entry with latitude 91 does not pass, every entry
    left out costs one warning, and with no entry in range the call
    returns with the markers, the layers and the view as they were.
    But an entry in range does not always get its marker: the popup of
    [createMarker] calls [toFixed] on a [riskScore] that is there, so
    a [riskScore] that is [null] or not a number makes the whole call
    throw, with markers for the entries in range before it only.  The
    call returns, with a marker for exactly the entries in range, when
    every entry in range has a number or no [riskScore]. *)
Theorem addMarkers_fails_on_riskScore locations m :
  let r := addMarkers locations m in
  let valid := (validLocations locations).1 in
  (∀ e, e ∈ valid ↔
     Some e ∈ locations ∧
     in_range (latitude (position e)) (-90) 90 ∧
     in_range (longitude (position e)) (-180) 180) ∧
  (∀ e q, latitude (position e) = Number (Finite q) → (q == 91)%Q →
          e ∉ valid) ∧
  (∃ warnings,
     length warnings
       = length (filter (λ item, isValid (position <$> item) = false)
                   locations) ∧
     Forall (λ line, line.1 = Warn) warnings ∧
     out r.2 = out m ++ warnings
               ++ (if bool_decide (valid = [])
                   then [(Warn, "No valid locations to add markers")]
                   else [])) ∧
  (valid = [] →
     r.1 = Return tt ∧
     markers r.2 = markers m ∧ clusters r.2 = clusters m ∧
     layers r.2 = layers m ∧ bounds r.2 = bounds m) ∧
  (Forall (λ e, popup_ok e = true) valid →
     r.1 = Return tt ∧
     markers r.2 = markers m ++ (mkMarker <$> valid) ∧
     clusters r.2 = (λ cl, cl ++ (mkMarker <$> valid)) <$> clusters m ∧
     layers r.2 = match clusters m with
                  | Some _ => layers m
                  | None => layers m ++ (mkMarker <$> valid)
                  end) ∧
  (∀ pre e post,
     valid = pre ++ e :: post →
     Forall (λ e, popup_ok e = true) pre → popup_ok e = false →
     r.1 = Throw "TypeError" ∧
     markers r.2 = markers m ++ (mkMarker <$> pre) ∧
     clusters r.2 = (λ cl, cl ++ (mkMarker <$> pre)) <$> clusters m ∧
     layers r.2 = match clusters m with
                  | Some _ => layers m
                  | None => layers m ++ (mkMarker <$> pre)
                  end ∧
     bounds r.2 = bounds m).
Proof.
  cbv zeta.
  assert (Hvalid : ∀ e, e ∈ (validLocations locations).1 ↔
            Some e ∈ locations ∧
            in_range (latitude (position e)) (-90) 90 ∧
            in_range (longitude (position e)) (-180) 180).
  { intros e. rewrite elem_of_validLocations, isValid_in_range. done. }
  pose proof (validLocations_warnings locations) as [Hlen Hwarn].
  unfold addMarkers.
  destruct (validLocations locations) as [valid warnings] eqn:Hv.
  cbn [fst snd] in *.
  assert (Hnil : valid = [] ↔ length valid = 0).
  { destruct valid; simpl; split; intros; (done || lia). }
  split; [exact Hvalid|]. split.
  { intros e q Hlat Hq (_ & (q' & Hlat' & _ & Hle) & _)%Hvalid.
    rewrite Hlat in Hlat'. injection Hlat' as <-.
    rewrite Hq in Hle. by apply Qle_bool_iff in Hle. }
  case_bool_decide as Hzero.
  - apply Hnil in Hzero as ->. cbn [fst snd markers clusters layers bounds out].
    split_and!; try done.
    + exists warnings. split_and!; try done. by rewrite <- app_assoc.
    + intros _. split_and!; try done.
      * by rewrite app_nil_r.
      * destruct (clusters m); simpl; by rewrite ?app_nil_r.
      * destruct (clusters m); by rewrite ?app_nil_r.
    + intros [|??] ???; discriminate.
  - set (m0 := mkMap (markers m) (clusters m) (layers m) (bounds m)
                 (out m ++ warnings)).
    destruct (place_all_spec valid m0) as [Hok Hfail].
    pose proof (place_all_out valid m0) as Hout.
    split_and!.
    + exists warnings. rewrite bool_decide_eq_false_2 by (by rewrite Hnil).
      rewrite app_nil_r. split_and!; try done.
      destruct (place_all valid m0) as [[u|msg] m1]; simpl in *; done.
    + intros Hno. by apply Hnil in Hno.
    + intros Hall. rewrite (Hok Hall). cbn [fst snd markers clusters layers].
      destruct (place_fold (mkMarker <$> valid) m0) as (-> & -> & -> & _).
      done.
    + intros pre e post Hs Hpre He. rewrite (Hfail pre e post Hs Hpre He).
      cbn [fst snd].
      destruct (place_fold (mkMarker <$> pre) m0) as (-> & -> & -> & -> & _).
      done.
Qed.

End MapClaims.

(** ** Claims on playback *)

Section PlaybackClaims.
Import Js TimelineViz PlaybackExamples.
Implicit Types (t : viz).

(** While the flag says playing, [play] does nothing. *)
Lemma play_while_playing t : isPlaying t = true → play t = t.
Proof. unfold play. by intros ->. Qed.

(** C9, on the failing input.  After play, a redraw and play again, two
    intervals of the one widget are set; the widget holds only the second,
    so that stopping clears that one and the first keeps firing. *)
Theorem TimelineViz_second_timer_after_redraw :
  let before := run [LoadData incidents; Play; Render] create in
  let after := run play_redraw_play create in
  isPlaying before = false ∧ timers before = {[1%positive]} ∧
  timers after = {[1%positive; 2%positive]} ∧
  playbackTimer after = Some 2%positive ∧
  timers (stop after) = {[1%positive]} ∧
  playbackIndex (tick 1 (stop after)) = 1.
Proof. cbv zeta. split_and!; compute_done. Qed.

(** C10.  [pause] leaves the playback position where it is.  A [play]
    that starts playback puts the position at 0 before it sets the
    interval, so after a pause the next [play] starts again at the first
    event: the first firing of the new interval shows the first event. *)
Theorem play_restarts_at_first_event t :
  playbackIndex (pause t) = playbackIndex t ∧
  isPlaying (pause t) = false ∧
  (isPlaying t = false →
   playbackIndex (play t) = 0 ∧ isPlaying (play t) = true ∧
   playbackTimer (play t) = Some (next_timer t) ∧
   timers (play t) = {[next_timer t]} ∪ timers t) ∧
  playbackIndex (play (pause t)) = 0 ∧
  (∀ ev, events t !! 0 = Some ev →
     let t' := tick (next_timer t) (play (pause t)) in
     shown t' = Some (date ev) ∧
     ticks t' = ticks t ++ [(event_id ev, 0)] ∧
     playbackIndex t' = 1).
Proof.
  split_and!; try done.
  - unfold play. by intros ->.
  - intros ev Hev. cbv zeta. unfold tick, play, pause. simpl.
    rewrite bool_decide_eq_true_2 by set_solver.
    unfold on_interval. simpl. by rewrite Hev.
Qed.

Lemma play_restarts_at_first_event_witness :
  playbackIndex (play (pause (run [LoadData incidents; Play; Tick 1; Tick 1]
                                  create))) = 0 ∧
  playbackIndex (pause (run [LoadData incidents; Play; Tick 1; Tick 1]
                            create)) = 2.
Proof.
  destruct (play_restarts_at_first_event
              (run [LoadData incidents; Play; Tick 1; Tick 1] create))
    as (Hpause & _ & _ & Hplay & _).
  split; [exact Hplay|]. rewrite Hpause. vm_compute. reflexivity.
Defined.

End PlaybackClaims.

Section ShipmentClaims.
Import Js TimelineInterop ShipmentSession.
Implicit Types (w : world).

(** While the shipment playback is playing, [playShipmentTimeline] sets no
    interval and leaves the position alone. *)
Lemma playShipmentTimeline_while_playing w :
  isPlaying (shipmentTimelinePlayback w) = true →
  timers (playShipmentTimeline w).2 = timers w ∧
  shipmentTimelinePlayback (playShipmentTimeline w).2
    = shipmentTimelinePlayback w.
Proof.
  intros Hp. unfold playShipmentTimeline.
  destruct (containerId (shipmentTimelinePlayback w)); [|done].
  destruct (timelineInstances w !! s); [|done].
  case_bool_decide; [done|]. by rewrite Hp.
Qed.

Local Ltac same :=
  simpl; split; [assumption | first [assumption | intros; congruence]].

Lemma one_timer_step w k : one_timer w → one_timer (step w k).
Proof.
  unfold one_timer. intros [Hdom Hidle]. destruct k as [c d| | | |i|c]; simpl.
  - unfold initializeShipmentTimeline.
    case_bool_decide; simpl; [|same].
    destruct (vis_loaded w); simpl; [|same].
    unfold destroy_existing, dataSet.
    destruct (timelineInstances w !! c); case_bool_decide; same.
  - unfold playShipmentTimeline.
    destruct (containerId (shipmentTimelinePlayback w)); [|same].
    destruct (timelineInstances w !! s); [|same].
    case_bool_decide; [same|].
    destruct (isPlaying (shipmentTimelinePlayback w)) eqn:Hp; [same|].
    simpl. rewrite dom_insert_L, Hdom, (Hidle eq_refl).
    split; [set_solver | done].
  - unfold pauseShipmentTimeline.
    destruct (interval (shipmentTimelinePlayback w)) as [i|] eqn:Hi; simpl.
    + rewrite dom_delete_L, Hdom. split; [set_solver | done].
    + rewrite Hi. same.
  - unfold stopShipmentTimeline.
    destruct (interval (shipmentTimelinePlayback w)) as [i|] eqn:Hi; simpl.
    + destruct (containerId (shipmentTimelinePlayback w)); simpl;
        [destruct (timelineInstances w !! s)|]; simpl;
        rewrite dom_delete_L, Hdom; (split; [set_solver | done]).
    + destruct (containerId (shipmentTimelinePlayback w)); simpl;
        [destruct (timelineInstances w !! s)|]; simpl; rewrite Hi; same.
  - unfold tick. destruct (timers w !! i) as [[h its]|]; [|same].
    unfold on_interval.
    destruct (its !! currentIndex (shipmentTimelinePlayback w)); simpl.
    + same.
    + unfold pauseShipmentTimeline.
      destruct (interval (shipmentTimelinePlayback w)) as [j|] eqn:Hj; simpl.
      * rewrite dom_delete_L, Hdom. split; [set_solver | done].
      * rewrite Hj. same.
  - unfold destroyTimeline. destruct (timelineInstances w !! c); same.
Qed.

(** Whatever is called on the shipment timeline, at most one of its
    intervals is set. *)
Lemma shipment_playback_one_timer ks w :
  one_timer w → one_timer (run ks w) ∧ base.size (timers (run ks w)) ≤ 1.
Proof.
  intros Hw.
  assert (Hrun : one_timer (run ks w)).
  { revert w Hw. induction ks as [|k ks IH]; intros w Hw; [done|].
    apply IH. by apply one_timer_step. }
  split; [done|]. destruct Hrun as [Hdom _].
  rewrite <- size_dom, Hdom.
  destruct (interval _); [rewrite size_singleton | rewrite size_empty]; lia.
Qed.

(** *** The registry invariant on every call *)

Lemma registry_owns_setSelection h ids w :
  registry_owns w → registry_owns (setSelection h ids w).
Proof.
  intros Hown h' t Ht Hlive. simpl in *.
  destruct (decide (h = h')) as [->|Hne].
  - rewrite list_lookup_alter_eq in Ht.
    destruct (objects w !! h') as [t0|] eqn:Ht0; simplify_eq/=.
    by apply (Hown h' t0).
  - rewrite list_lookup_alter_ne in Ht by done. by apply Hown.
Qed.

Lemma registry_owns_destroy_existing c w :
  registry_owns w →
  objects (destroy_existing c w) = survivors c w ∧
  timelineInstances (destroy_existing c w) = delete c (timelineInstances w) ∧
  ∀ h t, survivors c w !! h = Some t → tl_live t = true →
         delete c (timelineInstances w) !! tl_container t = Some h.
Proof.
  intros Hown. split_and!.
  - unfold destroy_existing, survivors.
    by destruct (timelineInstances w !! c).
  - unfold destroy_existing.
    destruct (timelineInstances w !! c) eqn:Hc; simpl; [done|].
    by rewrite delete_id.
  - intros h t Ht Hlive.
    destruct (survivors_lookup c w h t Hown Ht Hlive) as [Ht' Hne].
    rewrite lookup_delete_ne by done. by apply Hown.
Qed.

Lemma registry_owns_destroyTimeline c w :
  registry_owns w → registry_owns (destroyTimeline c w).2.
Proof.
  intros Hown.
  destruct (registry_owns_destroy_existing c w Hown) as (Hobj & Hreg & Hkeep).
  unfold destroyTimeline, destroy_existing, survivors in *.
  destruct (timelineInstances w !! c) eqn:Hc; simpl in *; [|done].
  intros h t Ht Hlive. simpl in *. by apply Hkeep.
Qed.

Lemma registry_owns_initializeShipmentTimeline c d w :
  registry_owns w → registry_owns (initializeShipmentTimeline c d w).2.
Proof.
  intros Hown.
  destruct (registry_owns_destroy_existing c w Hown) as (Hobj & Hreg & Hkeep).
  unfold initializeShipmentTimeline.
  case_bool_decide; simpl; [|done].
  destruct (vis_loaded w); simpl; [|done].
  unfold dataSet. case_bool_decide; simpl.
  2: { intros h t. unfold say. cbn [objects timelineInstances].
       rewrite Hobj, Hreg. apply Hkeep. }
  intros h t. rewrite Hobj, Hreg, insert_delete_eq. intros Ht Hlive.
  cbn [timelineInstances say with_playback with_instances].
  apply lookup_app_Some in Ht as [Ht|[Hlen Ht]].
  - destruct (survivors_lookup c w h t Hown Ht Hlive) as [Ht' Hne].
    rewrite lookup_insert_ne by done. by apply Hown.
  - rewrite length_survivors in Hlen, Ht.
    destruct (h - length (objects w)) as [|k] eqn:Hk; [|by destruct k].
    simpl in Ht. injection Ht as <-. simpl.
    rewrite length_survivors.
    replace h with (length (objects w)) by lia. apply lookup_insert_eq.
Qed.

Lemma registry_owns_pause w :
  registry_owns w → registry_owns (pauseShipmentTimeline w).2.
Proof.
  intros Hown. unfold pauseShipmentTimeline.
  by destruct (interval (shipmentTimelinePlayback w)).
Qed.

Lemma registry_owns_step w k :
  registry_owns w → registry_owns (step w k).
Proof.
  intros Hown. destruct k as [c d| | | |i|c]; simpl.
  - by apply registry_owns_initializeShipmentTimeline.
  - unfold playShipmentTimeline.
    destruct (containerId (shipmentTimelinePlayback w)); [|done].
    destruct (timelineInstances w !! s); [|done].
    case_bool_decide; [done|].
    by destruct (isPlaying (shipmentTimelinePlayback w)).
  - by apply registry_owns_pause.
  - unfold stopShipmentTimeline.
    destruct (interval (shipmentTimelinePlayback w)); simpl;
      (destruct (containerId (shipmentTimelinePlayback w)); simpl;
       [destruct (timelineInstances w !! s) as [h|]; simpl|]);
      try done;
      intros h' t Ht; apply (registry_owns_setSelection h [] w Hown h' t Ht).
  - unfold tick. destruct (timers w !! i) as [[h its]|]; [|done].
    unfold on_interval.
    destruct (its !! currentIndex (shipmentTimelinePlayback w)).
    + intros h' t Ht.
      apply (registry_owns_setSelection h [item_id i0] w Hown h' t Ht).
    + by apply registry_owns_pause.
  - by apply registry_owns_destroyTimeline.
Qed.

(** From the empty registry on, every timeline that was not destroyed is
    the registered one of its container, whatever is called. *)
Lemma registry_owns_run ks w :
  registry_owns w → registry_owns (run ks w).
Proof.
  revert w. induction ks as [|k ks IH]; intros w Hw; [done|].
  apply IH. by apply registry_owns_step.
Qed.

End ShipmentClaims.

(** * Further properties *)

(** ** The graph widget *)

Section GraphExtras.
Import Js NetworkGraph Paths GraphView GraphExamples.
Implicit Types (g : graph) (l : link) (ls : list link) (p q : list string)
               (a b u v : string).

(** Cutting a stretch out of a path leaves a path, when the two ends of
    the cut fit together. *)
Lemma is_path_splice ls a b p i j x :
  is_path ls a b p → i ≤ j → p !! j = Some x →
  match i with
  | O => x = a
  | S i' => ∃ u, p !! i' = Some u ∧ adjacent ls u x
  end →
  is_path ls a b (take i p ++ drop j p).
Proof.
  intros (Hh & Hl & Hs) Hij Hj Hfit.
  assert (Hlen : j < length p) by (by eapply lookup_lt_Some).
  assert (Htake : length (take i p) = i) by (rewrite length_take; lia).
  split_and!.
  - destruct i as [|i'].
    + simpl. rewrite head_lookup, lookup_drop, Nat.add_0_r. by subst.
    + destruct p; [simpl in Hlen; lia | done].
  - rewrite last_app. rewrite last_lookup in Hl |- *.
    rewrite lookup_drop, length_drop.
    replace (j + pred (length p - j)) with (pred (length p)) by lia.
    by rewrite Hl.
  - intros k y z Hy Hz.
    destruct (decide (S k < i)) as [Hlt|Hge].
    + rewrite lookup_app_l in Hy by lia. rewrite lookup_app_l in Hz by lia.
      rewrite lookup_take_lt in Hy by lia. rewrite lookup_take_lt in Hz by lia.
      by apply (Hs k).
    + destruct (decide (S k = i)) as [<-|Hne].
      * rewrite lookup_app_l in Hy by lia. rewrite lookup_take_lt in Hy by lia.
        rewrite lookup_app_r in Hz by lia. rewrite Htake, Nat.sub_diag in Hz.
        rewrite lookup_drop, Nat.add_0_r in Hz.
        destruct Hfit as (u' & Hu' & Ha). by simplify_eq.
      * rewrite lookup_app_r in Hy by lia. rewrite lookup_app_r in Hz by lia.
        rewrite Htake, lookup_drop in Hy, Hz.
        apply (Hs (j + (k - i))); [done|].
        by replace (S (j + (k - i))) with (j + (S k - i)) by lia.
Qed.

Lemma length_splice p i j :
  i ≤ j → j < length p → length (take i p ++ drop j p) = length p - (j - i).
Proof. intros. rewrite length_app, length_take, length_drop. lia. Qed.

(** A path that no other path beats in length takes no id twice, and
    links only ids that are next to each other on it. *)
Lemma shortest_no_repeat ls a b p :
  is_path ls a b p →
  (∀ q, is_path ls a b q → hops p ≤ hops q) →
  NoDup p.
Proof.
  intros Hp Hmin. apply NoDup_alt. intros i j x Hi Hj.
  destruct (decide (i = j)) as [|Hne]; [done|]. exfalso.
  assert (Hcut : ∀ i j, i < j → p !! i = Some x → p !! j = Some x → False).
  { clear i j Hi Hj Hne. intros i j Hlt Hi Hj.
    assert (Hj' : j < length p) by (by eapply lookup_lt_Some).
    assert (Hq : is_path ls a b (take i p ++ drop j p)).
    { apply (is_path_splice ls a b p i j x); [done | lia | done |].
      destruct i as [|i'].
      - destruct Hp as (Hh & _). rewrite head_lookup in Hh. congruence.
      - assert (is_Some (p !! i')) as [u Hu] by (apply lookup_lt_is_Some; lia).
        exists u. split; [done|]. destruct Hp as (_ & _ & Hs).
        by apply (Hs i'). }
    specialize (Hmin _ Hq). unfold hops in Hmin.
    rewrite length_splice in Hmin by lia. lia. }
  destruct (decide (i < j)); [by apply (Hcut i j) | apply (Hcut j i); [lia|done..]].
Qed.

Lemma shortest_no_chord ls a b p i j u v :
  is_path ls a b p →
  (∀ q, is_path ls a b q → hops p ≤ hops q) →
  p !! i = Some u → p !! j = Some v → adjacent ls u v → i < j → j = S i.
Proof.
  intros Hp Hmin Hi Hj Ha Hlt.
  destruct (decide (j = S i)) as [|Hne]; [done|]. exfalso.
  assert (Hj' : j < length p) by (by eapply lookup_lt_Some).
  assert (Hq : is_path ls a b (take (S i) p ++ drop j p)).
  { apply (is_path_splice ls a b p (S i) j v); [done | lia | done |]. eauto. }
  specialize (Hmin _ Hq). unfold hops in Hmin.
  rewrite length_splice in Hmin by lia. lia.
Qed.

Lemma is_path_reverse ls a b p : is_path ls a b p → is_path ls b a (reverse p).
Proof.
  intros (Hh & Hl & Hs). split_and!.
  - by rewrite head_reverse.
  - by rewrite last_reverse.
  - intros i u v Hu Hv.
    assert (Hlen : S i < length p).
    { apply lookup_lt_Some in Hv. by rewrite length_reverse in Hv. }
    rewrite reverse_lookup in Hu by lia. rewrite reverse_lookup in Hv by lia.
    apply adjacent_sym. apply (Hs (length p - S (S i))); [done|].
    by replace (S (length p - S (S i))) with (length p - S i) by lia.
Qed.

Lemma well_formed_truthy g u v :
  well_formed g → adjacent (links g) u v → truthy v = true.
Proof. intros Hwf Ha. by eapply well_formed_adjacent. Qed.

Lemma found_is_shortest g a b p :
  well_formed g → findShortestPath g a b = Some (Path p) →
  is_path (links g) a b p ∧ ∀ q, is_path (links g) a b q → hops p ≤ hops q.
Proof.
  intros Hwf Hp. pose proof (search_decides g a b) as Hs. rewrite Hp in Hs.
  apply Hs. intros u v. by apply well_formed_truthy.
Qed.

Lemma host_neighbor_of_supplied current (V : gset string) l :
  HostLinks.neighbor_of current V (HostLinks.supplied l)
  = Return (neighbor_of current V l).
Proof.
  unfold HostLinks.neighbor_of, neighbor_of, HostLinks.supplied. simpl.
  destruct (bool_decide (endpoint_id (source l) = Some current)); simpl;
    [destruct (has V (endpoint_id (target l))); simpl|]; done.
Qed.

Lemma host_visit_supplied current p st l :
  HostLinks.visit current p st (HostLinks.supplied l)
  = Return (visit current p st l).
Proof.
  unfold HostLinks.visit. by rewrite host_neighbor_of_supplied.
Qed.

Lemma host_forEach_supplied current p ls st :
  HostLinks.forEach (HostLinks.visit current p) st (HostLinks.supplied <$> ls)
  = Return (foldl (visit current p) st ls).
Proof.
  revert st. induction ls as [|l ls IH]; intros st; [done|].
  rewrite fmap_cons. cbn [HostLinks.forEach foldl].
  rewrite host_visit_supplied.
  cbn [mbind HostLinks.completion_bind]. apply IH.
Qed.

Lemma host_bfs_supplied fuel ls b (Q : list (list string)) (V : gset string) :
  HostLinks.bfs fuel (HostLinks.supplied <$> ls) b Q V
  = Return <$> bfs fuel ls b Q V.
Proof.
  revert Q V. induction fuel as [|fuel IH]; intros Q V; [done|].
  simpl. destruct Q as [|path rest]; [done|].
  destruct (last path) as [current|]; [|apply IH].
  case_bool_decide; [done|].
  rewrite host_forEach_supplied. apply IH.
Qed.

Lemma host_visit_intact current p st (h : HostLinks.host_link) :
  match HostLinks.visit current p st h with
  | Return _ => HostLinks.intact h = true
  | Throw msg => HostLinks.intact h = false ∧ msg = "TypeError"
  end.
Proof.
  unfold HostLinks.visit, HostLinks.neighbor_of, HostLinks.intact.
  destruct (HostLinks.host_source h) as [s|],
           (HostLinks.host_target h) as [t|]; simpl; try done.
  - destruct (bool_decide (endpoint_id s = Some current)); simpl;
      [destruct (has st.1 (endpoint_id t)); simpl|]; done.
  - destruct (bool_decide (endpoint_id s = Some current)); simpl; done.
Qed.

Lemma host_forEach_broken current p st (hs : list HostLinks.host_link) :
  Exists (λ h, HostLinks.intact h = false) hs →
  HostLinks.forEach (HostLinks.visit current p) st hs = Throw "TypeError".
Proof.
  revert st. induction hs as [|h hs IH]; intros st Hex.
  - by apply Exists_nil in Hex.
  - simpl. pose proof (host_visit_intact current p st h) as Hv.
    destruct (HostLinks.visit current p st h) as [st'|msg]; simpl.
    + apply IH. apply Exists_cons in Hex as [Hh|Hex]; [congruence|done].
    + by destruct Hv as [_ ->].
Qed.

Lemma host_links_supplied (hs : list HostLinks.host_link) :
  Forall (λ h, HostLinks.intact h = true) hs →
  ∃ ls, hs = HostLinks.supplied <$> ls.
Proof.
  induction 1 as [|h hs Hh _ [ls ->]]; [by exists []|].
  unfold HostLinks.intact in Hh. apply andb_true_iff in Hh as [Hs Ht].
  apply bool_decide_eq_true in Hs as [s Hs], Ht as [t Ht].
  exists (mkLink s t (HostLinks.host_color h) (HostLinks.host_width h) :: ls).
  destruct h; simpl in *; by subst.
Qed.

(** X1.  The search ends, whatever the links are.  On a graph whose
    links all have both ends, resolved to node objects or not, it has
    returned a path or [null] after at most [2 * links + 2] turns of
    its loop.  Where a link has lost an end ([undefined] or [null]) the
    search still ends: it returns the source alone when source and
    target are the same id, and otherwise throws the TypeError of
    reading [.id] on the missing end, in the first turn; it throws in
    no other case. *)
Theorem findShortestPath_terminates g a b (hs : list HostLinks.host_link) :
  (∃ r, bfs (2 * length (links g) + 2) (links g) b [[a]] {[a]} = Some r
        ∧ findShortestPath g a b = Some r
        ∧ HostLinks.findShortestPath (HostLinks.supplied <$> links g) a b
          = Some (Return r)) ∧
  (∃ c, HostLinks.findShortestPath hs a b = Some c) ∧
  (HostLinks.findShortestPath hs a a = Some (Return (Path [a]))) ∧
  (∀ msg, HostLinks.findShortestPath hs a b = Some (Throw msg) ↔
          msg = "TypeError" ∧ a ≠ b ∧
          Exists (λ h, HostLinks.intact h = false) hs) ∧
  (Forall (λ h, HostLinks.intact h = true) hs →
   ∃ ls r, hs = HostLinks.supplied <$> ls ∧
           HostLinks.findShortestPath hs a b = Some (Return r) ∧
           findShortestPath (mkGraph (nodes g) ls (nodeRadius g) (log g)) a b
           = Some r).
Proof.
  assert (Hgood : ∀ ls, ∃ r,
            findShortestPath (mkGraph (nodes g) ls (nodeRadius g) (log g)) a b
            = Some r ∧
            HostLinks.findShortestPath (HostLinks.supplied <$> ls) a b
            = Some (Return r)).
  { intros ls.
    destruct (findShortestPath_returns
                (mkGraph (nodes g) ls (nodeRadius g) (log g)) a b) as [r Hr].
    exists r. split; [exact Hr|].
    unfold HostLinks.findShortestPath. rewrite length_fmap, host_bfs_supplied.
    unfold findShortestPath, fuel_for in Hr. cbn [links] in Hr.
    by rewrite Hr. }
  assert (Hself : HostLinks.findShortestPath hs a a = Some (Return (Path [a]))).
  { unfold HostLinks.findShortestPath.
    replace (2 * length hs + 2) with (S (2 * length hs + 1)) by lia.
    simpl. by rewrite bool_decide_eq_true_2. }
  assert (Hbroken : a ≠ b → Exists (λ h, HostLinks.intact h = false) hs →
            HostLinks.findShortestPath hs a b = Some (Throw "TypeError")).
  { intros Hne Hex. unfold HostLinks.findShortestPath.
    replace (2 * length hs + 2) with (S (2 * length hs + 1)) by lia.
    simpl. rewrite bool_decide_eq_false_2 by done.
    by rewrite host_forEach_broken. }
  assert (Hcases : Forall (λ h, HostLinks.intact h = true) hs ∨
                   Exists (λ h, HostLinks.intact h = false) hs).
  { destruct (decide (Forall (λ h, HostLinks.intact h = true) hs)) as [|Hn];
      [by left|right].
    apply not_Forall_Exists in Hn; [|apply _].
    eapply Exists_impl; [exact Hn|]. simpl. intros h Hh.
    by destruct (HostLinks.intact h). }
  split_and!.
  - destruct (Hgood (links g)) as (r & Hr & Hh). exists r.
    assert (Hg : findShortestPath g a b = Some r) by (by destruct g).
    split_and!; [exact Hg | exact Hg | exact Hh].
  - destruct Hcases as [Hall|Hex].
    + apply host_links_supplied in Hall as [ls ->].
      destruct (Hgood ls) as (r & _ & Hr). by eexists.
    + destruct (decide (a = b)) as [->|Hne]; [by eexists|].
      eexists. by apply Hbroken.
  - exact Hself.
  - intros msg. split.
    + intros Hthrow.
      destruct (decide (a = b)) as [->|Hne]; [congruence|].
      destruct Hcases as [Hall|Hex].
      * apply host_links_supplied in Hall as [ls ->].
        destruct (Hgood ls) as (r & _ & Hr). congruence.
      * rewrite (Hbroken Hne Hex) in Hthrow. by simplify_eq.
    + intros (-> & Hne & Hex). by apply Hbroken.
  - intros Hall. apply host_links_supplied in Hall as [ls ->].
    destruct (Hgood ls) as (r & Hr & Hh). by exists ls, r.
Qed.

Lemma found_is_path g a b p :
  findShortestPath g a b = Some (Path p) → is_path (links g) a b p.
Proof.
  intros Hp. apply walk_is_path.
  apply (bfs_sound (links g) a b (fuel_for (links g)) [[a]] {[a]} p);
    [|exact Hp].
  repeat constructor. exists a. constructor.
Qed.

(** X2.  Whatever the links look like, a path that the search returns starts
    at the source, ends at the target and goes along links only. *)
Theorem findShortestPath_returns_a_path g a b p :
  findShortestPath g a b = Some (Path p) → is_path (links g) a b p.
Proof. apply found_is_path. Qed.

Lemma findShortestPath_returns_a_path_witness :
  is_path (links square) "A" "C" ["A"; "B"; "C"].
Proof.
  apply (findShortestPath_returns_a_path square "A" "C").
  vm_compute. reflexivity.
Defined.

(** X3.  In a well-formed graph the path returned visits no node twice, so it
    has at most as many ids as the graph has nodes. *)
Theorem findShortestPath_simple g a b p :
  well_formed g → findShortestPath g a b = Some (Path p) →
  NoDup p ∧ (a ≠ b → length p ≤ length (nodes g)).
Proof.
  intros Hwf Hp. destruct (found_is_shortest g a b p Hwf Hp) as [Hpath Hmin].
  assert (Hnd : NoDup p) by (by eapply shortest_no_repeat).
  split; [done|]. intros Hne.
  assert (Hsub : p ⊆ id <$> nodes g).
  { intros u Hu. apply list_elem_of_lookup in Hu as [i Hi].
    destruct Hpath as (Hh & Hl & Hs).
    destruct i as [|i].
    - assert (is_Some (p !! 1)) as [v Hv].
      { apply lookup_lt_is_Some. destruct p as [|x [|y p]]; simpl in *; [done| |lia].
        congruence. }
      by destruct (well_formed_adjacent g u v Hwf (Hs 0 u v Hi Hv)) as (_ & ? & _).
    - assert (is_Some (p !! i)) as [w Hw].
      { apply lookup_lt_is_Some. apply lookup_lt_Some in Hi. lia. }
      by destruct (well_formed_adjacent g w u Hwf (Hs i w u Hw Hi)) as (_ & _ & ?). }
  rewrite <- (length_fmap id (nodes g)).
  by apply submseteq_length, NoDup_submseteq.
Qed.

Lemma findShortestPath_simple_witness :
  NoDup ["A"; "B"; "C"] ∧ ("A" ≠ "C" → length ["A"; "B"; "C"] ≤ length (nodes square)).
Proof.
  apply (findShortestPath_simple square "A" "C").
  - compute_done.
  - vm_compute. reflexivity.
Defined.

(** X4.  Links are walked in both directions: when the search finds a path
    from [a] to [b] it finds one from [b] to [a] with as many hops. *)
Theorem findShortestPath_symmetric_hops g a b p :
  well_formed g → findShortestPath g a b = Some (Path p) →
  ∃ q, findShortestPath g b a = Some (Path q) ∧ hops q = hops p.
Proof.
  intros Hwf Hp. destruct (found_is_shortest g a b p Hwf Hp) as [Hpath Hmin].
  pose proof (search_decides g b a) as Hs.
  destruct (findShortestPath g b a) as [[q|]|] eqn:Hq.
  - destruct Hs as [Hqpath Hqmin]; [intros u v; by apply well_formed_truthy|].
    exists q. split; [done|].
    specialize (Hqmin _ (is_path_reverse _ _ _ _ Hpath)).
    specialize (Hmin _ (is_path_reverse _ _ _ _ Hqpath)).
    unfold hops in *. rewrite length_reverse in Hqmin, Hmin. lia.
  - destruct Hs; [intros u v; by apply well_formed_truthy|].
    exists (reverse p). by apply is_path_reverse.
  - destruct Hs. intros u v. by apply well_formed_truthy.
Qed.

Lemma findShortestPath_symmetric_hops_witness :
  ∃ q, findShortestPath square "C" "A" = Some (Path q)
       ∧ hops q = hops ["A"; "B"; "C"].
Proof.
  apply (findShortestPath_symmetric_hops square "A" "C").
  - compute_done.
  - vm_compute. reflexivity.
Defined.

(** *** Highlighting *)

Lemma collect_fold nodeId ls hl v :
  v ∈ foldl (collect nodeId) hl ls ↔ v ∈ hl ∨ adjacent ls nodeId v.
Proof.
  revert hl. induction ls as [|l ls IH]; intros hl; simpl.
  - split; [auto|]. intros [?|(l & Hl & _)]; [done | set_solver].
  - rewrite IH. unfold collect, add_id, adjacent, joins.
    split.
    + intros [Hv|(l' & Hl' & Hj)]; [|right; exists l'; set_solver].
      repeat case_bool_decide;
        destruct (endpoint_id (source l)) as [s|] eqn:Hs,
                 (endpoint_id (target l)) as [t|] eqn:Ht;
        simplify_eq; set_unfold; naive_solver.
    + intros [Hv|(l' & Hl' & Hj)].
      * left. repeat case_bool_decide;
          destruct (endpoint_id (source l)), (endpoint_id (target l));
          set_solver.
      * apply elem_of_cons in Hl' as [->|Hl']; [|right; by exists l'].
        left. destruct Hj as [[Hs Ht]|[Hs Ht]]; rewrite Hs, Ht;
          repeat case_bool_decide; simplify_eq; set_solver.
Qed.

(** X5.  [highlightConnectedNodes] marks exactly the nodes that a link joins
    to the chosen node, in either direction; two nodes mark each other or
    neither does; and the first step of a path found from the node is
    among the marked. *)
Theorem highlightConnectedNodes_marks_neighbours g (n m : node) :
  (∀ v, v ∈ highlightedNodes g n ↔ adjacent (links g) (id n) v) ∧
  (id m ∈ highlightedNodes g n ↔ id n ∈ highlightedNodes g m) ∧
  (∀ b p v, findShortestPath g (id n) b = Some (Path p) →
            p !! 1 = Some v → v ∈ highlightedNodes g n).
Proof.
  assert (Hmark : ∀ k v, v ∈ highlightedNodes g k ↔ adjacent (links g) (id k) v).
  { intros k v. unfold highlightedNodes. rewrite collect_fold. set_solver. }
  split_and!.
  - apply Hmark.
  - rewrite !Hmark. split; apply adjacent_sym.
  - intros b p v Hp Hv. apply Hmark.
    destruct (found_is_path g (id n) b p Hp) as (Hh & _ & Hs).
    apply (Hs 0); [|done]. by rewrite <- head_lookup.
Qed.

Lemma has_list_to_set p (o : option string) :
  has (list_to_set p) o = true ↔ ∃ u, o = Some u ∧ u ∈ p.
Proof.
  unfold has. destruct o as [u|].
  - rewrite bool_decide_eq_true, elem_of_list_to_set. naive_solver.
  - naive_solver.
Qed.

(** X6.  [highlightPath] on the path the search returned paints the nodes of
    the path and, of the links, exactly those that join two ids next to
    each other on the path, or a node of the path to itself. *)
Theorem highlightPath_paints_the_path g a b p l :
  well_formed g → findShortestPath g a b = Some (Path p) → l ∈ links g →
  (inPath p l = true ↔
     (∃ i u v, p !! i = Some u ∧ p !! S i = Some v ∧ joins l u v)
     ∨ (∃ u, u ∈ p ∧ joins l u u)) ∧
  (∀ d, opacity (path_node_style p d) == 1 ↔ id d ∈ p).
Proof.
  intros Hwf Hp Hl. destruct (found_is_shortest g a b p Hwf Hp) as [Hpath Hmin].
  split.
  - unfold inPath. rewrite andb_true_iff, !has_list_to_set. split.
    + intros [(u & Hs & Hu) (v & Ht & Hv)].
      destruct (decide (u = v)) as [->|Hne].
      { right. exists v. split; [done|]. by left. }
      left. apply list_elem_of_lookup in Hu as [i Hi].
      apply list_elem_of_lookup in Hv as [j Hj].
      assert (Hij : i ≠ j) by congruence.
      assert (Huv : adjacent (links g) u v) by (exists l; split; [done | by left]).
      destruct (decide (i < j)).
      * assert (j = S i) as -> by (by eapply shortest_no_chord).
        exists i, u, v. split_and!; [done | done | by left].
      * assert (i = S j) as ->.
        { apply (shortest_no_chord (links g) a b p j i v u);
            [done | done | done | done | by apply adjacent_sym | lia]. }
        exists j, v, u. split_and!; [done | done | by right].
    + intros [(i & u & v & Hi & Hj & Hjoin)|(u & Hu & Hjoin)].
      * apply list_elem_of_lookup_2 in Hi, Hj.
        destruct Hjoin as [[Hs Ht]|[Hs Ht]]; rewrite Hs, Ht; split; eauto.
      * destruct Hjoin as [[Hs Ht]|[Hs Ht]]; rewrite Hs, Ht; split; eauto.
  - intros d. unfold path_node_style.
    case_bool_decide as Hd; simpl; rewrite elem_of_list_to_set in Hd.
    + done.
    + split; [|done]. intros Hq. by compute in Hq.
Qed.

Lemma highlightPath_paints_the_path_witness :
  inPath ["A"; "B"; "C"] (e "C" "B") = true ↔
    (∃ i u v, ["A"; "B"; "C"] !! i = Some u ∧ ["A"; "B"; "C"] !! S i = Some v
              ∧ joins (e "C" "B") u v)
    ∨ (∃ u, u ∈ ["A"; "B"; "C"] ∧ joins (e "C" "B") u u).
Proof.
  apply (highlightPath_paints_the_path square "A" "C" ["A"; "B"; "C"] (e "C" "B")).
  - compute_done.
  - vm_compute. reflexivity.
  - compute_done.
Defined.

(** X7.  A [null] or empty path leaves the view alone; and [clearHighlight]
    after [highlightPath] brings every opacity back to 1 but keeps the
    stroke colour and width that [highlightPath] set. *)
Theorem clearHighlight_keeps_path_stroke g p x (v : view) :
  highlightPath g None v = v ∧
  highlightPath g (Some []) v = v ∧
  let v' := clearHighlight (highlightPath g (Some (x :: p)) v) in
  Forall (λ st, opacity st = 1%Q) (circles v' ++ lines v') ∧
  stroke <$> circles v' = (λ d, stroke (path_node_style (x :: p) d)) <$> nodes g ∧
  stroke <$> lines v' = (λ l, stroke (path_link_style (x :: p) l)) <$> links g ∧
  stroke_width <$> circles v'
    = (λ d, stroke_width (path_node_style (x :: p) d)) <$> nodes g ∧
  stroke_width <$> lines v'
    = (λ l, stroke_width (path_link_style (x :: p) l)) <$> links g ∧
  (∀ i d st, nodes g !! i = Some d → circles v' !! i = Some st → id d ∈ x :: p →
             stroke st = "#f39c12" ∧ stroke_width st = 4%Z) ∧
  (∀ i l st, links g !! i = Some l → lines v' !! i = Some st →
             inPath (x :: p) l = true →
             stroke st = "#f39c12" ∧ stroke_width st = 4%Z).
Proof.
  split; [done|]. split; [done|]. cbv zeta. simpl. split_and!.
  - apply Forall_app. split; apply Forall_fmap, Forall_fmap, Forall_forall; done.
  - rewrite <- !list_fmap_compose. done.
  - rewrite <- !list_fmap_compose. done.
  - rewrite <- !list_fmap_compose. done.
  - rewrite <- !list_fmap_compose. done.
  - intros i d st Hd Hst Hin. rewrite !list_lookup_fmap, Hd in Hst.
    simpl in Hst. injection Hst as <-. unfold path_node_style.
    rewrite bool_decide_eq_true_2; [done|]. by apply elem_of_list_to_set.
  - intros i l st Hl Hst Hin. rewrite !list_lookup_fmap, Hl in Hst.
    simpl in Hst. injection Hst as <-. unfold path_link_style.
    by rewrite Hin.
Qed.

End GraphExtras.

(** ** The registries *)

Section RegistryExtras.
Import Js RegistryExamples.
Implicit Types (g : GraphInterop.world) (c : string).

(** X8.  A graph registered by [initializeNetworkGraph] under an id that was
    free is found under that id, and [destroyGraph] with that id puts the
    registry back as it was; [destroyGraph] and [findShortestPath] with an
    id that is not registered log an error and leave the registry alone,
    the latter returning [null]. *)
Theorem graph_registry_round_trip now rnd c radius g graphId :
  c ∈ GraphInterop.document g →
  graphId = "graph-" +:+ pretty now +:+ "-" +:+ rnd →
  GraphInterop.graphInstances g !! graphId = None →
  let r := GraphInterop.initializeNetworkGraph now rnd c radius g in
  r.1 = Return graphId ∧
  is_Some (GraphInterop.graphInstances r.2 !! graphId) ∧
  GraphInterop.graphInstances (GraphInterop.destroyGraph graphId r.2)
    = GraphInterop.graphInstances g ∧
  GraphInterop.graphInstances (GraphInterop.destroyGraph graphId g)
    = GraphInterop.graphInstances g ∧
  GraphInterop.out (GraphInterop.destroyGraph graphId g)
    = GraphInterop.out g ++ [(Error, "Graph " +:+ graphId +:+ " not found")] ∧
  ∀ a b, (GraphInterop.findShortestPath graphId a b g).1
         = Some NetworkGraph.Null.
Proof.
  intros Hc -> Hfree. cbv zeta.
  unfold GraphInterop.initializeNetworkGraph, GraphInterop.construct.
  rewrite bool_decide_eq_true_2 by done. simpl. split_and!.
  - done.
  - rewrite lookup_insert_eq. by eexists.
  - unfold GraphInterop.destroyGraph. simpl. rewrite lookup_insert_eq. simpl.
    rewrite delete_insert_eq. by apply delete_id.
  - unfold GraphInterop.destroyGraph. by rewrite Hfree.
  - unfold GraphInterop.destroyGraph. by rewrite Hfree.
  - intros a b. unfold GraphInterop.findShortestPath. by rewrite Hfree.
Qed.

Lemma graph_registry_round_trip_witness :
  GraphInterop.graphInstances
    (GraphInterop.destroyGraph "graph-1000-k3x" first_graph.2)
  = GraphInterop.graphInstances graphs.
Proof.
  destruct (graph_registry_round_trip 1000 "k3x" "graph-container" None graphs
              "graph-1000-k3x") as (_ & _ & H & _).
  - compute_done.
  - vm_compute. reflexivity.
  - vm_compute. reflexivity.
  - exact H.
Defined.

End RegistryExtras.

(** ** The timeline module under any sequence of calls *)

Section TimelineExtras.
Import Js TimelineInterop TimelineCalls RegistryExamples.
Implicit Types (w : world) (c : string) (h : nat).

Lemma initializeEnhancedTimeline_rest c its r u w :
  timers (initializeEnhancedTimeline c its r u w).2 = timers w ∧
  shipmentTimelinePlayback (initializeEnhancedTimeline c its r u w).2
    = shipmentTimelinePlayback w ∧
  storage_readable (initializeEnhancedTimeline c its r u w).2
    = storage_readable w ∧
  enhancements_loaded (initializeEnhancedTimeline c its r u w).2
    = enhancements_loaded w.
Proof.
  destruct (initializeEnhancedTimeline c its r u w) as [[] w'] eqn:Hinit; simpl.
  - by apply initializeEnhancedTimeline_true_ids in Hinit
      as (_ & _ & ? & ? & ? & ?).
  - by apply initializeEnhancedTimeline_false in Hinit
      as (_ & ? & ? & ? & ? & _).
Qed.

Lemma registry_owns_initializeEnhancedTimeline c its r u w :
  sheltered w → registry_owns w →
  registry_owns (initializeEnhancedTimeline c its r u w).2.
Proof.
  intros Hsh Hown.
  destruct (initializeEnhancedTimeline c its r u w) as [[] w'] eqn:Hinit; simpl.
  - by destruct (initializeEnhancedTimeline_one_live _ _ _ _ _ _ Hown Hinit).
  - apply initializeEnhancedTimeline_false in Hinit
      as (_ & _ & _ & _ & _ & [(Hobj & Hreg & _)|[(_ & Hobj & Hreg & _)|Hleak]]).
    + intros h t. rewrite Hobj, Hreg. apply Hown.
    + destruct (registry_owns_destroy_existing c w Hown) as (_ & _ & Hkeep).
      intros h t. rewrite Hobj, Hreg. apply Hkeep.
    + destruct Hleak as (_ & _ & _ & Hu & Hst).
      apply andb_true_iff in Hu as [_ Hu].
      destruct Hsh; congruence.
Qed.

Lemma registry_owns_setItems h its w :
  registry_owns w → registry_owns (setItems h its w).
Proof.
  intros Hown h' t Ht Hlive. simpl in *.
  destruct (decide (h = h')) as [->|Hne].
  - rewrite list_lookup_alter_eq in Ht.
    destruct (objects w !! h') as [t0|] eqn:Ht0; simplify_eq/=.
    by apply (Hown h' t0).
  - rewrite list_lookup_alter_ne in Ht by done. by apply Hown.
Qed.

Lemma kill_all_lookup (hs : list (string * nat)) (os : list timeline) h :
  foldr (λ kv os, alter kill kv.2 os) os hs !! h
  = (if bool_decide (h ∈ hs.*2) then kill else id) <$> os !! h.
Proof.
  induction hs as [|[c h0] hs IH]; simpl.
  - by rewrite option_fmap_id.
  - destruct (decide (h0 = h)) as [->|Hne].
    + rewrite list_lookup_alter_eq, IH.
      destruct (os !! h) as [t|]; simpl; [|done].
      repeat case_bool_decide; simpl in *; try done; set_solver.
    + rewrite list_lookup_alter_ne by done. rewrite IH.
      destruct (os !! h) as [t|]; simpl; [|done].
      repeat case_bool_decide; simpl in *; try done; set_solver.
Qed.

Lemma destroyAllTimelines_none_live w h c :
  registry_owns w → ¬ live (destroyAllTimelines w).2 h c.
Proof.
  intros Hown (t & Ht & Hc & Hlive). simpl in Ht.
  rewrite kill_all_lookup in Ht.
  destruct (objects w !! h) as [t0|] eqn:Ht0; simplify_eq/=.
  case_bool_decide as Hin; simpl in *; [done|].
  apply Hin. specialize (Hown h t0 Ht0 Hlive).
  apply elem_of_map_to_list in Hown.
  apply list_elem_of_fmap. by exists (tl_container t0, h).
Qed.

Lemma registry_owns_destroyTbml w :
  registry_owns w → registry_owns (destroyTbmlVisualizations w).2.
Proof.
  intros Hown.
  assert (Hstop : registry_owns (stopShipmentTimeline w).2)
    by apply (registry_owns_step w ShipmentSession.Stop Hown).
  unfold destroyTbmlVisualizations.
  destruct (containerId (shipmentTimelinePlayback (stopShipmentTimeline w).2))
    as [c|]; [|exact Hstop].
  destruct (registry_owns_destroy_existing c _ Hstop) as (Hobj & Hreg & Hkeep).
  intros h t. unfold say, with_playback. cbn [objects timelineInstances snd].
  rewrite Hobj, Hreg. apply Hkeep.
Qed.

Lemma registry_owns_call w k :
  sheltered w → registry_owns w → registry_owns (step w k).
Proof.
  intros Hsh Hown. destruct k; simpl.
  - exact Hown.
  - by apply registry_owns_initializeEnhancedTimeline.
  - by apply registry_owns_initializeShipmentTimeline.
  - unfold updateTimelineItems, dataSet.
    destruct (timelineInstances w !! c); [|done].
    case_bool_decide; [|done].
    intros h t Ht. apply (registry_owns_setItems n its w Hown h t Ht).
  - apply (registry_owns_step w ShipmentSession.Play Hown).
  - apply (registry_owns_step w ShipmentSession.Pause Hown).
  - apply (registry_owns_step w ShipmentSession.Stop Hown).
  - apply (registry_owns_step w (ShipmentSession.Tick i) Hown).
  - by apply registry_owns_destroyTimeline.
  - intros h t Ht Hlive.
    destruct (destroyAllTimelines_none_live w h (tl_container t) Hown).
    by exists t.
  - by apply registry_owns_destroyTbml.
Qed.

Lemma stop_clears_interval w :
  interval (shipmentTimelinePlayback (stopShipmentTimeline w).2) = None ∧
  currentIndex (shipmentTimelinePlayback (stopShipmentTimeline w).2) = 0 ∧
  isPlaying (shipmentTimelinePlayback (stopShipmentTimeline w).2) = false ∧
  containerId (shipmentTimelinePlayback (stopShipmentTimeline w).2)
    = containerId (shipmentTimelinePlayback w).
Proof.
  unfold stopShipmentTimeline.
  destruct (interval (shipmentTimelinePlayback w)) eqn:Hi; simpl;
    (destruct (containerId (shipmentTimelinePlayback w)) as [c|]; simpl;
     [destruct (timelineInstances w !! c)|]); simpl; rewrite ?Hi; done.
Qed.

Lemma timers_destroy_existing c w :
  timers (destroy_existing c w) = timers w.
Proof. unfold destroy_existing. by destruct (timelineInstances w !! c). Qed.

Lemma one_timer_call w k :
  ShipmentSession.one_timer w → ShipmentSession.one_timer (step w k).
Proof.
  intros Hone. destruct k; cbn [step].
  - exact Hone.
  - unfold ShipmentSession.one_timer.
    destruct (initializeEnhancedTimeline_rest c its dotNetRef useEnhancements w)
      as (-> & -> & _). exact Hone.
  - apply (one_timer_step w (ShipmentSession.Initialize c timelineData) Hone).
  - unfold updateTimelineItems, dataSet.
    destruct (timelineInstances w !! c); [|done]. by case_bool_decide.
  - apply (one_timer_step w ShipmentSession.Play Hone).
  - apply (one_timer_step w ShipmentSession.Pause Hone).
  - apply (one_timer_step w ShipmentSession.Stop Hone).
  - apply (one_timer_step w (ShipmentSession.Tick i) Hone).
  - apply (one_timer_step w (ShipmentSession.Destroy c) Hone).
  - exact Hone.
  - pose proof (one_timer_step w ShipmentSession.Stop Hone) as Hstop.
    change (ShipmentSession.step w ShipmentSession.Stop)
      with (stopShipmentTimeline w).2 in Hstop.
    destruct Hstop as [Hdom _]. destruct (stop_clears_interval w) as (Hi & _).
    rewrite Hi in Hdom. clear Hi.
    unfold destroyTbmlVisualizations. cbv zeta.
    generalize dependent (stopShipmentTimeline w).2. intros w1 Hdom.
    unfold ShipmentSession.one_timer. simpl. split; [|done].
    destruct (containerId (shipmentTimelinePlayback w1));
      by rewrite ?timers_destroy_existing.
Qed.

(** The flags of the page stay as they are. *)
Lemma sheltered_call w k : sheltered w → sheltered (step w k).
Proof.
  unfold sheltered.
  assert (storage_readable (step w k) = storage_readable w ∧
          enhancements_loaded (step w k) = enhancements_loaded w) as [-> ->];
    [|done].
  destruct k; cbn [step].
  - done.
  - by destruct (initializeEnhancedTimeline_rest c its dotNetRef
                   useEnhancements w) as (_ & _ & ? & ?).
  - unfold initializeShipmentTimeline, destroy_existing, dataSet, new_timeline.
    case_bool_decide; simpl; [|done].
    destruct (vis_loaded w); simpl; [|done].
    destruct (timelineInstances w !! c); case_bool_decide; done.
  - unfold updateTimelineItems, dataSet.
    destruct (timelineInstances w !! c); [|done]. by case_bool_decide.
  - unfold playShipmentTimeline. repeat case_match; done.
  - unfold pauseShipmentTimeline. repeat case_match; done.
  - unfold stopShipmentTimeline. repeat case_match; done.
  - unfold tick, on_interval, pauseShipmentTimeline. repeat case_match; done.
  - unfold destroyTimeline. repeat case_match; done.
  - done.
  - unfold destroyTbmlVisualizations, destroy_existing, stopShipmentTimeline.
    repeat case_match; done.
Qed.

(** *** The registry holds timelines that are not destroyed *)

Lemma registry_sound_alter f h0 w w' :
  (∀ t, tl_container (f t) = tl_container t ∧ tl_live (f t) = tl_live t) →
  objects w' = alter f h0 (objects w) →
  timelineInstances w' = timelineInstances w →
  registry_sound w → registry_sound w'.
Proof.
  intros Hf Hobj Hreg Hs c h Hc. rewrite Hreg in Hc.
  destruct (Hs c h Hc) as (t & Ht & Hct & Hlive).
  unfold live. rewrite Hobj.
  destruct (decide (h0 = h)) as [->|Hne].
  - exists (f t). rewrite list_lookup_alter_eq, Ht.
    destruct (Hf t) as [-> ->]. done.
  - exists t. by rewrite list_lookup_alter_ne.
Qed.

Lemma registry_sound_same w w' :
  objects w' = objects w → timelineInstances w' = timelineInstances w →
  registry_sound w → registry_sound w'.
Proof.
  intros Hobj Hreg Hs c h Hc. rewrite Hreg in Hc.
  destruct (Hs c h Hc) as (t & Ht & ?). exists t. by rewrite Hobj.
Qed.

Lemma sound_survivors c w c' h' :
  registry_sound w → c' ≠ c → timelineInstances w !! c' = Some h' →
  ∃ t, survivors c w !! h' = Some t ∧ tl_container t = c' ∧ tl_live t = true.
Proof.
  intros Hs Hne Hc'. destruct (Hs c' h' Hc') as (t & Ht & Hct & Hlive).
  exists t. split; [|done]. unfold survivors.
  destruct (timelineInstances w !! c) as [h0|] eqn:Hc; [|done].
  destruct (decide (h0 = h')) as [->|Hh]; [|by rewrite list_lookup_alter_ne].
  destruct (Hs c h' Hc) as (t0 & Ht0 & Hct0 & _). congruence.
Qed.

Lemma registry_sound_survivors c w w' extra :
  objects w' = survivors c w ++ extra →
  timelineInstances w' = delete c (timelineInstances w) →
  registry_sound w → registry_sound w'.
Proof.
  intros Hobj Hreg Hs c' h' Hc'. rewrite Hreg in Hc'.
  apply lookup_delete_Some in Hc' as [Hne Hc'].
  destruct (sound_survivors c w c' h' Hs (not_eq_sym Hne) Hc') as (t & Ht & ?).
  exists t. split; [|done]. rewrite Hobj. by apply lookup_app_l_Some.
Qed.

Lemma registry_sound_new c w w' t :
  objects w' = survivors c w ++ [t] →
  tl_container t = c → tl_live t = true →
  timelineInstances w' = <[c := length (objects w)]> (timelineInstances w) →
  registry_sound w → registry_sound w'.
Proof.
  intros Hobj Hct Hlive Hreg Hs c' h' Hc'. rewrite Hreg in Hc'.
  apply lookup_insert_Some in Hc' as [[<- <-]|[Hne Hc']].
  - exists t. split; [|done].
    rewrite Hobj, lookup_app_r; rewrite length_survivors; [|lia].
    by rewrite Nat.sub_diag.
  - destruct (sound_survivors c w c' h' Hs (not_eq_sym Hne) Hc') as (t' & Ht' & ?).
    exists t'. split; [|done]. rewrite Hobj. by apply lookup_app_l_Some.
Qed.

Lemma registry_sound_destroy_existing c w :
  registry_sound w → registry_sound (destroy_existing c w).
Proof.
  apply (registry_sound_survivors c w _ []).
  - rewrite app_nil_r. unfold destroy_existing, survivors.
    by destruct (timelineInstances w !! c).
  - unfold destroy_existing.
    destruct (timelineInstances w !! c) eqn:Hc; simpl; [done|].
    by rewrite delete_id.
Qed.

Lemma registry_sound_stop w :
  registry_sound w → registry_sound (stopShipmentTimeline w).2.
Proof.
  intros Hs. unfold stopShipmentTimeline.
  destruct (interval (shipmentTimelinePlayback w)); simpl;
    (destruct (containerId (shipmentTimelinePlayback w)) as [c|]; simpl;
     [destruct (timelineInstances w !! c) as [h|]; simpl|]);
    try (by apply (registry_sound_same w));
    by apply (registry_sound_alter
                (λ t, mkTimeline (tl_container t) (itemsData t) (tl_live t) [])
                h w).
Qed.

Lemma registry_sound_pause w :
  registry_sound w → registry_sound (pauseShipmentTimeline w).2.
Proof.
  unfold pauseShipmentTimeline.
  destruct (interval (shipmentTimelinePlayback w));
    by apply registry_sound_same.
Qed.

Lemma registry_sound_call w k : registry_sound w → registry_sound (step w k).
Proof.
  intros Hs. destruct k; cbn [step].
  - by apply (registry_sound_same w).
  - destruct (initializeEnhancedTimeline c its dotNetRef useEnhancements w)
      as [[] w'] eqn:Hinit; simpl.
    + apply initializeEnhancedTimeline_true in Hinit as (_ & Hobj & Hreg).
      by apply (registry_sound_new c w w' (mkTimeline c its true [])).
    + apply initializeEnhancedTimeline_false in Hinit
        as (_ & _ & _ & _ & _ &
            [(Hobj & Hreg & _)|[(_ & Hobj & Hreg & _)|(_ & Hobj & Hreg & _)]]).
      * by apply (registry_sound_same w).
      * apply (registry_sound_survivors c w w' []); [|done|done].
        by rewrite app_nil_r.
      * by apply (registry_sound_survivors c w w' [mkTimeline c its true []]).
  - unfold initializeShipmentTimeline.
    case_bool_decide; simpl; [|by apply (registry_sound_same w)].
    destruct (vis_loaded w); simpl; [|by apply (registry_sound_same w)].
    pose proof (registry_sound_destroy_existing c w Hs) as Hd.
    unfold dataSet. case_bool_decide; simpl.
    + apply (registry_sound_new c w _ (mkTimeline c timelineData true []));
        try done.
      * simpl. unfold destroy_existing, survivors.
        by destruct (timelineInstances w !! c).
      * simpl. unfold destroy_existing.
        destruct (timelineInstances w !! c) eqn:Hc; simpl.
        -- by rewrite insert_delete_eq, length_alter.
        -- done.
    + by apply (registry_sound_same (destroy_existing c w)).
  - unfold updateTimelineItems, dataSet.
    destruct (timelineInstances w !! c) as [h|];
      [|by apply (registry_sound_same w)].
    case_bool_decide; [|by apply (registry_sound_same w)].
    by apply (registry_sound_alter
                (λ t, mkTimeline (tl_container t) its (tl_live t) (selection t))
                h w).
  - unfold playShipmentTimeline. repeat case_match; simpl;
      by apply (registry_sound_same w).
  - by apply registry_sound_pause.
  - by apply registry_sound_stop.
  - unfold tick. destruct (timers w !! i) as [[h its]|]; [|done].
    unfold on_interval.
    destruct (its !! currentIndex (shipmentTimelinePlayback w)) as [x|].
    + by apply (registry_sound_alter
                  (λ t, mkTimeline (tl_container t) (itemsData t) (tl_live t)
                          [item_id x]) h w).
    + by apply registry_sound_pause.
  - unfold destroyTimeline.
    pose proof (registry_sound_destroy_existing c w Hs) as Hd.
    unfold destroy_existing in Hd.
    destruct (timelineInstances w !! c); [|done].
    by apply (registry_sound_same _ _ eq_refl eq_refl Hd).
  - intros c h Hc. simpl in Hc. by rewrite lookup_empty in Hc.
  - unfold destroyTbmlVisualizations.
    pose proof (registry_sound_stop w Hs) as Hstop.
    destruct (containerId (shipmentTimelinePlayback (stopShipmentTimeline w).2))
      as [c|]; simpl.
    + by apply (registry_sound_same _ _ eq_refl eq_refl
                  (registry_sound_destroy_existing c _ Hstop)).
    + by apply (registry_sound_same _ _ eq_refl eq_refl Hstop).
Qed.

(** X9.  Whatever the host calls on the timeline module, in whatever
    order and on whatever page: every entry of the registry is a
    timeline on that container that is not destroyed, and at most one
    playback interval is set.  Where the enhancements cannot throw
    (they are not loaded, or [localStorage] can be read), moreover no
    container ever has two timelines that are not destroyed, and a
    timeline that is not destroyed is the one registered for its
    container. *)
Theorem timeline_module_invariants doc vis enhancements storage ks :
  let w := run ks (loaded doc vis enhancements storage) in
  (∀ c h, timelineInstances w !! c = Some h → live w h c) ∧
  base.size (timers w) ≤ 1 ∧
  (storage = true ∨ enhancements = false →
   (∀ c h1 h2, live w h1 c → live w h2 c → h1 = h2) ∧
   (∀ c h, live w h c → timelineInstances w !! c = Some h)).
Proof.
  cbv zeta.
  assert (Hinv : ∀ ks w, registry_sound w → ShipmentSession.one_timer w →
            registry_sound (run ks w) ∧ ShipmentSession.one_timer (run ks w)).
  { clear ks. induction ks as [|k ks IH]; intros w Hs Hone; [done|].
    apply IH; [by apply registry_sound_call | by apply one_timer_call]. }
  assert (Hkept : ∀ ks w, sheltered w → registry_owns w →
            registry_owns (run ks w)).
  { clear ks Hinv. induction ks as [|k ks IH]; intros w Hsh Hown; [done|].
    apply IH; [by apply sheltered_call | by apply registry_owns_call]. }
  destruct (Hinv ks (loaded doc vis enhancements storage)) as [Hs [Hdom _]].
  { intros c h Hc. simpl in Hc. by rewrite lookup_empty in Hc. }
  { split; [|done]. simpl. by rewrite dom_empty_L. }
  split_and!.
  - exact Hs.
  - rewrite <- size_dom, Hdom.
    destruct (interval _); [rewrite size_singleton | rewrite size_empty]; lia.
  - intros Hsh.
    assert (Hown : registry_owns (run ks (loaded doc vis enhancements storage))).
    { apply Hkept; [exact Hsh|]. intros h t Ht. destruct h; discriminate Ht. }
    assert (Hreg : ∀ c h,
              live (run ks (loaded doc vis enhancements storage)) h c →
              timelineInstances (run ks (loaded doc vis enhancements storage))
                !! c = Some h).
    { intros c h (t & Ht & <- & Hlive). by apply Hown. }
    split; [|exact Hreg].
    intros c h1 h2 H1 H2. apply Hreg in H1, H2. congruence.
Qed.

(** X10.  [destroyAllTimelines] returns [true], empties the registry and drops
    the .NET reference; when every timeline that is not destroyed is a
    registered one, none is left afterwards. *)
Theorem destroyAllTimelines_leaves_nothing w :
  registry_owns w →
  let r := destroyAllTimelines w in
  r.1 = true ∧
  timelineInstances r.2 = ∅ ∧
  dotNetReference r.2 = None ∧
  (∀ c, isTimelineInitialized c r.2 = false) ∧
  (∀ h c, ¬ live r.2 h c) ∧
  (destroyAllTimelines r.2).1 = true ∧
  objects (destroyAllTimelines r.2).2 = objects r.2.
Proof.
  intros Hown. cbv zeta. split_and!; try done.
  intros h c. by apply destroyAllTimelines_none_live.
Qed.

Lemma destroyAllTimelines_leaves_nothing_witness :
  timelineInstances (destroyAllTimelines second_timeline.2).2 = ∅.
Proof.
  destruct (destroyAllTimelines_leaves_nothing second_timeline.2)
    as (_ & H & _).
  - unfold second_timeline, first_timeline.
    apply registry_owns_initializeEnhancedTimeline; [by left|].
    apply registry_owns_initializeEnhancedTimeline; [by left|].
    intros h t Ht. destruct h; discriminate Ht.
  - exact H.
Defined.

(** X11.  [destroyTbmlVisualizations] stops the playback, destroys and
    unregisters the shipment timeline and forgets its container: no
    interval is left, the timeline that was registered for the
    container of the playback is destroyed and the container has no
    entry any more, and [playShipmentTimeline] afterwards returns
    [false]. *)
Theorem destroyTbmlVisualizations_resets w :
  ShipmentSession.one_timer w →
  let r := destroyTbmlVisualizations w in
  r.1 = true ∧
  timers r.2 = ∅ ∧
  shipmentTimelinePlayback r.2 = mkPlayback None 0 false None ∧
  (∀ c, containerId (shipmentTimelinePlayback w) = Some c →
        timelineInstances r.2 !! c = None) ∧
  (∀ c h, containerId (shipmentTimelinePlayback w) = Some c →
          timelineInstances w !! c = Some h →
          ¬ live r.2 h c ∧
          ∀ t, objects w !! h = Some t →
               objects r.2 !! h
               = Some (mkTimeline (tl_container t) (itemsData t) false [])) ∧
  (playShipmentTimeline r.2).1 = false.
Proof.
  intros Hone. cbv zeta.
  pose proof (one_timer_call w DestroyTbml Hone) as [Hdom _]. simpl in Hdom.
  destruct (stop_clears_interval w) as (_ & _ & _ & Hc).
  split_and!; try done.
  - apply dom_empty_inv_L. exact Hdom.
  - intros c Hw. unfold destroyTbmlVisualizations. cbv zeta.
    unfold say, with_playback. cbn [snd timelineInstances].
    rewrite Hc, Hw. unfold destroy_existing.
    destruct (timelineInstances (stopShipmentTimeline w).2 !! c) eqn:Hh.
    + unfold with_instances. cbn [timelineInstances]. apply lookup_delete_eq.
    + done.
  - intros c h Hw Hh.
    assert (Hstop : timelineInstances (stopShipmentTimeline w).2
                    = timelineInstances w ∧
                    objects (stopShipmentTimeline w).2 !! h
                    = (λ t, mkTimeline (tl_container t) (itemsData t)
                              (tl_live t) []) <$> objects w !! h).
    { unfold stopShipmentTimeline.
      destruct (interval (shipmentTimelinePlayback w)); simpl;
        rewrite Hw; simpl; rewrite Hh; simpl;
        by rewrite list_lookup_alter_eq. }
    destruct Hstop as [Hreg Hobj].
    assert (Hdead : objects (destroyTbmlVisualizations w).2 !! h
                    = (λ t, mkTimeline (tl_container t) (itemsData t) false [])
                      <$> objects w !! h).
    { unfold destroyTbmlVisualizations. cbv zeta.
      unfold say, with_playback. cbn [snd objects].
      rewrite Hc, Hw. unfold destroy_existing. rewrite Hreg, Hh.
      unfold with_instances, destroy_object, with_objects. cbn [objects].
      rewrite list_lookup_alter_eq, Hobj. by destruct (objects w !! h). }
    split.
    + intros (t' & Ht' & _ & Hlive). rewrite Hdead in Ht'.
      destruct (objects w !! h); [|done]. injection Ht' as <-. done.
    + intros t Ht. by rewrite Hdead, Ht.
Qed.

Lemma destroyTbmlVisualizations_resets_witness :
  timers (destroyTbmlVisualizations
            (run [InitializeShipment "graph-container" []; Play] timelines)).2
  = ∅.
Proof.
  destruct (destroyTbmlVisualizations_resets
              (run [InitializeShipment "graph-container" []; Play] timelines))
    as (_ & H & _).
  - split; [compute_done | vm_compute; done].
  - exact H.
Defined.



End TimelineExtras.

(** ** Playback *)

Section ShipmentPlaybackExtras.
Import Js TimelineInterop TimelineCalls RegistryExamples.
Implicit Types (w : world) (c : string) (h : nat).

Lemma pause_facts w :
  (pauseShipmentTimeline w).1 = true ∧
  interval (shipmentTimelinePlayback (pauseShipmentTimeline w).2) = None ∧
  isPlaying (shipmentTimelinePlayback (pauseShipmentTimeline w).2) = false ∧
  currentIndex (shipmentTimelinePlayback (pauseShipmentTimeline w).2)
    = currentIndex (shipmentTimelinePlayback w) ∧
  containerId (shipmentTimelinePlayback (pauseShipmentTimeline w).2)
    = containerId (shipmentTimelinePlayback w) ∧
  objects (pauseShipmentTimeline w).2 = objects w ∧
  timelineInstances (pauseShipmentTimeline w).2 = timelineInstances w ∧
  timers (pauseShipmentTimeline w).2
    = match interval (shipmentTimelinePlayback w) with
      | Some i => delete i (timers w)
      | None => timers w
      end.
Proof.
  unfold pauseShipmentTimeline.
  destruct (interval (shipmentTimelinePlayback w)) eqn:Hi; simpl;
    rewrite ?Hi; done.
Qed.

Lemma stop_facts w :
  objects (stopShipmentTimeline w).2
    = match containerId (shipmentTimelinePlayback w) with
      | Some c =>
          match timelineInstances w !! c with
          | Some h =>
              alter (λ t, mkTimeline (tl_container t) (itemsData t)
                            (tl_live t) []) h (objects w)
          | None => objects w
          end
      | None => objects w
      end ∧
  timelineInstances (stopShipmentTimeline w).2 = timelineInstances w.
Proof.
  unfold stopShipmentTimeline.
  destruct (interval (shipmentTimelinePlayback w)) eqn:Hi; simpl;
    (destruct (containerId (shipmentTimelinePlayback w)) as [c|]; simpl;
     [destruct (timelineInstances w !! c)|]); simpl; done.
Qed.

Lemma play_starts w c h t :
  containerId (shipmentTimelinePlayback w) = Some c →
  timelineInstances w !! c = Some h →
  objects w !! h = Some t →
  length (sort_by start (itemsData t)) ≠ 0 →
  isPlaying (shipmentTimelinePlayback w) = false →
  playShipmentTimeline w
  = (true,
     say Log "Shipment timeline playback started"
       (with_playback
          (mkPlayback (Some (next_timer w))
             (if bool_decide (length (sort_by start (itemsData t))
                              ≤ currentIndex (shipmentTimelinePlayback w))
              then 0 else currentIndex (shipmentTimelinePlayback w))
             true (Some c))
          (with_timers (<[next_timer w := (h, sort_by start (itemsData t))]>
                          (timers w))
             (Pos.succ (next_timer w)) w))).
Proof.
  intros Hc Hh Ht Hs Hp. unfold playShipmentTimeline.
  rewrite Hc, Hh, Ht. simpl.
  rewrite bool_decide_eq_false_2 by done. by rewrite Hp.
Qed.

(** X13.  Pausing the shipment playback keeps the position, and the next play
    goes on from there (from the start when the position is past the
    last event); after a stop the next play starts at the first event. *)
Theorem shipment_play_resumes w c h t :
  containerId (shipmentTimelinePlayback w) = Some c →
  timelineInstances w !! c = Some h →
  objects w !! h = Some t →
  length (sort_by start (itemsData t)) ≠ 0 →
  let paused := (pauseShipmentTimeline w).2 in
  let resumed := (playShipmentTimeline paused).2 in
  let restarted := (playShipmentTimeline (stopShipmentTimeline w).2).2 in
  currentIndex (shipmentTimelinePlayback paused)
    = currentIndex (shipmentTimelinePlayback w) ∧
  isPlaying (shipmentTimelinePlayback resumed) = true ∧
  currentIndex (shipmentTimelinePlayback resumed)
    = (if bool_decide (length (sort_by start (itemsData t))
                       ≤ currentIndex (shipmentTimelinePlayback w))
       then 0 else currentIndex (shipmentTimelinePlayback w)) ∧
  isPlaying (shipmentTimelinePlayback restarted) = true ∧
  currentIndex (shipmentTimelinePlayback restarted) = 0.
Proof.
  intros Hc Hh Ht Hs. cbv zeta.
  destruct (pause_facts w) as (_ & _ & Hp & Hidx & Hcid & Hobj & Hreg & _).
  split; [done|].
  rewrite (play_starts (pauseShipmentTimeline w).2 c h t);
    [| by rewrite Hcid | by rewrite Hreg | by rewrite Hobj | done | done].
  unfold say, with_playback.
  cbn [snd shipmentTimelinePlayback isPlaying currentIndex].
  rewrite Hidx. split; [done|]. split; [done|].
  destruct (stop_clears_interval w) as (_ & Hidx0 & Hp0 & Hcid0).
  destruct (stop_facts w) as [Hobj0 Hreg0]. rewrite Hc, Hh in Hobj0.
  rewrite (play_starts (stopShipmentTimeline w).2 c h
             (mkTimeline (tl_container t) (itemsData t) (tl_live t) []));
    [| by rewrite Hcid0 | by rewrite Hreg0
     | by rewrite Hobj0, list_lookup_alter_eq, Ht | done | done].
  unfold say, with_playback.
  cbn [snd shipmentTimelinePlayback isPlaying currentIndex].
  rewrite Hidx0. split; [done|]. by case_bool_decide.
Qed.

Lemma shipment_play_resumes_witness :
  let w := run [InitializeShipment "graph-container"
                  [mkItem "s1" 10; mkItem "s2" 20; mkItem "s3" 30];
                Play; Tick 1; Tick 1] timelines in
  currentIndex (shipmentTimelinePlayback
                  (playShipmentTimeline (pauseShipmentTimeline w).2).2) = 2.
Proof.
  cbv zeta.
  destruct (shipment_play_resumes
              (run [InitializeShipment "graph-container"
                      [mkItem "s1" 10; mkItem "s2" 20; mkItem "s3" 30];
                    Play; Tick 1; Tick 1] timelines)
              "graph-container" 0
              (mkTimeline "graph-container"
                 [mkItem "s1" 10; mkItem "s2" 20; mkItem "s3" 30] true ["s2"]))
    as (_ & _ & H & _).
  - vm_compute. reflexivity.
  - vm_compute. reflexivity.
  - vm_compute. reflexivity.
  - vm_compute. discriminate.
  - rewrite H. vm_compute. reflexivity.
Defined.

Lemma in_progress_tick i h its k x w :
  in_progress i h its k w → its !! k = Some x →
  in_progress i h its (S k) (tick i w) ∧
  selection <$> objects (tick i w) !! h = Some [item_id x].
Proof.
  intros (Hidx & Ht & Hp & Hi & [t Hobj]) Hx.
  unfold tick, on_interval. rewrite Ht, Hidx, Hx. simpl.
  rewrite list_lookup_alter_eq, Hobj. simpl.
  split; [|done]. split_and!; try done.
  simpl. rewrite list_lookup_alter_eq, Hobj. by eexists.
Qed.

Lemma in_progress_fired i h its k w :
  in_progress i h its 0 w → k ≤ length its →
  in_progress i h its k (fired k i w).
Proof.
  intros H0. induction k as [|k IH]; intros Hk; [done|].
  assert (is_Some (its !! k)) as [x Hx] by (apply lookup_lt_is_Some; lia).
  unfold fired. simpl. apply (in_progress_tick i h its k x); [|done].
  apply IH. lia.
Qed.

(** X14.  A playback started at the first event runs through: the [k]-th
    firing of its interval selects the [k]-th event in time order, and
    the firing after the last event pauses the playback and clears the
    interval. *)
Theorem shipment_playback_runs_through w c h t :
  containerId (shipmentTimelinePlayback w) = Some c →
  timelineInstances w !! c = Some h →
  objects w !! h = Some t →
  length (sort_by start (itemsData t)) ≠ 0 →
  isPlaying (shipmentTimelinePlayback w) = false →
  currentIndex (shipmentTimelinePlayback w) = 0 →
  let its := sort_by start (itemsData t) in
  let i := next_timer w in
  let started := (playShipmentTimeline w).2 in
  (∀ k x, its !! k = Some x →
     selection <$> objects (fired (S k) i started) !! h = Some [item_id x] ∧
     currentIndex (shipmentTimelinePlayback (fired (S k) i started)) = S k ∧
     isPlaying (shipmentTimelinePlayback (fired (S k) i started)) = true) ∧
  let finished := fired (S (length its)) i started in
  isPlaying (shipmentTimelinePlayback finished) = false ∧
  interval (shipmentTimelinePlayback finished) = None ∧
  timers finished !! i = None ∧
  currentIndex (shipmentTimelinePlayback finished) = length its.
Proof.
  intros Hc Hh Ht Hs Hp Hidx. cbv zeta.
  rewrite (play_starts w c h t) by done. rewrite Hidx.
  rewrite bool_decide_eq_false_2 by lia.
  set (its := sort_by start (itemsData t)) in *.
  set (w1 := (_, _).2).
  assert (H0 : in_progress (next_timer w) h its 0 w1).
  { subst w1. unfold in_progress. simpl. rewrite lookup_insert_eq.
    split_and!; try done; by eexists. }
  split.
  - intros k x Hx.
    assert (Hk : k ≤ length its) by (apply lookup_lt_Some in Hx; lia).
    pose proof (in_progress_fired _ _ _ k _ H0 Hk) as Hk'.
    destruct (in_progress_tick _ _ _ _ x _ Hk' Hx) as [(Hi & _ & Hpl & _) Hsel].
    done.
  - pose proof (in_progress_fired _ _ _ (length its) _ H0 (le_n _))
      as (Hi & Htm & Hpl & Hiv & _).
    change (fired (S (length its)) (next_timer w) w1)
      with (tick (next_timer w) (fired (length its) (next_timer w) w1)).
    generalize dependent (fired (length its) (next_timer w) w1). intros wn.
    intros Hi Htm Hpl Hiv. unfold tick, on_interval. rewrite Htm, Hi.
    rewrite lookup_ge_None_2 by lia.
    destruct (pause_facts wn) as (_ & -> & -> & -> & _ & _ & _ & ->).
    rewrite Hiv, lookup_delete_eq. done.
Qed.

Lemma shipment_playback_runs_through_witness :
  let w := run [InitializeShipment "graph-container"
                  [mkItem "s2" 20; mkItem "s1" 10]] timelines in
  isPlaying (shipmentTimelinePlayback
               (fired 3 1 (playShipmentTimeline w).2)) = false.
Proof.
  cbv zeta.
  destruct (shipment_playback_runs_through
              (run [InitializeShipment "graph-container"
                      [mkItem "s2" 20; mkItem "s1" 10]] timelines)
              "graph-container" 0
              (mkTimeline "graph-container" [mkItem "s2" 20; mkItem "s1" 10]
                 true []))
    as (_ & H & _).
  - vm_compute. reflexivity.
  - vm_compute. reflexivity.
  - vm_compute. reflexivity.
  - vm_compute. discriminate.
  - vm_compute. reflexivity.
  - vm_compute. reflexivity.
  - exact H.
Defined.

End ShipmentPlaybackExtras.

Section VizExtras.
Import Js TimelineViz VizSession.
Implicit Types (t : viz) (i : positive).

Lemma one_interval_step t c :
  one_interval t → (redraws c = true → isPlaying t = false) →
  one_interval (step t c).
Proof.
  unfold one_interval. intros H Hc.
  destruct c as [| | | |evs|i]; simpl.
  - unfold play. destruct (isPlaying t) eqn:Hp; simpl; [by rewrite Hp|].
    rewrite H. destruct (playbackTimer t); set_solver.
  - unfold pause. simpl. rewrite H.
    destruct (isPlaying t), (playbackTimer t); set_solver.
  - unfold stop, pause. simpl. rewrite H.
    destruct (isPlaying t), (playbackTimer t); set_solver.
  - rewrite H, Hc by done. by destruct (playbackTimer t).
  - rewrite H, Hc by done. by destruct (playbackTimer t).
  - unfold tick. case_bool_decide as Hi; [|done].
    unfold on_interval. destruct (events t !! playbackIndex t); simpl; [done|].
    unfold stop, pause. simpl. rewrite H.
    destruct (isPlaying t), (playbackTimer t); set_solver.
Qed.

Lemma one_interval_run cs t :
  one_interval t → calm t cs → one_interval (run cs t).
Proof.
  revert t. induction cs as [|c cs IH]; intros t H Hc; [done|].
  destruct Hc as [Hc Hcs]. apply IH; [|done]. by apply one_interval_step.
Qed.

(** X15.  As long as the view is not redrawn while playback is on, a widget
    holds at most one interval, and none when playback is off, whatever
    the order of [play], [pause], [stop], redraws and firings. *)
Theorem TimelineViz_one_interval_without_redraw cs :
  calm create cs →
  size (timers (run cs create)) ≤ 1 ∧
  (isPlaying (run cs create) = false → timers (run cs create) = ∅).
Proof.
  intros Hc.
  assert (H : one_interval (run cs create)) by (by apply one_interval_run).
  unfold one_interval in H. rewrite H.
  destruct (isPlaying (run cs create)), (playbackTimer (run cs create));
    rewrite ?size_singleton, ?size_empty; split; (lia || done).
Qed.

Lemma TimelineViz_one_interval_without_redraw_witness :
  size (timers (run [LoadData [mkEvent "a" 2; mkEvent "b" 1]; Play; Play;
                     Tick 1; Pause; Play; Tick 2; Stop; Render; Play]
                  create)) ≤ 1.
Proof.
  apply (TimelineViz_one_interval_without_redraw
           [LoadData [mkEvent "a" 2; mkEvent "b" 1]; Play; Play;
            Tick 1; Pause; Play; Tick 2; Stop; Render; Play]).
  vm_compute. repeat split; intros; (reflexivity || discriminate).
Defined.

(** The state of a playback that interval [i] drives, after [k]
    firings. *)
Lemma playing_tick t i k n ev :
  playbackIndex t = k → i ∈ timers t → isPlaying t = true →
  playbackTimer t = Some i → length (ticks t) = n →
  events t !! k = Some ev →
  playbackIndex (tick i t) = S k ∧ i ∈ timers (tick i t) ∧
  isPlaying (tick i t) = true ∧ playbackTimer (tick i t) = Some i ∧
  length (ticks (tick i t)) = S n ∧ events (tick i t) = events t ∧
  shown (tick i t) = Some (date ev) ∧
  last (ticks (tick i t)) = Some (event_id ev, k).
Proof.
  intros Hk Hi Hp Ht Hn Hev. unfold tick, on_interval.
  rewrite bool_decide_eq_true_2, Hk, Hev by done. simpl.
  rewrite length_app, last_snoc. simpl. split_and!; try done. lia.
Qed.

Lemma playing_fired t i k :
  playbackIndex t = 0 → i ∈ timers t → isPlaying t = true →
  playbackTimer t = Some i → k ≤ length (events t) →
  playbackIndex (fired k i t) = k ∧ i ∈ timers (fired k i t) ∧
  isPlaying (fired k i t) = true ∧ playbackTimer (fired k i t) = Some i ∧
  length (ticks (fired k i t)) = length (ticks t) + k ∧
  events (fired k i t) = events t.
Proof.
  intros H0 Hi Hp Ht. induction k as [|k IH]; intros Hk.
  - simpl. split_and!; try done; lia.
  - destruct IH as (Hk' & Hi' & Hp' & Ht' & Hn' & He'); [lia|].
    assert (is_Some (events t !! k)) as [ev Hev]
      by (apply lookup_lt_is_Some; lia).
    rewrite <- He' in Hev.
    destruct (playing_tick _ i k _ ev Hk' Hi' Hp' Ht' Hn' Hev)
      as (? & ? & ? & ? & ? & He'' & _).
    unfold fired in *. simpl. split_and!; try done; [lia|congruence].
Qed.

Lemma playback_progress t :
  isPlaying t = false →
  let i := next_timer t in
  (∀ k ev, events t !! k = Some ev →
     shown (fired (S k) i (play t)) = Some (date ev) ∧
     last (ticks (fired (S k) i (play t))) = Some (event_id ev, k) ∧
     isPlaying (fired (S k) i (play t)) = true) ∧
  let finished := fired (S (length (events t))) i (play t) in
  isPlaying finished = false ∧ playbackIndex finished = 0 ∧
  shown finished = None ∧ (i ∉ timers finished) ∧
  length (ticks finished) = length (ticks t) + length (events t).
Proof.
  intros Hp. cbv zeta.
  assert (Hplay : playbackIndex (play t) = 0 ∧
                  next_timer t ∈ timers (play t) ∧
                  isPlaying (play t) = true ∧
                  playbackTimer (play t) = Some (next_timer t) ∧
                  events (play t) = events t ∧ ticks (play t) = ticks t).
  { unfold play. rewrite Hp. simpl. split_and!; try done. set_solver. }
  destruct Hplay as (H0 & Hi & Hpl & Ht & He & Htk).
  split.
  - intros k ev Hev.
    destruct (playing_fired (play t) (next_timer t) k H0 Hi Hpl Ht)
      as (Hk' & Hi' & Hp' & Ht' & Hn' & He').
    { rewrite He. apply lookup_lt_Some in Hev. lia. }
    rewrite <- He, <- He' in Hev.
    destruct (playing_tick _ _ k _ ev Hk' Hi' Hp' Ht' Hn' Hev)
      as (_ & _ & ? & _ & _ & _ & ? & ?).
    done.
  - destruct (playing_fired (play t) (next_timer t) (length (events t))
                H0 Hi Hpl Ht) as (Hk' & Hi' & Hp' & Ht' & Hn' & He').
    { by rewrite He. }
    change (fired (S (length (events t))) (next_timer t) (play t))
      with (tick (next_timer t)
              (fired (length (events t)) (next_timer t) (play t))).
    rewrite Htk, He in *.
    generalize dependent (fired (length (events t)) (next_timer t) (play t)).
    intros tn Hk' Hi' Hp' Ht' Hn' He'.
    unfold tick, on_interval.
    rewrite bool_decide_eq_true_2, Hk', He' by done.
    rewrite lookup_ge_None_2 by lia.
    unfold stop, pause. simpl. rewrite Ht'. split_and!; try done. set_solver.
Qed.

(** X16.  A playback runs through the events in the order they are held: the
    [k]-th firing of its interval highlights the [k]-th event and
    reports it with its position, and the firing after the last event
    stops the playback, clears the interval and restores every event. *)
Theorem TimelineViz_playback_runs_through t :
  isPlaying t = false →
  let i := next_timer t in
  (∀ k ev, events t !! k = Some ev →
     shown (fired (S k) i (play t)) = Some (date ev) ∧
     last (ticks (fired (S k) i (play t))) = Some (event_id ev, k) ∧
     isPlaying (fired (S k) i (play t)) = true) ∧
  let finished := fired (S (length (events t))) i (play t) in
  isPlaying finished = false ∧ playbackIndex finished = 0 ∧
  shown finished = None ∧ (i ∉ timers finished) ∧
  length (ticks finished) = length (ticks t) + length (events t).
Proof. apply playback_progress. Qed.

Lemma TimelineViz_playback_runs_through_witness :
  isPlaying (fired 3 1 (play (run [LoadData [mkEvent "a" 2; mkEvent "b" 1]]
                                create))) = false.
Proof.
  destruct (TimelineViz_playback_runs_through
              (run [LoadData [mkEvent "a" 2; mkEvent "b" 1]] create))
    as (_ & H & _).
  - vm_compute. reflexivity.
  - exact H.
Defined.

Lemma lookup_sorted {A} (key : A → Z) (l : list A) j k x y :
  StronglySorted (λ u v, (key u <= key v)%Z) l →
  j ≤ k → l !! j = Some x → l !! k = Some y → (key x <= key y)%Z.
Proof.
  intros Hs. revert j k. induction Hs as [|z l Hs IH Hz]; intros j k Hjk Hj Hk.
  - by rewrite lookup_nil in Hj.
  - destruct j as [|j], k as [|k]; simpl in *; simplify_eq; try lia.
    + rewrite Forall_forall in Hz. apply Hz. by eapply list_elem_of_lookup_2.
    + apply (IH j k); [lia|done|done].
Qed.

(** X17.  A playback after [loadData] goes through the loaded events in the
    order of their dates, whatever the order they were given in: every
    event is shown once, at its turn, and an event shown later has no
    earlier date. *)
Theorem TimelineViz_playback_in_date_order evs t :
  let loaded := loadData evs t in
  let i := next_timer loaded in
  events loaded ≡ₚ evs ∧
  (∀ k ev, events loaded !! k = Some ev →
     shown (fired (S k) i (play loaded)) = Some (date ev)) ∧
  (∀ j k dj dk, j ≤ k → k < length evs →
     shown (fired (S j) i (play loaded)) = Some dj →
     shown (fired (S k) i (play loaded)) = Some dk →
     (dj <= dk)%Z).
Proof.
  cbv zeta.
  assert (Hp : isPlaying (loadData evs t) = false) by done.
  assert (He : events (loadData evs t) = sort_by date evs) by done.
  destruct (playback_progress (loadData evs t) Hp) as [Hrun _].
  split_and!.
  - rewrite He. apply sort_by_perm.
  - intros k ev Hev. by apply Hrun.
  - intros j k dj dk Hjk Hk Hj Hk'.
    assert (Hlen : length (events (loadData evs t)) = length evs).
    { rewrite He. apply Permutation_length, sort_by_perm. }
    assert (is_Some (events (loadData evs t) !! j)) as [ej Hej]
      by (apply lookup_lt_is_Some; lia).
    assert (is_Some (events (loadData evs t) !! k)) as [ek Hek]
      by (apply lookup_lt_is_Some; lia).
    destruct (Hrun j ej Hej) as [Hsj _]. destruct (Hrun k ek Hek) as [Hsk _].
    rewrite Hsj in Hj. rewrite Hsk in Hk'. simplify_eq.
    rewrite He in Hej, Hek.
    apply (lookup_sorted date (sort_by date evs) j k); try done.
    apply sort_by_sorted.
Qed.

End VizExtras.

(** ** Gaps, filters, statistics and related items *)

Section GapExtras.
Import Js TimelineEnhancements.
Implicit Types (a b x : item) (l : list item) (g : gap).

Lemma gaps_from_sound limit l g :
  StronglySorted (λ u v, (start u <= start v)%Z) l →
  g ∈ gaps_from limit l →
  ∃ a b, a ∈ l ∧ b ∈ l ∧
    g = mkGap (start a) (start b) (start b - start a) ∧
    (limit < start b - start a)%Z ∧
    ∀ x, x ∈ l → ¬ (start a < start x < start b)%Z.
Proof.
  induction 1 as [|c l Hs IH Hc]; [by intros ?%elem_of_nil|].
  destruct l as [|d l]; [by intros ?%elem_of_nil|].
  simpl. rewrite elem_of_app. intros [Hg|Hg].
  - destruct (limit <? start d - start c)%Z eqn:Hlt;
      [|by apply elem_of_nil in Hg].
    apply list_elem_of_singleton in Hg. apply Z.ltb_lt in Hlt.
    exists c, d. split_and!; [set_solver|set_solver|done|done|].
    intros x Hx. apply elem_of_cons in Hx as [->|Hx]; [lia|].
    apply elem_of_cons in Hx as [->|Hx]; [lia|].
    apply StronglySorted_inv in Hs as [_ Hd].
    rewrite Forall_forall in Hd. specialize (Hd x Hx). lia.
  - destruct (IH Hg) as (a & b & Ha & Hb & -> & Hlt & Hno).
    exists a, b. split_and!; [set_solver|set_solver|done|done|].
    intros x Hx. apply elem_of_cons in Hx as [->|Hx]; [|by apply Hno].
    rewrite Forall_forall in Hc. specialize (Hc a Ha). lia.
Qed.

Lemma gaps_from_complete limit l a b :
  (0 <= limit)%Z →
  StronglySorted (λ u v, (start u <= start v)%Z) l →
  a ∈ l → b ∈ l → (limit < start b - start a)%Z →
  (∀ x, x ∈ l → ¬ (start a < start x < start b)%Z) →
  mkGap (start a) (start b) (start b - start a) ∈ gaps_from limit l.
Proof.
  intros Hlim Hs. revert a b.
  induction Hs as [|c l Hs IH Hc]; intros a b Ha Hb Hlt Hno;
    [by apply elem_of_nil in Ha|].
  rewrite Forall_forall in Hc.
  destruct l as [|d l].
  { apply list_elem_of_singleton in Ha, Hb. subst. lia. }
  simpl. rewrite elem_of_app.
  apply elem_of_cons in Ha as [->|Ha]; apply elem_of_cons in Hb as [->|Hb].
  - lia.
  - assert (Hd : (start c <= start d)%Z) by (apply Hc; set_solver).
    assert (Hdb : (start d <= start b)%Z).
    { apply elem_of_cons in Hb as [->|Hb]; [lia|].
      apply StronglySorted_inv in Hs as [_ Hd'].
      rewrite Forall_forall in Hd'. by apply Hd'. }
    destruct (decide (start d = start c)) as [Heq|Hne].
    + right. rewrite <- Heq.
      apply IH; [set_solver|done|lia|].
      intros x Hx. rewrite Heq. apply Hno. set_solver.
    + left. assert (Hbd : start d = start b).
      { assert (Hin : d ∈ c :: d :: l) by set_solver.
        specialize (Hno d Hin). lia. }
      rewrite <- Hbd. rewrite (proj2 (Z.ltb_lt _ _)) by lia. set_solver.
  - specialize (Hc a Ha). lia.
  - right. apply IH; try done. intros x Hx. apply Hno. set_solver.
Qed.

(** X18.  [detectGaps] reports exactly the pauses of more than a day: a gap
    runs from the start of one item to the start of another that is
    more than 24 hours later, with no item starting in between, and
    every such pair of items is reported. *)
Theorem detectGaps_reports_the_long_pauses its g :
  g ∈ detectGaps its ↔
  ∃ a b, a ∈ its ∧ b ∈ its ∧
    g = mkGap (start a) (start b) (start b - start a) ∧
    (24 * 60 * 60 * 1000 < start b - start a)%Z ∧
    ∀ x, x ∈ its → ¬ (start a < start x < start b)%Z.
Proof.
  unfold detectGaps.
  pose proof (sort_by_perm start its) as Hp.
  pose proof (sort_by_sorted start its) as Hs.
  split.
  - intros Hg.
    destruct (gaps_from_sound _ _ _ Hs Hg) as (a & b & Ha & Hb & ? & ? & Hno).
    exists a, b. rewrite <- Hp. split_and!; try done.
    intros x Hx. apply Hno. by rewrite Hp.
  - intros (a & b & Ha & Hb & -> & Hlt & Hno).
    apply gaps_from_complete; try done; try by rewrite Hp.
    intros x Hx. apply Hno. by rewrite <- Hp.
Qed.

End GapExtras.

Section ItemExtras.
Import Js TimelineItems.
Implicit Types (it : entry) (l : list entry) (c : criteria).

(** X19.  Filters add up: [filterTimeline] replaces the items of the timeline
    by the ones it kept, so a second call keeps the items that match
    both criteria, and a call with no criteria at all does not bring
    the other items back. *)
Theorem filterTimeline_narrows l c1 c2 :
  let first := filterTimeline l c1 in
  let second := filterTimeline first.2 c2 in
  second.1 = filter (λ it, matches c1 it && matches c2 it = true) l ∧
  second.1 ⊆ first.1 ∧
  (filterTimeline first.2 (mkCriteria None None None None None)).1 = first.1.
Proof.
  cbv zeta. unfold filterTimeline. simpl. split_and!.
  - rewrite list_filter_filter. apply list_filter_iff. intros it.
    rewrite andb_true_iff. tauto.
  - intros it. rewrite !list_elem_of_filter. tauto.
  - apply list_filter_filter_r. done.
Qed.

(** X20.  A list of entities as criterion keeps only items that name one of
    them, so an empty list keeps nothing, while a criterion that is not
    set, or is the empty string, lets every item pass. *)
Theorem filterTimeline_by_entities l c es :
  c_entities c = Some es →
  (∀ it, it ∈ (filterTimeline l c).1 →
     ∃ ies e, entities it = Some ies ∧ e ∈ es ∧ e ∈ ies) ∧
  (es = [] → (filterTimeline l c).1 = []) ∧
  (filterTimeline l (mkCriteria (Some EmptyString) None None None None)).1 = l.
Proof.
  intros Hes. unfold filterTimeline. simpl. split_and!.
  - intros it [Hm _]%list_elem_of_filter. unfold matches in Hm.
    rewrite Hes in Hm. rewrite !andb_true_iff in Hm.
    destruct Hm as [_ Hm]. destruct (entities it) as [ies|]; [|done].
    apply existsb_exists in Hm as (e & He & Hin%bool_decide_eq_true).
    exists ies, e. split_and!; [done| |done]. by apply list_elem_of_In.
  - intros ->. induction l as [|it l IH]; [done|].
    rewrite filter_cons, decide_False; [done|].
    unfold matches. rewrite Hes. destruct (entities it); simpl;
      rewrite ?andb_false_r; done.
  - induction l as [|it l IH]; [done|].
    rewrite filter_cons, decide_True by done. by rewrite IH.
Qed.

Lemma filterTimeline_by_entities_witness :
  (filterTimeline
     [mkEntry "a" 1 None None None (Some ["acct-1"]);
      mkEntry "b" 2 None None None None]
     (mkCriteria None None None None (Some []))).1 = [].
Proof.
  by apply (filterTimeline_by_entities _
              (mkCriteria None None None None (Some [])) []).
Defined.

Lemma share_true a b : share a b = true ↔ ∃ e, e ∈ a ∧ e ∈ b.
Proof.
  unfold share. rewrite existsb_exists. split.
  - intros (e & He%list_elem_of_In & Hb%bool_decide_eq_true). eauto.
  - intros (e & He & Hb). exists e.
    split; [by apply list_elem_of_In|by apply bool_decide_eq_true].
Qed.

Lemma get_elem l it :
  NoDup (id <$> l) → it ∈ l → get l (id it) = Some it.
Proof.
  intros Hnd Hin. unfold get.
  destruct (list_find (λ x, id x = id it) l) as [[i x]|] eqn:Hf; simpl.
  - apply list_find_Some in Hf as (Hx & Hid & _).
    apply list_elem_of_lookup in Hin as [j Hj].
    assert (i = j); [|by simplify_eq].
    eapply (NoDup_lookup (id <$> l)); [done| |].
    + by rewrite list_lookup_fmap, Hx.
    + rewrite list_lookup_fmap, Hj. simpl. by rewrite Hid.
  - apply list_find_None in Hf. rewrite Forall_forall in Hf.
    by destruct (Hf it Hin).
Qed.

Lemma elem_of_relatedIds l i es j :
  j ∈ relatedIds l i es ↔
  ∃ o oes, o ∈ l ∧ id o = j ∧ j ≠ i ∧ entities o = Some oes ∧
    share es oes = true.
Proof.
  unfold relatedIds. rewrite list_elem_of_omap. split.
  - intros (o & Ho & H). case_bool_decide; [|done].
    destruct (entities o) as [oes|] eqn:He; [|done].
    destruct (share es oes) eqn:Hs; [|done].
    simplify_eq. by exists o, oes.
  - intros (o & oes & Ho & <- & Hne & He & Hs). exists o. split; [done|].
    rewrite bool_decide_eq_true_2 by done. by rewrite He, Hs.
Qed.

(** X21.  Being related is mutual and never includes the item itself: on a
    timeline whose items have distinct ids, the ids returned for item
    [a] contain [b]'s id exactly when those returned for [b] contain
    [a]'s. *)
Theorem highlightRelatedItems_symmetric l a b els :
  NoDup (id <$> l) → a ∈ l → b ∈ l →
  ∃ ra rb,
    (highlightRelatedItems l (id a) els).1 = Some ra ∧
    (highlightRelatedItems l (id b) els).1 = Some rb ∧
    (id b ∈ ra ↔ id a ∈ rb) ∧
    id a ∉ ra.
Proof.
  intros Hnd Ha Hb. unfold highlightRelatedItems.
  rewrite !get_elem by done. simpl. eexists _, _.
  split; [done|]. split; [done|].
  assert (Hsame : ∀ o x, o ∈ l → x ∈ l → id o = id x → o = x).
  { intros o x Ho Hx Hid.
    pose proof (get_elem l o Hnd Ho) as H1.
    pose proof (get_elem l x Hnd Hx) as H2. congruence. }
  assert (Hhalf : ∀ x y, x ∈ l → y ∈ l →
            id y ∈ match entities x with
                   | Some es => relatedIds l (id x) es
                   | None => []
                   end →
            id x ∈ match entities y with
                   | Some es => relatedIds l (id y) es
                   | None => []
                   end).
  { intros x y Hx Hy. destruct (entities x) as [es|] eqn:Hes;
      [|by intros ?%elem_of_nil].
    rewrite elem_of_relatedIds.
    intros (o & oes & Ho & Hid & Hne & Hoes & Hs).
    apply (Hsame o y Ho Hy) in Hid. subst o. rewrite Hoes.
    apply elem_of_relatedIds. exists x, es. split_and!; try done.
    apply share_true in Hs as (e & ? & ?). apply share_true. eauto. }
  split; [split; by apply Hhalf|].
  destruct (entities a); [|by apply not_elem_of_nil].
  rewrite elem_of_relatedIds. by intros (? & ? & _ & _ & ? & _).
Qed.

Lemma highlightRelatedItems_symmetric_witness :
  ∃ ra rb,
    (highlightRelatedItems
       [mkEntry "a" 1 None None None (Some ["acct-1"; "acct-2"]);
        mkEntry "b" 2 None None None (Some ["acct-2"])]
       "a" [(Some "b", false)]).1 = Some ra ∧
    (highlightRelatedItems
       [mkEntry "a" 1 None None None (Some ["acct-1"; "acct-2"]);
        mkEntry "b" 2 None None None (Some ["acct-2"])]
       "b" [(Some "b", false)]).1 = Some rb ∧
    ("b" ∈ ra ↔ "a" ∈ rb) ∧ "a" ∉ ra.
Proof.
  apply (highlightRelatedItems_symmetric
           [mkEntry "a" 1 None None None (Some ["acct-1"; "acct-2"]);
            mkEntry "b" 2 None None None (Some ["acct-2"])]
           (mkEntry "a" 1 None None None (Some ["acct-1"; "acct-2"]))
           (mkEntry "b" 2 None None None (Some ["acct-2"]))).
  - compute_done.
  - compute_done.
  - compute_done.
Defined.

Lemma sum_insert_fresh (o : gmap string tally) k t :
  o !! k = None → sum (<[k := t]> o) = weight t + sum o.
Proof.
  intros Hk. unfold sum. rewrite map_fold_insert_L; [done| |done].
  intros. lia.
Qed.

Lemma sum_insert_next (o : gmap string tally) k n :
  o !! k = Some (Count n) → sum (<[k := Count (S n)]> o) = S (sum o).
Proof.
  intros Hk. rewrite <- (insert_delete_id o k (Count n)) at 2 by done.
  rewrite <- insert_delete_eq.
  rewrite !sum_insert_fresh by apply lookup_delete_eq. done.
Qed.

Lemma occurrences_snoc k ks x :
  occurrences k (ks ++ [x])
  = occurrences k ks + (if bool_decide (x = k) then 1 else 0).
Proof.
  unfold occurrences. rewrite filter_app, length_app. f_equal.
  rewrite filter_cons. case_bool_decide.
  - by rewrite decide_True.
  - by rewrite decide_False.
Qed.

Lemma bump_plain (o : gmap string tally) k :
  plain k →
  bump o k = match o !! k with
             | Some (Count n) => <[k := Count (S n)]> o
             | Some Junk => <[k := Junk]> o
             | None => <[k := Count 1]> o
             end.
Proof.
  intros [H1 H2]. unfold bump. rewrite bool_decide_eq_false_2 by done.
  destruct (o !! k) as [[n|]|]; try done.
  by rewrite bool_decide_eq_false_2.
Qed.

Lemma tally_spec ks :
  Forall plain ks →
  (∀ k, foldl bump ∅ ks !! k
        = match occurrences k ks with
          | 0 => None
          | S n => Some (Count (S n))
          end) ∧
  sum (foldl bump ∅ ks) = length ks.
Proof.
  induction ks as [|x ks IH] using rev_ind; intros Hp.
  { split; [intros k; apply lookup_empty|done]. }
  apply Forall_app in Hp as [Hks Hx].
  apply Forall_singleton in Hx as [Hx1 Hx2].
  destruct (IH Hks) as [Hl Hs]. rewrite foldl_snoc, length_app. simpl.
  rewrite bump_plain by done.
  pose proof (Hl x) as Hlx.
  destruct (occurrences x ks) as [|n] eqn:Hn; rewrite Hlx.
  - split.
    + intros k. rewrite occurrences_snoc.
      destruct (decide (x = k)) as [->|Hne].
      * rewrite lookup_insert_eq, Hn, bool_decide_eq_true_2 by done. done.
      * rewrite lookup_insert_ne, Hl, bool_decide_eq_false_2 by done.
        by rewrite Nat.add_0_r.
    + rewrite sum_insert_fresh by done. simpl. lia.
  - split.
    + intros k. rewrite occurrences_snoc.
      destruct (decide (x = k)) as [->|Hne].
      * rewrite lookup_insert_eq, Hn, bool_decide_eq_true_2 by done.
        by rewrite Nat.add_1_r.
      * rewrite lookup_insert_ne, Hl, bool_decide_eq_false_2 by done.
        by rewrite Nat.add_0_r.
    + rewrite sum_insert_next by done. lia.
Qed.

Lemma getStatistics_fold s l :
  let r := foldl record_item s l in
  total r = total s ∧
  bySeverity r = foldl bump (bySeverity s) (key_of ∘ severity <$> l) ∧
  byEventType r = foldl bump (byEventType s) (key_of ∘ eventType <$> l) ∧
  bySource r = foldl bump (bySource s) (key_of ∘ source <$> l).
Proof.
  revert s. induction l as [|it l IH]; intros s; [done|].
  simpl. destruct (IH (record_item s it)) as (-> & -> & -> & ->). done.
Qed.

(** X22.  The counts of [getStatistics] add up: when no item has the name of
    a member of [Object.prototype] as severity, each severity that
    occurs is counted as often as it occurs (an item without one under
    'unknown'), no other is listed, and the counts sum to [total], the
    number of items. *)
Theorem getStatistics_bySeverity l :
  Forall (λ it, plain (key_of (severity it))) l →
  total (getStatistics l) = length l ∧
  sum (bySeverity (getStatistics l)) = total (getStatistics l) ∧
  ∀ k, bySeverity (getStatistics l) !! k
       = match occurrences k (key_of ∘ severity <$> l) with
         | 0 => None
         | S n => Some (Count (S n))
         end.
Proof.
  intros Hp. unfold getStatistics.
  destruct (getStatistics_fold (mkStats (length l) ∅ ∅ ∅ None None) l)
    as (-> & -> & _). simpl.
  destruct (tally_spec (key_of ∘ severity <$> l)) as [Hl Hs].
  { by apply Forall_fmap. }
  rewrite Hs, length_fmap. done.
Qed.

Lemma getStatistics_bySeverity_witness :
  sum (bySeverity
         (getStatistics
            [mkEntry "a" 1 (Some "High") None None None;
             mkEntry "b" 2 None None None None;
             mkEntry "c" 3 (Some "High") None None None])) = 3.
Proof.
  apply (getStatistics_bySeverity
           [mkEntry "a" 1 (Some "High") None None None;
            mkEntry "b" 2 None None None None;
            mkEntry "c" 3 (Some "High") None None None]).
  repeat constructor; compute_done.
Defined.

(** X23.  The same for the event types and the sources. *)
Theorem getStatistics_byEventType_bySource l :
  Forall (λ it, plain (key_of (eventType it))) l →
  Forall (λ it, plain (key_of (source it))) l →
  sum (byEventType (getStatistics l)) = length l ∧
  sum (bySource (getStatistics l)) = length l ∧
  ∀ k,
    byEventType (getStatistics l) !! k
    = match occurrences k (key_of ∘ eventType <$> l) with
      | 0 => None
      | S n => Some (Count (S n))
      end ∧
    bySource (getStatistics l) !! k
    = match occurrences k (key_of ∘ source <$> l) with
      | 0 => None
      | S n => Some (Count (S n))
      end.
Proof.
  intros Hp1 Hp2. unfold getStatistics.
  destruct (getStatistics_fold (mkStats (length l) ∅ ∅ ∅ None None) l)
    as (_ & _ & -> & ->). simpl.
  destruct (tally_spec (key_of ∘ eventType <$> l)) as [Hl1 Hs1].
  { by apply Forall_fmap. }
  destruct (tally_spec (key_of ∘ source <$> l)) as [Hl2 Hs2].
  { by apply Forall_fmap. }
  rewrite Hs1, Hs2, !length_fmap. done.
Qed.

Lemma getStatistics_byEventType_bySource_witness :
  sum (byEventType
         (getStatistics
            [mkEntry "a" 1 None (Some "Transfer") (Some "SWIFT") None;
             mkEntry "b" 2 None None (Some "SWIFT") None])) = 2.
Proof.
  apply (getStatistics_byEventType_bySource
           [mkEntry "a" 1 None (Some "Transfer") (Some "SWIFT") None;
            mkEntry "b" 2 None None (Some "SWIFT") None]).
  - repeat constructor; compute_done.
  - repeat constructor; compute_done.
Defined.

Lemma range_spec s l :
  range_start s = None → range_end s = None →
  match l with
  | [] => range_start (foldl record_item s l) = None ∧
          range_end (foldl record_item s l) = None
  | _ :: _ =>
      ∃ lo hi,
        range_start (foldl record_item s l) = Some lo ∧
        range_end (foldl record_item s l) = Some hi ∧
        lo ∈ start <$> l ∧ hi ∈ start <$> l ∧
        ∀ x, x ∈ l → (lo <= start x <= hi)%Z
  end.
Proof.
  intros H1 H2. induction l as [|y l IH] using rev_ind; [done|].
  assert (∃ lo hi,
            range_start (foldl record_item s (l ++ [y])) = Some lo ∧
            range_end (foldl record_item s (l ++ [y])) = Some hi ∧
            lo ∈ start <$> (l ++ [y]) ∧ hi ∈ start <$> (l ++ [y]) ∧
            ∀ x, x ∈ l ++ [y] → (lo <= start x <= hi)%Z) as H;
    [|by destruct l].
  rewrite foldl_snoc, fmap_app. simpl.
  destruct l as [|z l].
  - destruct IH as [-> ->]. exists (start y), (start y).
    split_and!; [done|done|set_solver|set_solver|].
    intros x ->%list_elem_of_singleton. lia.
  - destruct IH as (lo & hi & -> & -> & Hlo & Hhi & Hall).
    exists (if (start y <? lo)%Z then start y else lo),
           (if (hi <? start y)%Z then start y else hi).
    split_and!.
    + by destruct (start y <? lo)%Z.
    + by destruct (hi <? start y)%Z.
    + destruct (start y <? lo)%Z; set_solver.
    + destruct (hi <? start y)%Z; set_solver.
    + intros x [Hx| ->%list_elem_of_singleton]%elem_of_app.
      * specialize (Hall x Hx).
        destruct (Z.ltb_spec (start y) lo), (Z.ltb_spec hi (start y)); lia.
      * destruct (Z.ltb_spec (start y) lo), (Z.ltb_spec hi (start y)); lia.
Qed.

(** X24.  The date range of [getStatistics] runs from the earliest start to
    the latest: both ends are starts of items, and every item starts
    between them. *)
Theorem getStatistics_dateRange l x :
  x ∈ l →
  ∃ lo hi,
    range_start (getStatistics l) = Some lo ∧
    range_end (getStatistics l) = Some hi ∧
    lo ∈ start <$> l ∧ hi ∈ start <$> l ∧
    (lo <= start x <= hi)%Z ∧
    ∀ y, y ∈ l → (lo <= start y <= hi)%Z.
Proof.
  intros Hx. unfold getStatistics.
  pose proof (range_spec (mkStats (length l) ∅ ∅ ∅ None None) l
                eq_refl eq_refl) as H.
  destruct l as [|z l]; [by apply elem_of_nil in Hx|].
  destruct H as (lo & hi & ? & ? & ? & ? & Hall).
  exists lo, hi. pose proof (Hall x Hx). split_and!; auto; lia.
Qed.

Lemma getStatistics_dateRange_witness :
  ∃ lo hi,
    range_start (getStatistics
                   [mkEntry "a" 5 None None None None;
                    mkEntry "b" 2 None None None None]) = Some lo ∧
    range_end (getStatistics
                 [mkEntry "a" 5 None None None None;
                  mkEntry "b" 2 None None None None]) = Some hi ∧
    lo ∈ start <$> [mkEntry "a" 5 None None None None;
                    mkEntry "b" 2 None None None None] ∧
    hi ∈ start <$> [mkEntry "a" 5 None None None None;
                    mkEntry "b" 2 None None None None] ∧
    (lo <= 5 <= hi)%Z ∧
    ∀ y, y ∈ [mkEntry "a" 5 None None None None;
              mkEntry "b" 2 None None None None] →
         (lo <= start y <= hi)%Z.
Proof.
  apply (getStatistics_dateRange
           [mkEntry "a" 5 None None None None;
            mkEntry "b" 2 None None None None]
           (mkEntry "a" 5 None None None None)).
  compute_done.
Defined.

End ItemExtras.

(** ** Routes and heatmaps *)

Section LayerExtras.
Import Js GeoMapViz GeoMapLayers.
Implicit Types (c : canvas) (w : window).

Lemma elem_of_checked {A} what (at_ : A → location) entries x :
  x ∈ (checked what at_ entries).1 ↔
  Some x ∈ entries ∧ isValid (Some (at_ x)) = true.
Proof.
  induction entries as [|entry rest IH]; simpl.
  - set_solver.
  - destruct (checked what at_ rest) as [valid warnings]. simpl in IH.
    destruct entry as [y|].
    + destruct (isValid (Some (at_ y))) eqn:Hy; simpl.
      * rewrite !elem_of_cons, IH. naive_solver.
      * rewrite elem_of_cons, IH. split; [naive_solver|].
        intros [[[= ->]|Hin] Hv]; [congruence | done].
    + simpl. rewrite elem_of_cons, IH. naive_solver.
Qed.

Lemma checked_filter {A} what (at_ : A → location) entries :
  Some <$> (checked what at_ entries).1
  = filter (λ e, isValid (at_ <$> e) = true) entries.
Proof.
  induction entries as [|entry rest IH]; simpl; [done|].
  destruct (checked what at_ rest) as [valid warnings]. simpl in IH.
  rewrite filter_cons. destruct entry as [y|]; simpl.
  - destruct (isValid (Some (at_ y))) eqn:Hy; simpl.
    + by f_equal.
    + done.
  - done.
Qed.

(** X25.  [drawRoute] draws through the valid waypoints only, in the order
    given, and draws nothing unless there are two of them: with fewer
    it returns nothing and leaves the map and the routes as they were;
    otherwise it puts one polyline on the map, keeps one more route,
    and every point of the polyline has a latitude from -90 to 90 and
    a longitude from -180 to 180. *)
Theorem drawRoute_needs_two_valid_waypoints waypoints showDirection c :
  let valid := filter (λ e, isValid e = true) waypoints in
  let r := drawRoute waypoints showDirection c in
  (length valid < 2 →
     r.1 = None ∧ shown r.2 = shown c ∧ routes r.2 = routes c) ∧
  (2 ≤ length valid →
     ∃ pl latLngs,
       r.1 = Some pl ∧
       shown r.2 !! pl = Some (Polyline latLngs) ∧
       Some <$> ((λ p, mkLocation EmptyString p.1 p.2) <$> latLngs)
         = (λ e, (λ l, mkLocation EmptyString (latitude l) (longitude l))
                   <$> e) <$> valid ∧
       Forall (λ p, in_range p.1 (-90) 90 ∧ in_range p.2 (-180) 180)
         latLngs ∧
       length (routes r.2) = S (length (routes c)) ∧
       ∃ d, last (routes r.2) = Some (mkRoute pl d)).
Proof.
  cbv zeta. unfold drawRoute.
  pose proof (checked_filter "Invalid waypoint:" (λ wp : location, wp)
                waypoints) as Hf.
  pose proof (elem_of_checked "Invalid waypoint:" (λ wp : location, wp)
                waypoints) as Hin.
  destruct (checked "Invalid waypoint:" (λ wp, wp) waypoints)
    as [valid warnings]. simpl in Hf, Hin.
  assert (Hsame : filter (λ e, isValid e = true) waypoints
                  = filter (λ e, isValid ((λ wp : location, wp) <$> e) = true)
                      waypoints).
  { apply list_filter_iff. intros [l|]; done. }
  rewrite Hsame, <- Hf, length_fmap.
  split.
  - intros Hlt. by rewrite bool_decide_eq_true_2.
  - intros Hge. rewrite bool_decide_eq_false_2 by lia.
    unfold add_layer. simpl.
    exists (next_layer c), (coords <$> valid).
    assert (Hpts : Some <$> ((λ p, mkLocation EmptyString p.1 p.2)
                               <$> (coords <$> valid))
                   = (λ e, (λ l, mkLocation EmptyString (latitude l)
                                   (longitude l)) <$> e)
                       <$> (Some <$> valid)).
    { rewrite <- !list_fmap_compose. by apply list_fmap_ext. }
    assert (Hrange : Forall (λ p, in_range p.1 (-90) 90
                                  ∧ in_range p.2 (-180) 180)
                       (coords <$> valid)).
    { apply Forall_fmap, Forall_forall. intros l Hl.
      apply Hin in Hl as [_ Hl]. by apply isValid_in_range in Hl. }
    destruct (showDirection && decorator_plugin c) eqn:Hd; simpl.
    + split_and!; try done.
      * rewrite lookup_insert_ne by lia. by rewrite lookup_insert_eq.
      * rewrite length_app. simpl. lia.
      * eexists. by rewrite last_snoc.
    + split_and!; try done.
      * by rewrite lookup_insert_eq.
      * rewrite length_app. simpl. lia.
      * eexists. by rewrite last_snoc.
Qed.

Lemma drawRoute_needs_two_valid_waypoints_witness :
  (drawRoute [Some (mkLocation "Dover" (Number (Finite 51)) (Number (Finite 1)));
              Some (mkLocation "nowhere" (Number NaN) (Number (Finite 0)))]
     true (create true true)).1 = None.
Proof.
  apply (drawRoute_needs_two_valid_waypoints
           [Some (mkLocation "Dover" (Number (Finite 51)) (Number (Finite 1)));
            Some (mkLocation "nowhere" (Number NaN) (Number (Finite 0)))]
           true (create true true)).
  vm_compute. lia.
Defined.

Lemma addHeatmap_adds points c :
  heat_plugin c = true →
  (checked "Invalid heatmap point:" spot points).1 ≠ [] →
  ∃ pts,
    shown (addHeatmap points c) = <[next_layer c := Heat pts]> (shown c) ∧
    heatmapLayer (addHeatmap points c) = Some (next_layer c) ∧
    next_layer (addHeatmap points c) = S (next_layer c) ∧
    heat_plugin (addHeatmap points c) = true ∧
    routes (addHeatmap points c) = routes c.
Proof.
  intros Hp Hv. unfold addHeatmap. rewrite Hp. simpl.
  destruct (checked "Invalid heatmap point:" spot points)
    as [valid warnings]. simpl in Hv.
  rewrite bool_decide_eq_false_2 by (by destruct valid).
  simpl. by eexists.
Qed.

Lemma removeHeatmap_held c h :
  heatmapLayer c = Some h →
  removeHeatmap c = with_heatmapLayer None (removeLayer h c).
Proof. intros H. unfold removeHeatmap. by rewrite H. Qed.

(** X26.  [addHeatmap] does not take the previous heat layer off the map: of
    two heatmaps added one after the other, [removeHeatmap] removes the
    second, and the first stays on the map with nothing in the object
    left that refers to it. *)
Theorem addHeatmap_twice_leaves_first_layer first second c :
  heat_plugin c = true →
  (∃ p, Some p ∈ first ∧ isValid (Some (spot p)) = true) →
  (∃ p, Some p ∈ second ∧ isValid (Some (spot p)) = true) →
  let c1 := addHeatmap first c in
  let c3 := removeHeatmap (addHeatmap second c1) in
  ∃ h pts,
    heatmapLayer c1 = Some h ∧
    shown c3 !! h = Some (Heat pts) ∧
    heatmapLayer c3 = None ∧
    removeHeatmap c3 = c3.
Proof.
  intros Hp [p1 H1] [p2 H2]. cbv zeta.
  assert (Hv1 : (checked "Invalid heatmap point:" spot first).1 ≠ []).
  { apply (elem_of_checked "Invalid heatmap point:" spot) in H1.
    intros Hnil. rewrite Hnil in H1.
    by apply elem_of_nil in H1. }
  assert (Hv2 : (checked "Invalid heatmap point:" spot second).1 ≠ []).
  { apply (elem_of_checked "Invalid heatmap point:" spot) in H2.
    intros Hnil. rewrite Hnil in H2.
    by apply elem_of_nil in H2. }
  destruct (addHeatmap_adds first c Hp Hv1) as (pts1 & Hs1 & Hh1 & Hn1 & Hp1 & _).
  destruct (addHeatmap_adds second (addHeatmap first c) Hp1 Hv2)
    as (pts2 & Hs2 & Hh2 & _).
  exists (next_layer c), pts1. split; [done|].
  rewrite (removeHeatmap_held _ _ Hh2).
  unfold with_heatmapLayer, removeLayer. cbn [shown heatmapLayer].
  rewrite Hs2, Hn1, Hs1.
  rewrite lookup_delete_ne by lia. rewrite lookup_insert_ne by lia.
  by rewrite lookup_insert_eq.
Qed.

Lemma addHeatmap_twice_leaves_first_layer_witness :
  ∃ h pts,
    heatmapLayer
      (addHeatmap
         [Some (mkPoint (mkLocation "Dover" (Number (Finite 51))
                           (Number (Finite 1))) Undefined Undefined)]
         (create true true)) = Some h ∧
    shown
      (removeHeatmap
         (addHeatmap
            [Some (mkPoint (mkLocation "Calais" (Number (Finite 50))
                              (Number (Finite 2))) Undefined Undefined)]
            (addHeatmap
               [Some (mkPoint (mkLocation "Dover" (Number (Finite 51))
                                 (Number (Finite 1))) Undefined Undefined)]
               (create true true)))) !! h = Some (Heat pts).
Proof.
  destruct (addHeatmap_twice_leaves_first_layer
              [Some (mkPoint (mkLocation "Dover" (Number (Finite 51))
                                (Number (Finite 1))) Undefined Undefined)]
              [Some (mkPoint (mkLocation "Calais" (Number (Finite 50))
                                (Number (Finite 2))) Undefined Undefined)]
              (create true true))
    as (h & pts & H1 & H2 & _).
  - reflexivity.
  - eexists. split; [by left|]. vm_compute. reflexivity.
  - eexists. split; [by left|]. vm_compute. reflexivity.
  - by exists h, pts.
Defined.

Lemma one_heat_layer_removeHeatmap c :
  one_heat_layer c →
  heatmapLayer (removeHeatmap c) = None ∧
  ∀ i k, shown (removeHeatmap c) !! i = Some k → is_heat k = false.
Proof.
  intros H. unfold removeHeatmap.
  destruct (heatmapLayer c) as [h|] eqn:Hh; simpl.
  - split; [done|]. intros i k Hi.
    apply lookup_delete_Some in Hi as [Hne Hi].
    destruct (is_heat k) eqn:Hk; [|done].
    specialize (H i k Hi Hk). congruence.
  - split; [done|]. intros i k Hi.
    destruct (is_heat k) eqn:Hk; [|done].
    specialize (H i k Hi Hk). congruence.
Qed.

Lemma one_heat_layer_addHeatmap points c :
  heatmapLayer c = None →
  (∀ i k, shown c !! i = Some k → is_heat k = false) →
  one_heat_layer (addHeatmap points c).
Proof.
  intros Hn Hno. unfold addHeatmap.
  destruct (heat_plugin c); simpl.
  - destruct (checked "Invalid heatmap point:" spot points)
      as [valid warnings].
    case_bool_decide; simpl.
    + intros i k Hi Hk. simpl in Hi. rewrite (Hno i k Hi) in Hk. done.
    + intros i k Hi Hk. simpl in *.
      apply lookup_insert_Some in Hi as [[<- _]|[_ Hi]]; [done|].
      rewrite (Hno i k Hi) in Hk. done.
  - intros i k Hi Hk. simpl in Hi. rewrite (Hno i k Hi) in Hk. done.
Qed.

Lemma one_heat_layer_drawRoute waypoints d c :
  one_heat_layer c → one_heat_layer (drawRoute waypoints d c).2.
Proof.
  intros H. unfold drawRoute.
  destruct (checked "Invalid waypoint:" (λ wp, wp) waypoints)
    as [valid warnings].
  case_bool_decide; simpl; [exact H|].
  destruct (d && decorator_plugin c); simpl; intros i k Hi Hk;
    unfold with_routes in *; simpl in *;
    repeat (apply lookup_insert_Some in Hi as [[_ <-]|[_ Hi]]; [done|]);
    by apply (H i k).
Qed.

Lemma one_heat_layer_step w call c :
  incidentMap w = Some c → one_heat_layer c →
  ∃ c', incidentMap (step w call) = Some c' ∧ one_heat_layer c'.
Proof.
  intros Hw H. destruct call as [ps| |wps d]; simpl.
  - unfold addIncidentHeatmap. rewrite Hw. simpl. eexists. split; [done|].
    destruct (one_heat_layer_removeHeatmap c H).
    by apply one_heat_layer_addHeatmap.
  - unfold removeIncidentHeatmap. rewrite Hw. simpl. eexists. split; [done|].
    destruct (one_heat_layer_removeHeatmap c H) as [Hn Hno].
    intros i k Hi Hk. rewrite (Hno i k Hi) in Hk. done.
  - unfold drawPatrolRoute. rewrite Hw. simpl. eexists. split; [done|].
    by apply one_heat_layer_drawRoute.
Qed.

(** X27.  Through the incident-map functions there is never more than one
    heat layer on the map: [addIncidentHeatmap] removes the current one
    before it adds the next, so after any calls every heat layer on the
    map is the one the map object holds. *)
Theorem addIncidentHeatmap_single_layer calls w c :
  incidentMap w = Some c → one_heat_layer c →
  ∃ c', incidentMap (run calls w) = Some c' ∧
    ∀ i j ki kj,
      shown c' !! i = Some ki → is_heat ki = true →
      shown c' !! j = Some kj → is_heat kj = true →
      i = j ∧ heatmapLayer c' = Some i.
Proof.
  revert w c. induction calls as [|call calls IH]; intros w c Hw H.
  - exists c. split; [done|]. intros i j ki kj Hi Hki Hj Hkj.
    pose proof (H i ki Hi Hki). pose proof (H j kj Hj Hkj).
    split; congruence.
  - destruct (one_heat_layer_step w call c Hw H) as (c' & Hw' & H').
    apply (IH (step w call) c' Hw' H').
Qed.

Lemma addIncidentHeatmap_single_layer_witness :
  ∃ c', incidentMap
          (run [AddIncidentHeatmap
                  [Some (mkPoint (mkLocation "Dover" (Number (Finite 51))
                                    (Number (Finite 1))) Undefined Undefined)];
                AddIncidentHeatmap
                  [Some (mkPoint (mkLocation "Calais" (Number (Finite 50))
                                    (Number (Finite 2))) Undefined Undefined)]]
             (mkWindow (Some (create true true)) [])) = Some c' ∧
    ∀ i j ki kj,
      shown c' !! i = Some ki → is_heat ki = true →
      shown c' !! j = Some kj → is_heat kj = true →
      i = j ∧ heatmapLayer c' = Some i.
Proof.
  apply (addIncidentHeatmap_single_layer _
           (mkWindow (Some (create true true)) []) (create true true)).
  - reflexivity.
  - intros i k Hi. unfold create in Hi. cbn [shown] in Hi.
    rewrite lookup_empty in Hi. discriminate Hi.
Defined.

Lemma clearRoutes_fold rs c :
  shown (foldl (λ c r,
                  let c := removeLayer (polyline r) c in
                  match decorator r with
                  | Some d => removeLayer d c
                  | None => c
                  end) c rs)
  = foldl (λ m r, match decorator r with
                  | Some d => delete d (delete (polyline r) m)
                  | None => delete (polyline r) m
                  end) (shown c) rs ∧
  heatmapLayer (foldl (λ c r,
                  let c := removeLayer (polyline r) c in
                  match decorator r with
                  | Some d => removeLayer d c
                  | None => c
                  end) c rs) = heatmapLayer c.
Proof.
  revert c. induction rs as [|r rs IH]; intros c; [done|].
  destruct (IH (match decorator r with
                | Some d => removeLayer d (removeLayer (polyline r) c)
                | None => removeLayer (polyline r) c
                end)) as [IH1 IH2].
  split.
  - etransitivity; [exact IH1|]. simpl. by destruct (decorator r).
  - etransitivity; [exact IH2|]. by destruct (decorator r).
Qed.

Lemma deleted_routes rs (m : gmap nat kind) i k :
  foldl (λ m r, match decorator r with
                | Some d => delete d (delete (polyline r) m)
                | None => delete (polyline r) m
                end) m rs !! i = Some k →
  m !! i = Some k ∧
  ∀ r, r ∈ rs → polyline r ≠ i ∧ decorator r ≠ Some i.
Proof.
  revert m. induction rs as [|r rs IH]; intros m; simpl.
  - intros Hi. split; [done|]. by intros r ?%elem_of_nil.
  - intros Hi. apply IH in Hi as [Hi Hrs].
    assert (m !! i = Some k ∧ polyline r ≠ i ∧ decorator r ≠ Some i)
      as (? & ? & ?).
    { destruct (decorator r) as [d|].
      - apply lookup_delete_Some in Hi as [? Hi].
        apply lookup_delete_Some in Hi as [? Hi].
        split_and!; [done|done|congruence].
      - apply lookup_delete_Some in Hi as [? Hi]. done. }
    split; [done|]. intros r' [->|Hr]%elem_of_cons; [done|by apply Hrs].
Qed.

Lemma routes_held_drawRoute waypoints d c :
  routes_held c → routes_held (drawRoute waypoints d c).2.
Proof.
  intros H. unfold drawRoute.
  destruct (checked "Invalid waypoint:" (λ wp, wp) waypoints)
    as [valid warnings].
  case_bool_decide; simpl; [exact H|].
  destruct (d && decorator_plugin c); simpl; intros i k Hi Hk;
    unfold with_routes in *; simpl in *.
  - apply lookup_insert_Some in Hi as [[<- _]|[_ Hi]].
    { eexists. split; [apply elem_of_app; right; by left|]. by right. }
    apply lookup_insert_Some in Hi as [[<- _]|[_ Hi]].
    { eexists. split; [apply elem_of_app; right; by left|]. by left. }
    destruct (H i k Hi Hk) as (r & Hr & Hor).
    exists r. split; [set_solver|done].
  - apply lookup_insert_Some in Hi as [[<- _]|[_ Hi]].
    { eexists. split; [apply elem_of_app; right; by left|]. by left. }
    destruct (H i k Hi Hk) as (r & Hr & Hor).
    exists r. split; [set_solver|done].
Qed.

(** X28.  [clearRoutes] takes every route off the map: after any number of
    [drawRoute] calls on a map whose polylines and decorators are those
    of the routes it holds, only heat layers remain once the routes are
    cleared, and the object holds no route. *)
Theorem clearRoutes_removes_every_route draws c :
  routes_held c →
  let drawn := foldl (λ c wd, (drawRoute wd.1 wd.2 c).2) c draws in
  routes (clearRoutes drawn) = [] ∧
  heatmapLayer (clearRoutes drawn) = heatmapLayer drawn ∧
  ∀ i k, shown (clearRoutes drawn) !! i = Some k →
         is_heat k = true ∧ shown drawn !! i = Some k.
Proof.
  intros H. cbv zeta.
  assert (Hd : routes_held (foldl (λ c wd, (drawRoute wd.1 wd.2 c).2) c draws)).
  { revert c H. induction draws as [|wd draws IH]; intros c H; [done|].
    simpl. apply IH. by apply routes_held_drawRoute. }
  generalize dependent (foldl (λ c wd, (drawRoute wd.1 wd.2 c).2) c draws).
  clear c H. intros c H. unfold clearRoutes, with_routes. cbn [routes shown heatmapLayer].
  destruct (clearRoutes_fold (routes c) c) as [E1 E2].
  split; [done|]. split; [exact E2|]. intros i k Hi.
  pose proof (eq_ind _ (λ m, m !! i = Some k) Hi _ E1) as Hi'.
  simpl in Hi'. clear Hi.
  apply deleted_routes in Hi' as [Hi Hno]. split; [|done].
  destruct (is_heat k) eqn:Hk; [done|].
  destruct (H i k Hi Hk) as (r & Hr & Hor).
  destruct (Hno r Hr). by destruct Hor.
Qed.

Lemma clearRoutes_removes_every_route_witness :
  routes (clearRoutes
            (foldl (λ c wd, (drawRoute wd.1 wd.2 c).2) (create true true)
               [([Some (mkLocation "Dover" (Number (Finite 51))
                          (Number (Finite 1)));
                  Some (mkLocation "Calais" (Number (Finite 50))
                          (Number (Finite 2)))], true)])) = [].
Proof.
  apply (clearRoutes_removes_every_route
           [([Some (mkLocation "Dover" (Number (Finite 51))
                      (Number (Finite 1)));
              Some (mkLocation "Calais" (Number (Finite 50))
                      (Number (Finite 2)))], true)]
           (create true true)).
  intros i k Hi. unfold create in Hi. cbn [shown] in Hi.
  rewrite lookup_empty in Hi. discriminate Hi.
Defined.

End LayerExtras.

(** ** Colours *)

Section ColourExtras.
Import NodeStyle.
Local Open Scope Z_scope.

Lemma digits_S fuel n acc :
  digits (S fuel) n acc
  = if n =? 0 then acc
    else digits fuel (n / 16) (String (digit (n mod 16)) acc).
Proof. reflexivity. Qed.

Lemma toString16_seven n :
  16777216 <= n < 268435456 →
  toString16 n
  = String (digit ((n / 16 / 16 / 16 / 16 / 16 / 16) mod 16))
      (String (digit ((n / 16 / 16 / 16 / 16 / 16) mod 16))
         (String (digit ((n / 16 / 16 / 16 / 16) mod 16))
            (String (digit ((n / 16 / 16 / 16) mod 16))
               (String (digit ((n / 16 / 16) mod 16))
                  (String (digit ((n / 16) mod 16))
                     (String (digit (n mod 16)) EmptyString)))))).
Proof.
  intros Hn. unfold toString16.
  rewrite (proj2 (Z.eqb_neq _ _)) by lia.
  assert (24 <= Z.log2 n) by (apply (Z.log2_le_mono 16777216); lia).
  assert (∃ f, S (Z.to_nat (Z.log2 n)) = (8 + f)%nat) as [f ->]
    by (exists (Z.to_nat (Z.log2 n) - 7)%nat; lia).
  change (8 + f)%nat with (S (S (S (S (S (S (S (S f)))))))).
  do 7 (rewrite digits_S, (proj2 (Z.eqb_neq _ _))
          by (Z.to_euclidean_division_equations; lia)).
  rewrite digits_S, (proj2 (Z.eqb_eq _ _))
    by (Z.to_euclidean_division_equations; lia).
  done.
Qed.

Lemma clamp_saturate x : clamp x = saturate x ∧ 0 <= clamp x <= 255.
Proof.
  unfold clamp, saturate.
  destruct (Z.ltb_spec x 255), (Z.ltb_spec x 1); lia.
Qed.

Lemma lightenColor_bytes r g b :
  0 <= r <= 255 → 0 <= g <= 255 → 0 <= b <= 255 →
  String.append "#" (slice1 (toString16 (16777216 + r * 65536 + g * 256 + b)))
  = String.append "#" (hex2 r +:+ hex2 g +:+ hex2 b).
Proof.
  intros Hr Hg Hb. rewrite toString16_seven by lia.
  unfold hex2. cbn [slice1 String.append].
  set (n := 16777216 + r * 65536 + g * 256 + b).
  assert (n = 16777216 + r * 65536 + g * 256 + b) as Hn by done.
  clearbody n.
  assert ((n / 16 / 16 / 16 / 16 / 16) mod 16 = r / 16) as ->
    by (Z.to_euclidean_division_equations; lia).
  assert ((n / 16 / 16 / 16 / 16) mod 16 = r mod 16) as ->
    by (Z.to_euclidean_division_equations; lia).
  assert ((n / 16 / 16 / 16) mod 16 = g / 16) as ->
    by (Z.to_euclidean_division_equations; lia).
  assert ((n / 16 / 16) mod 16 = g mod 16) as ->
    by (Z.to_euclidean_division_equations; lia).
  assert ((n / 16) mod 16 = b / 16) as ->
    by (Z.to_euclidean_division_equations; lia).
  assert (n mod 16 = b mod 16) as ->
    by (Z.to_euclidean_division_equations; lia).
  done.
Qed.

(** X29.  Whatever the colour and the amount, [lightenColor] returns a
    well-formed colour: '#' followed by the two hexadecimal digits of
    each of three channels between 0 and 255. *)
Theorem lightenColor_well_formed num amt :
  ∃ r g b,
    0 <= r <= 255 ∧ 0 <= g <= 255 ∧ 0 <= b <= 255 ∧
    lightenColor num amt = String.append "#" (hex2 r +:+ hex2 g +:+ hex2 b) ∧
    String.length (lightenColor num amt) = 7%nat.
Proof.
  unfold lightenColor. cbv zeta.
  set (r := clamp _). set (g := clamp _). set (b := clamp _).
  assert (Hr : 0 <= r <= 255) by apply clamp_saturate.
  assert (Hg : 0 <= g <= 255) by apply clamp_saturate.
  assert (Hb : 0 <= b <= 255) by apply clamp_saturate.
  exists r, g, b. rewrite lightenColor_bytes by done.
  split_and!; try done; lia.
Qed.

(** X30.  On a colour '#rrggbb', [lightenColor] adds the amount to each of
    the three channels and stops at 255 (at 0 for a negative amount);
    it does not scale the channels. *)
Theorem lightenColor_adds_to_each_channel num amt :
  0 <= num < 16777216 →
  lightenColor num amt
  = String.append "#"
      (hex2 (saturate (num / 65536 + amt))
       +:+ hex2 (saturate ((num / 256) mod 256 + amt))
       +:+ hex2 (saturate (num mod 256 + amt))).
Proof.
  intros Hn. unfold lightenColor. cbv zeta.
  assert (toInt32 num = num) as ->.
  { unfold toInt32. rewrite Z.mod_small by lia. lia. }
  rewrite !Z.shiftr_div_pow2 by lia.
  assert (Hl : ∀ x, Z.land x 255 = x mod 256).
  { intros x. change 255 with (Z.ones 8). by rewrite Z.land_ones by lia. }
  rewrite !Hl.
  change (2 ^ 16) with 65536. change (2 ^ 8) with 256.
  rewrite lightenColor_bytes by apply clamp_saturate.
  by rewrite !(proj1 (clamp_saturate _)).
Qed.

Lemma lightenColor_adds_to_each_channel_witness :
  lightenColor 15158332 51 = "#ff7f6f"%string.
Proof.
  rewrite (lightenColor_adds_to_each_channel 15158332 51) by lia.
  vm_compute. reflexivity.
Defined.

End ColourExtras.
